(** * GEMMHeaders: the Metal header generator and the kernels it emits

    [GEMMHeaders.cpp] builds two Metal headers as text.  The first,
    [metal_simdgroup_event], is a fixed text holding the synchronous
    tile copies.  The second, [metal_simdgroup_matrix_storage], is a fixed
    prologue (Morton order, [apply_offset]) followed by eight generated
    load and store functions and a fixed epilogue.

    The development has two layers.
    - [Metal]: the emitted kernel code read as a program: integers of the
      declared widths are [Z] with the wrap-around written out, memory is
      a map from element index to value, loops carry explicit fuel.
    - [Generator]: the C++ generator itself, a function from a descriptor
      to text, with its failures as an error result; [Stateful] reads the
      same source statement by statement, with its variables in a store.
    [MetalText] links the two: it reads emitted expressions and emitted
    conditional chains back as programs, and [Statements] runs the
    statements of a generated function.  [Spec] holds the vocabulary of
    the specification.  The properties follow in the second part, one
    module per subject. *)

From Stdlib Require Import ZArith Zquot List Bool Lia String Ascii DecimalString.
Import ListNotations.

Local Open Scope Z_scope.

(* ================================================================== *)
(** * Part I: definitions                                              *)
(* ================================================================== *)

(** ** Emitted kernel code *)

Module Metal.

(** Conversion to an unsigned integer type of [bits] bits. *)
Definition wrap (bits v : Z) : Z := v mod 2 ^ bits.

Definition ushort : Z -> Z := wrap 16.
Definition uint   : Z -> Z := wrap 32.
Definition ulong  : Z -> Z := wrap 64.

Definition is_ushort (v : Z) : Prop := 0 <= v < 2 ^ 16.
Definition is_uint   (v : Z) : Prop := 0 <= v < 2 ^ 32.

(** [ushort2] and [uint2]: a pair of components, with the [.yx] swizzle. *)
Record vec2 : Set := vec2_of { vec_x : Z; vec_y : Z }.

Definition yx (v : vec2) : vec2 := vec2_of (vec_y v) (vec_x v).

(** *** morton_order *)

Definition QUADRANT_SPAN_M : Z := 4.
Definition THREADS_PER_QUADRANT : Z := 8.

Definition morton_order (thread_index_in_simdgroup : Z) : vec2 :=
  let lane_id := ushort thread_index_in_simdgroup in
  let quad_id := ushort (lane_id / 4) in
  let M_floor_of_quadrant := ushort ((quad_id / 4) * QUADRANT_SPAN_M) in
  let M_in_quadrant := ushort ((lane_id / 2) mod (THREADS_PER_QUADRANT / 2)) in
  let M_in_simd := ushort (M_floor_of_quadrant + M_in_quadrant) in
  let N_floor_of_quadrant := ushort (Z.land quad_id 2 * 2) in
  let N_in_quadrant := ushort ((lane_id mod 2) * 2) in
  let N_in_simd := ushort (N_floor_of_quadrant + N_in_quadrant) in
  vec2_of N_in_simd M_in_simd.

(** The layout drawn in the comment above [morton_order]: the lane owning
    each cell, row by row. *)
Definition layout_comment : list (list Z) :=
  [ [ 0;  0;  1;  1;  8;  8;  9;  9];
    [ 2;  2;  3;  3; 10; 10; 11; 11];
    [ 4;  4;  5;  5; 12; 12; 13; 13];
    [ 6;  6;  7;  7; 14; 14; 15; 15];
    [16; 16; 17; 17; 24; 24; 25; 25];
    [18; 18; 19; 19; 26; 26; 27; 27];
    [20; 20; 21; 21; 28; 28; 29; 29];
    [22; 22; 23; 23; 30; 30; 31; 31] ].

(** *** apply_offset, device overload

    A pointer is the index of the element it points to.  The product is
    formed between two [uint] operands, so it is a [uint]; [ulong(...)]
    widens the wrapped product.  The two pointer additions follow. *)
Definition apply_offset_device
    (src elements_per_row : Z) (matrix_origin : vec2)
    (transpose_matrix : bool) : Z :=
  if transpose_matrix then
    src + ulong (uint (vec_x matrix_origin * elements_per_row))
        + vec_y matrix_origin
  else
    src + ulong (uint (vec_y matrix_origin * elements_per_row))
        + vec_x matrix_origin.

(** *** simdgroup_event::async_copy *)

Inductive simdgroup_async_copy_clamp_mode : Set :=
| clamp_to_zero
| clamp_to_edge.

Definition clamp_mode_eqb (a b : simdgroup_async_copy_clamp_mode) : bool :=
  match a, b with
  | clamp_to_zero, clamp_to_zero | clamp_to_edge, clamp_to_edge => true
  | _, _ => false
  end.

(** [for (ushort i = first; i < bound; ++i) body]: the counter is a
    [ushort], so the increment wraps.  [None] is running out of fuel. *)
Fixpoint for_ushort {St : Type} (fuel : nat) (i bound : Z)
    (body : Z -> St -> option St) (s : St) : option St :=
  match fuel with
  | O => None
  | S fuel' =>
      if i <? bound then
        match body i s with
        | Some s' => for_ushort fuel' (ushort (i + 1)) bound body s'
        | None => None
        end
      else Some s
  end.

Section AsyncCopy.

(** The element type [T] and the value [T(0)]. *)
Variable T : Type.
Variable T0 : T.

(** The elements reachable from a pointer, by index. *)
Definition memory : Type := Z -> T.

(** [m[i] = v] *)
Definition store (m : memory) (i : Z) (v : T) : memory :=
  fun j => if j =? i then v else m j.

(** Tiled copy, device to threadgroup. *)
Definition async_copy_to_threadgroup (fuel : nat)
    (dst : memory) (dst_elements_per_row : Z) (dst_tile_dimensions : vec2)
    (src : memory) (src_elements_per_row : Z) (src_tile_dimensions : vec2)
    (transpose_matrix : bool)
    (clamp_mode : simdgroup_async_copy_clamp_mode) : option memory :=
  let src_tile_dimensions :=
    if transpose_matrix then yx src_tile_dimensions else src_tile_dimensions in
  let dst_tile_dimensions :=
    if transpose_matrix then yx dst_tile_dimensions else dst_tile_dimensions in
  for_ushort fuel 0 (vec_y dst_tile_dimensions) (fun y dst =>
    for_ushort fuel 0 (vec_x dst_tile_dimensions) (fun x dst =>
      let in_bounds :=
        (x <? vec_x src_tile_dimensions) && (y <? vec_y src_tile_dimensions) in
      let dst_index :=
        ulong (ulong (ulong y * ulong dst_elements_per_row) + ulong x) in
      if in_bounds then
        let src_index :=
          ulong (ulong (ulong y * ulong src_elements_per_row) + ulong x) in
        Some (store dst dst_index (src src_index))
      else if clamp_mode_eqb clamp_mode clamp_to_edge
              && (0 <? vec_x src_tile_dimensions)
              && (0 <? vec_y src_tile_dimensions) then
        let sx := Z.min x (ushort (vec_x src_tile_dimensions - 1)) in
        let sy := Z.min y (ushort (vec_y src_tile_dimensions - 1)) in
        let src_index :=
          ulong (ulong (ulong sy * ulong src_elements_per_row) + ulong sx) in
        Some (store dst dst_index (src src_index))
      else
        Some (store dst dst_index T0)) dst) dst.

(** Tiled copy, threadgroup to device. *)
Definition async_copy_to_device (fuel : nat)
    (dst : memory) (dst_elements_per_row : Z) (dst_tile_dimensions : vec2)
    (src : memory) (src_elements_per_row : Z) (src_tile_dimensions : vec2)
    (transpose_matrix : bool) : option memory :=
  let src_tile_dimensions :=
    if transpose_matrix then yx src_tile_dimensions else src_tile_dimensions in
  let dst_tile_dimensions :=
    if transpose_matrix then yx dst_tile_dimensions else dst_tile_dimensions in
  let tile_x := Z.min (vec_x dst_tile_dimensions) (vec_x src_tile_dimensions) in
  let tile_y := Z.min (vec_y dst_tile_dimensions) (vec_y src_tile_dimensions) in
  for_ushort fuel 0 tile_y (fun y dst =>
    for_ushort fuel 0 tile_x (fun x dst =>
      let dst_index :=
        ulong (ulong (ulong y * ulong dst_elements_per_row) + ulong x) in
      let src_index :=
        ulong (ulong (ulong y * ulong src_elements_per_row) + ulong x) in
      Some (store dst dst_index (src src_index))) dst) dst.

End AsyncCopy.

(** *** The elementwise copies

    The two overloads, device to threadgroup and threadgroup to device,
    have the same body. *)

(** [for (ulong i = first; i < bound; ++i) body] *)
Fixpoint for_ulong {St : Type} (fuel : nat) (i bound : Z)
    (body : Z -> St -> option St) (s : St) : option St :=
  match fuel with
  | O => None
  | S fuel' =>
      if i <? bound then
        match body i s with
        | Some s' => for_ulong fuel' (ulong (i + 1)) bound body s'
        | None => None
        end
      else Some s
  end.

Section AsyncCopyElements.

Variable T : Type.

Definition async_copy_elements (fuel : nat)
    (dst : memory T) (src : memory T) (n_elements : Z) : option (memory T) :=
  for_ulong fuel 0 n_elements (fun i dst =>
    Some (store T dst i (src i))) dst.

End AsyncCopyElements.

(** *** apply_offset, threadgroup overload

    The operands are [ushort], so the product is formed in [int] after
    integer promotion; a product that [int] cannot hold is undefined, which
    is [None] here. *)
Definition int_value (v : Z) : option Z :=
  if (- 2 ^ 31 <=? v) && (v <? 2 ^ 31) then Some v else None.

Definition apply_offset_threadgroup
    (src elements_per_row : Z) (matrix_origin : vec2)
    (transpose_matrix : bool) : option Z :=
  if transpose_matrix then
    match int_value (vec_x matrix_origin * elements_per_row) with
    | Some product => Some (src + product + vec_y matrix_origin)
    | None => None
    end
  else
    match int_value (vec_y matrix_origin * elements_per_row) with
    | Some product => Some (src + product + vec_x matrix_origin)
    | None => None
    end.

End Metal.

(** ** The fixed texts of the two headers

    Copied from the string literals of the source, byte for byte.  A line
    break inside a literal is the newline character. *)

Module HeaderText.

Local Open Scope string_scope.

Definition double_quote : string := String "034"%char EmptyString.

(** The multi-line literal returned by [createMetalSimdgroupEvent]: its
    content starts after the line break that follows the opening delimiter
    and stops before the one that precedes the closing delimiter. *)
Definition metal_simdgroup_event : string :=
  "// -*- Metal -*-
//===-- metal_simdgroup_event ---------------------------------------------===//
// Copyright (c) 2024 Philip Turner. See MIT LICENSE
//===----------------------------------------------------------------------===//

#ifndef __METAL_SIMDGROUP_EVENT
#define __METAL_SIMDGROUP_EVENT

using namespace metal;

enum class simdgroup_async_copy_clamp_mode {
  clamp_to_zero = 0,
  clamp_to_edge = 1
};

// NOTE:
// This is a " ++ double_quote ++ "no-asm" ++ double_quote ++ " compatibility implementation.
// It preserves the API surface used by the kernels, but does NOT overlap copy
// latency with compute (it is synchronous).
struct simdgroup_event {
  METAL_FUNC simdgroup_event() thread {}

  template <typename T>
  METAL_FUNC void async_copy(
    threadgroup T *dst,
    const device T *src,
    ulong n_elements
  ) thread {
    for (ulong i = 0; i < n_elements; ++i) {
      dst[i] = src[i];
    }
  }

  template <typename T>
  METAL_FUNC void async_copy(
    device T *dst,
    const threadgroup T *src,
    ulong n_elements
  ) thread {
    for (ulong i = 0; i < n_elements; ++i) {
      dst[i] = src[i];
    }
  }

  template <typename T>
  METAL_FUNC void async_copy(
    // Destination
    threadgroup T *dst,
    ushort dst_elements_per_row,
    ushort2 dst_tile_dimensions,

    // Source
    const device T *src,
    uint src_elements_per_row,
    ushort2 src_tile_dimensions,

    // Other
    bool transpose_matrix = false,
    simdgroup_async_copy_clamp_mode clamp_mode =
      simdgroup_async_copy_clamp_mode::clamp_to_zero
  ) thread {
    // Match the existing behavior: when transpose_matrix is true, we swap the
    // tile dims (we do NOT reorder elements; downstream addressing still uses
    // the transpose flag).
    if (transpose_matrix) {
      src_tile_dimensions = src_tile_dimensions.yx;
      dst_tile_dimensions = dst_tile_dimensions.yx;
    }

    // Copy dst_tile_dimensions; clamp out-of-bounds src reads.
    for (ushort y = 0; y < dst_tile_dimensions.y; ++y) {
      for (ushort x = 0; x < dst_tile_dimensions.x; ++x) {
        bool in_bounds = (x < src_tile_dimensions.x) && (y < src_tile_dimensions.y);

        ulong dst_index = ulong(y) * ulong(dst_elements_per_row) + ulong(x);

        if (in_bounds) {
          ulong src_index = ulong(y) * ulong(src_elements_per_row) + ulong(x);
          dst[dst_index] = src[src_index];
        } else if (clamp_mode == simdgroup_async_copy_clamp_mode::clamp_to_edge &&
                   src_tile_dimensions.x > 0 && src_tile_dimensions.y > 0) {
          ushort sx = min(x, ushort(src_tile_dimensions.x - 1));
          ushort sy = min(y, ushort(src_tile_dimensions.y - 1));
          ulong src_index = ulong(sy) * ulong(src_elements_per_row) + ulong(sx);
          dst[dst_index] = src[src_index];
        } else {
          dst[dst_index] = T(0);
        }
      }
    }
  }

  template <typename T>
  METAL_FUNC void async_copy(
    // Destination
    device T *dst,
    uint dst_elements_per_row,
    ushort2 dst_tile_dimensions,

    // Source
    const threadgroup T *src,
    ushort src_elements_per_row,
    ushort2 src_tile_dimensions,

    // Other
    bool transpose_matrix = false
  ) thread {
    if (transpose_matrix) {
      src_tile_dimensions = src_tile_dimensions.yx;
      dst_tile_dimensions = dst_tile_dimensions.yx;
    }

    // Copy the overlap; avoid OOB if someone passes mismatched tile dims.
    ushort tile_x = min(dst_tile_dimensions.x, src_tile_dimensions.x);
    ushort tile_y = min(dst_tile_dimensions.y, src_tile_dimensions.y);

    for (ushort y = 0; y < tile_y; ++y) {
      for (ushort x = 0; x < tile_x; ++x) {
        ulong dst_index = ulong(y) * ulong(dst_elements_per_row) + ulong(x);
        ulong src_index = ulong(y) * ulong(src_elements_per_row) + ulong(x);
        dst[dst_index] = src[src_index];
      }
    }
  }

  METAL_FUNC static void wait(int /*count*/, thread simdgroup_event* /*events*/) {
    // No-op for synchronous implementation.
  }
};

#endif // __METAL_SIMDGROUP_EVENT".

(** The raw literal that opens [metal_simdgroup_matrix_storage]. *)
Definition matrix_storage_first_section : string :=
  "
// -*- Metal -*-
//===-- metal_simdgroup_matrix_storage ------------------------------------===//
// Copyright (c) 2024 Philip Turner. See MIT LICENSE
//===----------------------------------------------------------------------===//

#ifndef __METAL_SIMDGROUP_MATRIX_STORAGE
#define __METAL_SIMDGROUP_MATRIX_STORAGE

// The layout of threads within a SIMD matrix.
//
//  0  0  1  1  8  8  9  9
//  2  2  3  3 10 10 11 11
//  4  4  5  5 12 12 13 13
//  6  6  7  7 14 14 15 15
// 16 16 17 17 24 24 25 25
// 18 18 19 19 26 26 27 27
// 20 20 21 21 28 28 29 29
// 22 22 23 23 30 30 31 31
//
// This is Morton order, a method for coalescing data accesses. It is used
// in a variety of contexts, from ray tracing acceleration structures, to
// nodal-point Laplacians, to sorting large lattices of atoms.
//
// Source: https://patents.google.com/patent/US11256518B2
METAL_FUNC static ushort2 morton_order(ushort thread_index_in_simdgroup) {
  ushort lane_id = thread_index_in_simdgroup;
  ushort quad_id = lane_id / 4;
  
  constexpr ushort QUADRANT_SPAN_M = 4;
  constexpr ushort THREADS_PER_QUADRANT = 8;
  ushort M_floor_of_quadrant = (quad_id / 4) * QUADRANT_SPAN_M;
  ushort M_in_quadrant = (lane_id / 2) % (THREADS_PER_QUADRANT / 2);
  ushort M_in_simd = M_floor_of_quadrant + M_in_quadrant;
  
  ushort N_floor_of_quadrant = (quad_id & 2) * 2; // 0 or 4
  ushort N_in_quadrant = (lane_id % 2) * 2; // 0 or 2
  ushort N_in_simd = N_floor_of_quadrant + N_in_quadrant;
  
  return ushort2(N_in_simd, M_in_simd);
}

#pragma METAL internals : enable
namespace metal
{
  template <typename T>
  struct simdgroup_matrix_storage {
    typedef vec<T, 64> storage_type;
    
    storage_type t;
    
    METAL_FUNC thread vec<T, 2>* thread_elements() thread {
      return reinterpret_cast<thread vec<T, 2>*>(&t);
    }
    
    METAL_FUNC simdgroup_matrix_storage() thread = default;
    
    METAL_FUNC simdgroup_matrix_storage(vec<T, 2> thread_elements) thread {
      *(this->thread_elements()) = thread_elements;
    }

    METAL_FUNC static device T* apply_offset(device T *src, uint elements_per_row, uint2 matrix_origin, bool transpose_matrix = false) {
      if (transpose_matrix) {
        return src + ulong(matrix_origin.x * elements_per_row) + matrix_origin.y;
      } else {
        return src + ulong(matrix_origin.y * elements_per_row) + matrix_origin.x;
      }
    }
    
    METAL_FUNC static threadgroup T* apply_offset(threadgroup T *src, ushort elements_per_row, ushort2 matrix_origin, bool transpose_matrix = false) {
      if (transpose_matrix) {
        return src + matrix_origin.x * elements_per_row + matrix_origin.y;
      } else {
        return src + matrix_origin.y * elements_per_row + matrix_origin.x;
      }
    }

".

(** The raw literal that closes [metal_simdgroup_matrix_storage]. *)
Definition matrix_storage_last_section : string :=
  "
    template <typename U, typename V>
    METAL_FUNC void multiply(simdgroup_matrix_storage<U> a, simdgroup_matrix_storage<V> b, bool accumulate = true) {
      if (!accumulate) {
        *(thread_elements()) = vec<T, 2>(0);
      }
      t = __metal_simdgroup_matrix_8x8_multiply_accumulate(a.t, b.t, t, typename simdgroup_matrix_storage<T>::storage_type());
    }
  };
} // namespace metal
#pragma METAL internals : disable

#endif // __METAL_SIMDGROUP_MATRIX_STORAGE

".

End HeaderText.

(** ** The generator *)

Module Generator.

Local Open Scope string_scope.

Definition newline : string := String "010"%char EmptyString.

(** [std::to_string] on an [int64_t]. *)
Definition to_string (value : Z) : string :=
  NilZero.string_of_int (Z.to_int value).

(** [std::vector::push_back] *)
Definition push_back {A : Type} (v : list A) (a : A) : list A :=
  (v ++ [a])%list.

(** *** Failures

    [InvalidDescriptor] is a failed precondition.  [bad_optional_access] is
    what [std::optional::value] throws on an empty optional, and
    [length_error] what the [std::string] fill constructor throws when the
    count, converted to [size_t], exceeds the largest string: the case of a
    negative [indentationSpaceCount].  A failing call returns no text. *)
Inductive error : Set :=
| InvalidDescriptor
| bad_optional_access
| length_error.

Definition result (A : Type) : Type := (error + A)%type.

Definition ret {A : Type} (a : A) : result A := inr a.
Definition raise {A : Type} (e : error) : result A := inl e.
Definition bind {A B : Type} (c : result A) (k : A -> result B) : result B :=
  match c with
  | inl e => inl e
  | inr a => k a
  end.

Notation "x <- c ;; k" := (bind c (fun x => k))
  (at level 61, c at next level, right associativity).
Notation "c ;;; k" := (bind c (fun _ => k))
  (at level 61, right associativity).

(** Modelled from the spec: the macro [CCV_NNC_MFA_PRECONDITION] is declared
    in [ccv_nnc_mfa_error.hpp], which is not among the sources.  The spec
    treats a failed precondition as the fatal failure InvalidDescriptor,
    after which generation does not proceed. *)
Definition CCV_NNC_MFA_PRECONDITION (expr : bool) : result unit :=
  if expr then ret tt else raise InvalidDescriptor.

(** [std::optional::has_value] and [std::optional::value] *)
Definition has_value {A : Type} (o : option A) : bool :=
  match o with Some _ => true | None => false end.

Definition value {A : Type} (o : option A) : result A :=
  match o with Some a => ret a | None => raise bad_optional_access end.

(** [std::string(count, ' ')] with [count] an [int64_t]. *)
Definition string_of_spaces (count : Z) : result string :=
  if (count <? 0)%Z then raise length_error
  else ret (string_of_list_ascii (repeat " "%char (Z.to_nat count))).

(** *** The enumerations and the descriptor *)

Inductive AddressSpace : Set :=
| device
| threadgroup.

Definition keyword (value : AddressSpace) : string :=
  match value with
  | device => "device"
  | threadgroup => "threadgroup"
  end.

Definition offsetType (value : AddressSpace) : string :=
  match value with
  | device => "uint"
  | threadgroup => "ushort"
  end.

Inductive Action : Set :=
| load
| store.

Definition Action_eqb (a b : Action) : bool :=
  match a, b with
  | load, load | store, store => true
  | _, _ => false
  end.

(** [isspace] in the C locale, on a byte. *)
Definition isspace (character : ascii) : bool :=
  let c := nat_of_ascii character in
  ((c =? 32) || ((9 <=? c) && (c <=? 13)))%nat.

(** [insertBlockContents]: [body] is passed by reference, and is returned
    here with the lines of [block] appended. *)
Definition insertBlockContents (body : list string) (block : list string)
    : list string :=
  fold_left (fun body line =>
    let allCharactersWhitespace :=
      fold_left (fun allCharactersWhitespace character =>
        if isspace character then allCharactersWhitespace else false)
        (list_ascii_of_string line) true in
    if allCharactersWhitespace then push_back body "  "
    else push_back body ("  " ++ line ++ ";")) block body.

(** The lambdas of [createMemoryAccess] capture the three unwrapped
    fields by value. *)
Section createMemoryAccess_captures.

Variable action : Action.
Variable addressSpace : AddressSpace.
Variable decodingBF16 : bool.

Definition pointerArgument (dataType : string) : string :=
  if Action_eqb action load then
    "const " ++ keyword addressSpace ++ " " ++ dataType ++ " *src"
  else
    keyword addressSpace ++ " " ++ dataType ++ " *dst".

Definition arguments : list string :=
  let arguments := [] in
  let arguments :=
    if decodingBF16 then push_back arguments (pointerArgument "bfloat")
    else push_back arguments (pointerArgument "U") in
  let arguments :=
    push_back arguments (offsetType addressSpace ++ " elements_per_row") in
  let arguments := push_back arguments "ushort2 matrix_origin" in
  let arguments := push_back arguments "bool transpose_matrix = false" in
  arguments.

Definition createAddress (transposed : bool) (offset : Z) : string :=
  let lineY := offsetType addressSpace ++ "(matrix_origin.y)" in
  let lineX := "matrix_origin.x + " ++ to_string offset in
  let lineX := offsetType addressSpace ++ "(" ++ lineX ++ ")" in
  if transposed then
    lineX ++ " * elements_per_row + " ++ lineY
  else
    lineY ++ " * elements_per_row + " ++ lineX.

Definition createTwoPartAccess (transposed : bool) : list string :=
  let lines := [] in
  let lines :=
    fold_left (fun lines laneID =>
      push_back lines
        (offsetType addressSpace ++ " address" ++ to_string laneID ++
         " = " ++ createAddress transposed laneID)) [0; 1]%Z lines in
  let lines :=
    if Action_eqb action load then
      if decodingBF16 then
        let lines := push_back lines "bfloat memoryForm0 = src[address0]" in
        push_back lines "bfloat memoryForm1 = src[address1]"
      else
        let lines := push_back lines "U memoryForm0 = src[address0]" in
        push_back lines "U memoryForm1 = src[address1]"
    else lines in
  let lines :=
    if Action_eqb action load then
      if decodingBF16 then
        let lines := push_back lines "" in
        let lines := push_back lines
          "bfloat4 registerForm = *(thread bfloat4*)(thread_elements())" in
        let lines := push_back lines "registerForm[1] = memoryForm0" in
        let lines := push_back lines "registerForm[3] = memoryForm1" in
        push_back lines
          "((thread bfloat4*)thread_elements())[0] = registerForm"
      else
        let lines := push_back lines
          "((thread T*)thread_elements())[0] = T(memoryForm0)" in
        push_back lines
          "((thread T*)thread_elements())[1] = T(memoryForm1)"
    else
      if decodingBF16 then
        let lines := push_back lines
          "bfloat4 registerForm = *(thread bfloat4*)(thread_elements())" in
        push_back lines "registerForm[2] = registerForm[1]"
      else
        let lines := push_back lines
          "T registerForm0 = ((thread T*)thread_elements())[0]" in
        push_back lines
          "T registerForm1 = ((thread T*)thread_elements())[1]" in
  let lines :=
    if Action_eqb action store then
      if decodingBF16 then
        let lines := push_back lines "dst[address0] = registerForm[2]" in
        push_back lines "dst[address1] = registerForm[3]"
      else
        let lines := push_back lines "dst[address0] = U(registerForm0)" in
        push_back lines "dst[address1] = U(registerForm1)"
    else lines in
  lines.

Definition createOnePartAccess : list string :=
  let lines := [] in
  let lines :=
    let address := createAddress false 0 in
    push_back lines ("auto combinedAddress = " ++ address) in
  let lines :=
    if Action_eqb action load then
      if decodingBF16 then
        let lines := push_back lines
          ("bfloat2 memoryForm = *(const " ++
           keyword addressSpace ++ " packed_bfloat2*)(src + combinedAddress)") in
        let lines := push_back lines "" in
        let lines := push_back lines
          "bfloat4 registerForm = *(thread bfloat4*)(thread_elements())" in
        let lines := push_back lines
          "((thread float*)&registerForm)[1] = *(thread float*)(&memoryForm)" in
        let lines := push_back lines
          "((thread bfloat*)&registerForm)[1] = memoryForm[0]" in
        push_back lines
          "((thread bfloat4*)thread_elements())[0] = registerForm"
      else
        let lines := push_back lines
          ("vec<U, 2> memoryForm = *(const " ++
           keyword addressSpace ++ " vec<U, 2>*)(src + combinedAddress)") in
        push_back lines "*(thread_elements()) = vec<T, 2>(memoryForm)"
    else
      if decodingBF16 then
        let lines := push_back lines
          "bfloat4 registerForm = *(thread bfloat4*)(thread_elements())" in
        let lines := push_back lines "registerForm[2] = registerForm[1]" in
        let lines := push_back lines
          "float memoryForm = ((thread float*)&registerForm)[1]" in
        push_back lines
          ("*(" ++ keyword addressSpace ++ " float*)" ++
           "(dst + combinedAddress) = memoryForm")
      else
        let lines := push_back lines
          "vec<T, 2> registerForm = *(thread_elements())" in
        push_back lines
          ("*(" ++ keyword addressSpace ++ " vec<U, 2>*)" ++
           "(dst + combinedAddress) = vec<U, 2>(registerForm)") in
  lines.

(** The vector [body]: the lines of the if block, then those of the
    else blocks. *)
Definition body : list string :=
  let body := [] in
  let body := push_back body "if (transpose_matrix) {" in
  let body := insertBlockContents body (createTwoPartAccess true) in
  if decodingBF16 then
    let blockContents :=
      if Action_eqb action load then createOnePartAccess
      else createTwoPartAccess false in
    let body := push_back body "} else {" in
    let body := insertBlockContents body blockContents in
    push_back body "}"
  else
    let body := push_back body "} else if (elements_per_row % 2 != 0) {" in
    let body := insertBlockContents body (createTwoPartAccess false) in
    let body := push_back body "} else {" in
    let body := insertBlockContents body createOnePartAccess in
    push_back body "}".

(** The text of one function, for a given [indentation]. *)
Definition createMemoryAccess_text (indentation : string) : string :=
  let output := "" in
  let output :=
    if decodingBF16 then
      output ++ indentation ++ "// WARNING: 'T' must be 'float'." ++ newline
    else
      output ++ indentation ++ "template <typename U>" ++ newline in
  let output := output ++ indentation ++ "METAL_FUNC void" in
  let output :=
    if Action_eqb action load then output ++ " load"
    else output ++ " store" in
  let output := if decodingBF16 then output ++ "_bfloat" else output in
  let output := output ++ "(" in
  let size := Z.of_nat (List.length arguments) in
  let output :=
    fold_left (fun output it =>
      let argumentID := it in
      let argument := nth (Z.to_nat argumentID) arguments "" in
      let output := output ++ argument in
      if (argumentID <? Metal.ulong (size - 1))%Z then output ++ ", "
      else output)
      (map Z.of_nat (seq 0 (List.length arguments))) output in
  let output := output ++ ") {" ++ newline in
  let output :=
    fold_left (fun output line =>
      output ++ indentation ++ "  " ++ line ++ newline) body output in
  let output := output ++ indentation ++ "}" ++ newline in
  output.

End createMemoryAccess_captures.

Record MemoryAccessDescriptor : Set := {
  action : option Action;
  addressSpace : option AddressSpace;
  decodingBF16 : option bool;
  indentationSpaceCount : Z
}.

Definition createMemoryAccess (descriptor : MemoryAccessDescriptor)
    : result string :=
  CCV_NNC_MFA_PRECONDITION (has_value (action descriptor)) ;;;
  CCV_NNC_MFA_PRECONDITION (has_value (addressSpace descriptor)) ;;;
  CCV_NNC_MFA_PRECONDITION (has_value (decodingBF16 descriptor)) ;;;
  action <- value (action descriptor) ;;
  addressSpace <- value (addressSpace descriptor) ;;
  decodingBF16 <- value (decodingBF16 descriptor) ;;
  indentation <- string_of_spaces (indentationSpaceCount descriptor) ;;
  ret (createMemoryAccess_text action addressSpace decodingBF16 indentation).

(** *** The two headers *)

Definition createMetalSimdgroupEvent : string :=
  HeaderText.metal_simdgroup_event.

(** A default-constructed descriptor, and assignment to its fields. *)
Definition MemoryAccessDescriptor_default : MemoryAccessDescriptor :=
  {| action := None; addressSpace := None; decodingBF16 := None;
     indentationSpaceCount := 0 |}.

Definition set_action (desc : MemoryAccessDescriptor) (v : Action) :=
  {| action := Some v; addressSpace := addressSpace desc;
     decodingBF16 := decodingBF16 desc;
     indentationSpaceCount := indentationSpaceCount desc |}.

Definition set_addressSpace (desc : MemoryAccessDescriptor) (v : AddressSpace) :=
  {| action := action desc; addressSpace := Some v;
     decodingBF16 := decodingBF16 desc;
     indentationSpaceCount := indentationSpaceCount desc |}.

Definition set_decodingBF16 (desc : MemoryAccessDescriptor) (v : bool) :=
  {| action := action desc; addressSpace := addressSpace desc;
     decodingBF16 := Some v;
     indentationSpaceCount := indentationSpaceCount desc |}.

Definition set_indentationSpaceCount (desc : MemoryAccessDescriptor) (v : Z) :=
  {| action := action desc; addressSpace := addressSpace desc;
     decodingBF16 := decodingBF16 desc;
     indentationSpaceCount := v |}.

(** A range-based [for] whose body may fail, over the state it updates. *)
Fixpoint for_each {A St : Type} (range : list A)
    (step : A -> St -> result St) (s : St) : result St :=
  match range with
  | [] => ret s
  | a :: range' => s' <- step a s ;; for_each range' step s'
  end.

(** The one descriptor [desc] is assigned to and passed on in each of the
    eight iterations; [output] grows by one function per iteration. *)
Definition createMetalSimdgroupMatrixStorage : result string :=
  let output := "" in
  let output := output ++ HeaderText.matrix_storage_first_section in
  let desc := MemoryAccessDescriptor_default in
  let desc := set_indentationSpaceCount desc 4 in
  let actions := [load; store] in
  let addressSpaces := [device; threadgroup] in
  let decodingBF16s := [false; true] in
  st <- for_each actions (fun action st =>
    for_each addressSpaces (fun addressSpace st =>
      for_each decodingBF16s (fun decodingBF16 st =>
        let '(desc, output) := st in
        let desc := set_action desc action in
        let desc := set_addressSpace desc addressSpace in
        let desc := set_decodingBF16 desc decodingBF16 in
        text <- createMemoryAccess desc ;;
        let output := output ++ text in
        let output := output ++ newline in
        ret (desc, output)) st) st) (desc, output) ;;
  let output := snd st in
  let output := output ++ HeaderText.matrix_storage_last_section in
  ret output.

End Generator.

(** ** The generator with its variables in a store

    [Generator] reads the source as a function from a descriptor to text.
    The source itself is imperative: it declares variables and updates
    them in place ([output +=], [push_back], the assignments to [desc]).
    Here it is read statement by statement, and every variable that the
    source updates after declaring it is a cell of a store that outlives
    the call.  A declaration sets its cell, as the initialiser or the
    default constructor does; a cell that no declaration has set in this
    call still holds what an earlier call left in it.  A variable with
    [static] storage, or one read before its declaration, would therefore
    show as a result that depends on the store a call starts in. *)

Module Stateful.

Import Generator.

Local Open Scope string_scope.

(** The cells, by type and by the qualified name of the variable. *)
Record variables : Type := {
  strings : string -> string;
  vectors : string -> list string;
  flags : string -> bool;
  descriptors : string -> MemoryAccessDescriptor
}.

(** A statement: it may fail, as a call in [Generator] may, and otherwise
    yields a value and the store it leaves. *)
Definition M (A : Type) : Type := variables -> result (A * variables).

Definition pure {A : Type} (a : A) : M A := fun st => inr (a, st).

Definition and_then {A B : Type} (c : M A) (k : A -> M B) : M B :=
  fun st =>
    match c st with
    | inl e => inl e
    | inr (a, st') => k a st'
    end.

Declare Scope stateful_scope.
Notation "x <- c ;; k" := (and_then c (fun x => k))
  (at level 61, c at next level, right associativity) : stateful_scope.
Notation "c ;;; k" := (and_then c (fun _ => k))
  (at level 61, right associativity) : stateful_scope.
Local Open Scope stateful_scope.

(** A failure, or a value computed without the store. *)
Definition lift {A : Type} (c : result A) : M A :=
  fun st =>
    match c with
    | inl e => inl e
    | inr a => inr (a, st)
    end.

Definition skip : M unit := pure tt.

(** What a call returns, the store left aside. *)
Definition returned {A : Type} (r : result (A * variables)) : result A :=
  match r with
  | inl e => inl e
  | inr (a, _) => inr a
  end.

(** *** Reading and writing cells *)

Definition get_string (name : string) : M string :=
  fun st => inr (strings st name, st).

Definition set_string (name : string) (v : string) : M unit :=
  fun st =>
    inr (tt, {| strings := fun n => if String.eqb n name then v
                                    else strings st n;
                vectors := vectors st; flags := flags st;
                descriptors := descriptors st |}).

Definition get_vector (name : string) : M (list string) :=
  fun st => inr (vectors st name, st).

Definition set_vector (name : string) (v : list string) : M unit :=
  fun st =>
    inr (tt, {| strings := strings st;
                vectors := fun n => if String.eqb n name then v
                                    else vectors st n;
                flags := flags st; descriptors := descriptors st |}).

Definition get_flag (name : string) : M bool :=
  fun st => inr (flags st name, st).

Definition set_flag (name : string) (v : bool) : M unit :=
  fun st =>
    inr (tt, {| strings := strings st; vectors := vectors st;
                flags := fun n => if String.eqb n name then v
                                  else flags st n;
                descriptors := descriptors st |}).

Definition get_descriptor (name : string) : M MemoryAccessDescriptor :=
  fun st => inr (descriptors st name, st).

Definition set_descriptor (name : string) (v : MemoryAccessDescriptor)
    : M unit :=
  fun st =>
    inr (tt, {| strings := strings st; vectors := vectors st;
                flags := flags st;
                descriptors := fun n => if String.eqb n name then v
                                        else descriptors st n |}).

(** [name += text] on a string and [name.push_back(line)] on a vector. *)
Definition append_string (name : string) (text : string) : M unit :=
  v <- get_string name ;; set_string name (v ++ text).

Definition push_back_vector (name : string) (line : string) : M unit :=
  v <- get_vector name ;; set_vector name (push_back v line).

(** A range-based [for]. *)
Fixpoint for_each {A : Type} (range : list A) (step : A -> M unit)
    : M unit :=
  match range with
  | [] => skip
  | a :: range' => step a ;;; for_each range' step
  end.

(** *** [createMemoryAccess] *)

Section createMemoryAccess_captures.

Variable action : Action.
Variable addressSpace : AddressSpace.
Variable decodingBF16 : bool.
Variable indentation : string.

Definition createAddress (transposed : bool) (offset : Z) : M string :=
  set_string "createAddress::lineY"
    (offsetType addressSpace ++ "(matrix_origin.y)") ;;;
  set_string "createAddress::lineX"
    ("matrix_origin.x + " ++ to_string offset) ;;;
  lineX <- get_string "createAddress::lineX" ;;
  set_string "createAddress::lineX"
    (offsetType addressSpace ++ "(" ++ lineX ++ ")") ;;;
  lineX <- get_string "createAddress::lineX" ;;
  lineY <- get_string "createAddress::lineY" ;;
  if transposed then
    pure (lineX ++ " * elements_per_row + " ++ lineY)
  else
    pure (lineY ++ " * elements_per_row + " ++ lineX).

Definition createTwoPartAccess (transposed : bool) : M (list string) :=
  let lines := "createTwoPartAccess::lines" in
  set_vector lines [] ;;;
  for_each [0; 1]%Z (fun laneID =>
    address <- createAddress transposed laneID ;;
    push_back_vector lines
      (offsetType addressSpace ++ " address" ++ to_string laneID ++
       " = " ++ address)) ;;;
  (if Action_eqb action load then
     if decodingBF16 then
       push_back_vector lines "bfloat memoryForm0 = src[address0]" ;;;
       push_back_vector lines "bfloat memoryForm1 = src[address1]"
     else
       push_back_vector lines "U memoryForm0 = src[address0]" ;;;
       push_back_vector lines "U memoryForm1 = src[address1]"
   else skip) ;;;
  (if Action_eqb action load then
     if decodingBF16 then
       push_back_vector lines "" ;;;
       push_back_vector lines
         "bfloat4 registerForm = *(thread bfloat4*)(thread_elements())" ;;;
       push_back_vector lines "registerForm[1] = memoryForm0" ;;;
       push_back_vector lines "registerForm[3] = memoryForm1" ;;;
       push_back_vector lines
         "((thread bfloat4*)thread_elements())[0] = registerForm"
     else
       push_back_vector lines
         "((thread T*)thread_elements())[0] = T(memoryForm0)" ;;;
       push_back_vector lines
         "((thread T*)thread_elements())[1] = T(memoryForm1)"
   else
     if decodingBF16 then
       push_back_vector lines
         "bfloat4 registerForm = *(thread bfloat4*)(thread_elements())" ;;;
       push_back_vector lines "registerForm[2] = registerForm[1]"
     else
       push_back_vector lines
         "T registerForm0 = ((thread T*)thread_elements())[0]" ;;;
       push_back_vector lines
         "T registerForm1 = ((thread T*)thread_elements())[1]") ;;;
  (if Action_eqb action store then
     if decodingBF16 then
       push_back_vector lines "dst[address0] = registerForm[2]" ;;;
       push_back_vector lines "dst[address1] = registerForm[3]"
     else
       push_back_vector lines "dst[address0] = U(registerForm0)" ;;;
       push_back_vector lines "dst[address1] = U(registerForm1)"
   else skip) ;;;
  get_vector lines.

Definition createOnePartAccess : M (list string) :=
  let lines := "createOnePartAccess::lines" in
  set_vector lines [] ;;;
  (address <- createAddress false 0 ;;
   push_back_vector lines ("auto combinedAddress = " ++ address)) ;;;
  (if Action_eqb action load then
     if decodingBF16 then
       push_back_vector lines
         ("bfloat2 memoryForm = *(const " ++
          keyword addressSpace ++ " packed_bfloat2*)(src + combinedAddress)")
         ;;;
       push_back_vector lines "" ;;;
       push_back_vector lines
         "bfloat4 registerForm = *(thread bfloat4*)(thread_elements())" ;;;
       push_back_vector lines
         "((thread float*)&registerForm)[1] = *(thread float*)(&memoryForm)"
         ;;;
       push_back_vector lines
         "((thread bfloat*)&registerForm)[1] = memoryForm[0]" ;;;
       push_back_vector lines
         "((thread bfloat4*)thread_elements())[0] = registerForm"
     else
       push_back_vector lines
         ("vec<U, 2> memoryForm = *(const " ++
          keyword addressSpace ++ " vec<U, 2>*)(src + combinedAddress)") ;;;
       push_back_vector lines "*(thread_elements()) = vec<T, 2>(memoryForm)"
   else
     if decodingBF16 then
       push_back_vector lines
         "bfloat4 registerForm = *(thread bfloat4*)(thread_elements())" ;;;
       push_back_vector lines "registerForm[2] = registerForm[1]" ;;;
       push_back_vector lines
         "float memoryForm = ((thread float*)&registerForm)[1]" ;;;
       push_back_vector lines
         ("*(" ++ keyword addressSpace ++ " float*)" ++
          "(dst + combinedAddress) = memoryForm")
     else
       push_back_vector lines
         "vec<T, 2> registerForm = *(thread_elements())" ;;;
       push_back_vector lines
         ("*(" ++ keyword addressSpace ++ " vec<U, 2>*)" ++
          "(dst + combinedAddress) = vec<U, 2>(registerForm)")) ;;;
  get_vector lines.

(** [body] is passed by reference: the lines go to the caller's vector,
    named here by its cell. *)
Definition insertBlockContents (body : string) (block : list string)
    : M unit :=
  let allCharactersWhitespace :=
    "insertBlockContents::allCharactersWhitespace" in
  for_each block (fun line =>
    set_flag allCharactersWhitespace true ;;;
    for_each (list_ascii_of_string line) (fun character =>
      if isspace character then skip
      else set_flag allCharactersWhitespace false) ;;;
    all <- get_flag allCharactersWhitespace ;;
    if all then push_back_vector body "  "
    else push_back_vector body ("  " ++ line ++ ";")).

(** The statements of [createMemoryAccess] from the declaration of
    [arguments] on. *)
Definition createMemoryAccess_statements : M string :=
  let arguments := "createMemoryAccess::arguments" in
  let output := "createMemoryAccess::output" in
  let body := "createMemoryAccess::body" in
  let blockContents := "createMemoryAccess::blockContents" in
  set_vector arguments [] ;;;
  (if decodingBF16 then
     push_back_vector arguments
       (pointerArgument action addressSpace "bfloat")
   else
     push_back_vector arguments (pointerArgument action addressSpace "U")) ;;;
  push_back_vector arguments
    (offsetType addressSpace ++ " elements_per_row") ;;;
  push_back_vector arguments "ushort2 matrix_origin" ;;;
  push_back_vector arguments "bool transpose_matrix = false" ;;;
  set_string output "" ;;;
  (if decodingBF16 then
     append_string output
       (indentation ++ "// WARNING: 'T' must be 'float'." ++ newline)
   else
     append_string output
       (indentation ++ "template <typename U>" ++ newline)) ;;;
  append_string output (indentation ++ "METAL_FUNC void") ;;;
  (if Action_eqb action load then append_string output " load"
   else append_string output " store") ;;;
  (if decodingBF16 then append_string output "_bfloat" else skip) ;;;
  append_string output "(" ;;;
  (size <- (v <- get_vector arguments ;;
            pure (Z.of_nat (List.length v))) ;;
   for_each (map Z.of_nat (seq 0 (Z.to_nat size))) (fun it =>
     let argumentID := it in
     v <- get_vector arguments ;;
     let argument := nth (Z.to_nat argumentID) v "" in
     append_string output argument ;;;
     if (argumentID <? Metal.ulong (size - 1))%Z then
       append_string output ", "
     else skip)) ;;;
  append_string output (") {" ++ newline) ;;;
  set_vector body [] ;;;
  push_back_vector body "if (transpose_matrix) {" ;;;
  (block <- createTwoPartAccess true ;; insertBlockContents body block) ;;;
  (if decodingBF16 then
     set_vector blockContents [] ;;;
     (if Action_eqb action load then
        block <- createOnePartAccess ;; set_vector blockContents block
      else
        block <- createTwoPartAccess false ;;
        set_vector blockContents block) ;;;
     push_back_vector body "} else {" ;;;
     (block <- get_vector blockContents ;; insertBlockContents body block) ;;;
     push_back_vector body "}"
   else
     push_back_vector body "} else if (elements_per_row % 2 != 0) {" ;;;
     (block <- createTwoPartAccess false ;;
      insertBlockContents body block) ;;;
     push_back_vector body "} else {" ;;;
     (block <- createOnePartAccess ;; insertBlockContents body block) ;;;
     push_back_vector body "}") ;;;
  (lines <- get_vector body ;;
   for_each lines (fun line =>
     append_string output (indentation ++ "  " ++ line ++ newline))) ;;;
  append_string output (indentation ++ "}" ++ newline) ;;;
  get_string output.

End createMemoryAccess_captures.

(** The descriptor is passed by value; the checks and the unwrapping of
    its fields come first, as in the source. *)
Definition createMemoryAccess (descriptor : MemoryAccessDescriptor)
    : M string :=
  lift (CCV_NNC_MFA_PRECONDITION (has_value (action descriptor))) ;;;
  lift (CCV_NNC_MFA_PRECONDITION (has_value (addressSpace descriptor))) ;;;
  lift (CCV_NNC_MFA_PRECONDITION (has_value (decodingBF16 descriptor))) ;;;
  action <- lift (value (action descriptor)) ;;
  addressSpace <- lift (value (addressSpace descriptor)) ;;
  decodingBF16 <- lift (value (decodingBF16 descriptor)) ;;
  indentation <- lift (string_of_spaces (indentationSpaceCount descriptor)) ;;
  createMemoryAccess_statements action addressSpace decodingBF16 indentation.

(** *** The two headers *)

Definition createMetalSimdgroupEvent : M string :=
  pure HeaderText.metal_simdgroup_event.

(** [output] is default-constructed, [desc] is default-constructed and
    then assigned to in every iteration; each call of [createMemoryAccess]
    runs in the store the calls before it left. *)
Definition createMetalSimdgroupMatrixStorage : M string :=
  let output := "createMetalSimdgroupMatrixStorage::output" in
  let desc := "createMetalSimdgroupMatrixStorage::desc" in
  set_string output "" ;;;
  append_string output HeaderText.matrix_storage_first_section ;;;
  set_descriptor desc MemoryAccessDescriptor_default ;;;
  (d <- get_descriptor desc ;;
   set_descriptor desc (set_indentationSpaceCount d 4)) ;;;
  let actions := [load; store] in
  let addressSpaces := [device; threadgroup] in
  let decodingBF16s := [false; true] in
  for_each actions (fun action =>
    for_each addressSpaces (fun addressSpace =>
      for_each decodingBF16s (fun decodingBF16 =>
        (d <- get_descriptor desc ;;
         set_descriptor desc (set_action d action)) ;;;
        (d <- get_descriptor desc ;;
         set_descriptor desc (set_addressSpace d addressSpace)) ;;;
        (d <- get_descriptor desc ;;
         set_descriptor desc (set_decodingBF16 d decodingBF16)) ;;;
        (d <- get_descriptor desc ;;
         text <- createMemoryAccess d ;;
         append_string output text) ;;;
        append_string output newline))) ;;;
  append_string output HeaderText.matrix_storage_last_section ;;;
  get_string output.

(** A sequence of calls, each in the store the one before it left; a
    failed call changes no variable, for the checks come first. *)
Fixpoint calls (history : list MemoryAccessDescriptor) (st : variables)
    : variables :=
  match history with
  | [] => st
  | d :: history' =>
      match createMemoryAccess d st with
      | inr (_, st') => calls history' st'
      | inl _ => calls history' st
      end
  end.

(** A store in which every cell holds something. *)
Definition leftover : variables :=
  {| strings := fun _ => "left over";
     vectors := fun _ => ["left over"; "from an earlier call"];
     flags := fun _ => false;
     descriptors := fun _ => set_indentationSpaceCount
                               (set_action MemoryAccessDescriptor_default
                                  store) 9 |}.

End Stateful.

(** ** Reading emitted text back as a program

    The generator emits Metal source.  To say what an emitted address
    expression computes, or which block of an emitted conditional runs, the
    text is read back: [lex] and [parse] turn an expression into a tree,
    [eval] gives the tree its value, [read_chain] splits the lines of an
    if / else-if / else chain into guarded blocks and [select] picks the
    block that runs. *)

Module MetalText.

Local Open Scope string_scope.

Inductive token : Set :=
| TIdent (name : string)
| TNumber (value : Z)
| TOpen
| TClose
| TPlus
| TStar
| TPercent
| TNotEqual.

Definition between (lo hi : nat) (c : ascii) : bool :=
  let n := nat_of_ascii c in ((lo <=? n) && (n <=? hi))%nat.

Definition is_digit (c : ascii) : bool := between 48 57 c.

Definition is_letter (c : ascii) : bool :=
  between 65 90 c || between 97 122 c || Ascii.eqb c "_"%char.

(** A member access such as [matrix_origin.x] is read as one name. *)
Definition is_name_char (c : ascii) : bool :=
  is_letter c || is_digit c || Ascii.eqb c "."%char.

(** The longest prefix whose characters satisfy [p], and the rest. *)
Fixpoint span (p : ascii -> bool) (cs : list ascii)
    : list ascii * list ascii :=
  match cs with
  | c :: cs' =>
      if p c then let (taken, rest) := span p cs' in (c :: taken, rest)
      else ([], cs)
  | [] => ([], [])
  end.

Definition digit_value (c : ascii) : Z := Z.of_nat (nat_of_ascii c) - 48.

Definition decimal (digits : list ascii) : Z :=
  fold_left (fun acc c => acc * 10 + digit_value c)%Z digits 0%Z.

Fixpoint lex (fuel : nat) (cs : list ascii) : option (list token) :=
  match fuel with
  | O => None
  | S fuel' =>
      match cs with
      | [] => Some []
      | c :: rest =>
          let continue (t : token) (cs' : list ascii) :=
            option_map (cons t) (lex fuel' cs') in
          if Ascii.eqb c " "%char then lex fuel' rest
          else if Ascii.eqb c "("%char then continue TOpen rest
          else if Ascii.eqb c ")"%char then continue TClose rest
          else if Ascii.eqb c "+"%char then continue TPlus rest
          else if Ascii.eqb c "*"%char then continue TStar rest
          else if Ascii.eqb c "%"%char then continue TPercent rest
          else if Ascii.eqb c "!"%char then
            match rest with
            | c' :: rest' =>
                if Ascii.eqb c' "="%char then continue TNotEqual rest'
                else None
            | [] => None
            end
          else if is_digit c then
            let (digits, rest') := span is_digit cs in
            continue (TNumber (decimal digits)) rest'
          else if is_letter c then
            let (name, rest') := span is_name_char cs in
            continue (TIdent (string_of_list_ascii name)) rest'
          else None
      end
  end.

Inductive expr : Set :=
| Var (name : string)
| Lit (value : Z)
| Cast (type : string) (e : expr)
| Add (a b : expr)
| Mul (a b : expr)
| Rem (a b : expr)
| NotEqual (a b : expr).

(** The binary operator of token [t] at precedence [level]: 1 for the
    multiplicative operators, 2 for the additive one, 3 for the
    comparison. *)
Definition binary (level : nat) (t : token) : option (expr -> expr -> expr) :=
  match level, t with
  | 1%nat, TStar => Some Mul
  | 1%nat, TPercent => Some Rem
  | 2%nat, TPlus => Some Add
  | 3%nat, TNotEqual => Some NotEqual
  | _, _ => None
  end.

(** Precedence climbing.  Level 0 is an atom: a literal, a name, a
    functional cast [type(e)], or a parenthesised expression. *)
Fixpoint parse_level (fuel level : nat) (ts : list token) {struct fuel}
    : option (expr * list token) :=
  match fuel with
  | O => None
  | S fuel' =>
      match level with
      | O =>
          match ts with
          | TNumber n :: ts' => Some (Lit n, ts')
          | TIdent f :: TOpen :: ts' =>
              match parse_level fuel' 3 ts' with
              | Some (e, TClose :: ts'') => Some (Cast f e, ts'')
              | _ => None
              end
          | TIdent v :: ts' => Some (Var v, ts')
          | TOpen :: ts' =>
              match parse_level fuel' 3 ts' with
              | Some (e, TClose :: ts'') => Some (e, ts'')
              | _ => None
              end
          | _ => None
          end
      | S level' =>
          match parse_level fuel' level' ts with
          | Some (lhs, ts') => parse_chain fuel' level lhs ts'
          | None => None
          end
      end
  end
with parse_chain (fuel level : nat) (lhs : expr) (ts : list token)
    {struct fuel} : option (expr * list token) :=
  match fuel with
  | O => None
  | S fuel' =>
      match ts with
      | t :: ts' =>
          match binary level t with
          | Some mk =>
              match parse_level fuel' (Nat.pred level) ts' with
              | Some (rhs, ts'') => parse_chain fuel' level (mk lhs rhs) ts''
              | None => None
              end
          | None => Some (lhs, ts)
          end
      | [] => Some (lhs, ts)
      end
  end.

(** A whole text as one expression. *)
Definition parse (text : string) : option expr :=
  let cs := list_ascii_of_string text in
  match lex (S (List.length cs)) cs with
  | Some ts =>
      match parse_level (4 * S (List.length ts)) 3 ts with
      | Some (e, []) => Some e
      | _ => None
      end
  | None => None
  end.

(** The width of a type named in a functional cast. *)
Definition type_bits (type : string) : option Z :=
  if String.eqb type "ushort" then Some 16%Z
  else if String.eqb type "uint" then Some 32%Z
  else if String.eqb type "ulong" then Some 64%Z
  else None.

(** The value of an expression in unsigned arithmetic of [bits] bits:
    sums and products wrap modulo [2 ^ bits], a cast wraps to the width of
    its type.  A statement [offsetType address = e] converts the value of
    [e] to the offset type, so what it stores is the value of [e] modulo
    two to the width of that type; reducing at every step gives the same
    residue.  Booleans are 0 and 1. *)
Fixpoint eval (bits : Z) (env : string -> option Z) (e : expr) : option Z :=
  let binop (f : Z -> Z -> option Z) (a b : expr) :=
    match eval bits env a, eval bits env b with
    | Some va, Some vb => f va vb
    | _, _ => None
    end in
  match e with
  | Var name => env name
  | Lit n => Some n
  | Cast type e' =>
      match type_bits type, eval bits env e' with
      | Some b, Some v => Some (Metal.wrap b v)
      | _, _ => None
      end
  | Add a b => binop (fun va vb => Some (Metal.wrap bits (va + vb))) a b
  | Mul a b => binop (fun va vb => Some (Metal.wrap bits (va * vb))) a b
  | Rem a b =>
      binop (fun va vb => if (vb =? 0)%Z then None else Some (Z.rem va vb)) a b
  | NotEqual a b =>
      binop (fun va vb => Some (if (va =? vb)%Z then 0 else 1)%Z) a b
  end.

Definition eval_text (bits : Z) (env : string -> option Z) (text : string)
    : option Z :=
  match parse text with
  | Some e => eval bits env e
  | None => None
  end.

(** The width of the offset type of an address space. *)
Definition offset_bits (addressSpace : Generator.AddressSpace) : Z :=
  match addressSpace with
  | Generator.device => 32
  | Generator.threadgroup => 16
  end.

(** The parameters of a generated function, as seen by its body. *)
Definition parameters (elements_per_row : Z) (matrix_origin : Metal.vec2)
    (transpose_matrix : bool) (name : string) : option Z :=
  if String.eqb name "elements_per_row" then Some elements_per_row
  else if String.eqb name "matrix_origin.x" then
    Some (Metal.vec_x matrix_origin)
  else if String.eqb name "matrix_origin.y" then
    Some (Metal.vec_y matrix_origin)
  else if String.eqb name "transpose_matrix" then
    Some (Z.b2z transpose_matrix)
  else None.

(** *** Conditional chains *)

Definition strip_prefix (p s : string) : option string :=
  if String.prefix p s then
    Some (String.substring (String.length p)
            (String.length s - String.length p) s)
  else None.

Definition strip_suffix (q s : string) : option string :=
  let n := (String.length s - String.length q)%nat in
  if ((String.length q <=? String.length s)%nat
      && String.eqb (String.substring n (String.length q) s) q)%bool
  then Some (String.substring 0 n s)
  else None.

Inductive line_kind : Set :=
| If (condition : string)
| ElseIf (condition : string)
| Else
| EndIf
| Statement (text : string).

Definition guarded (opening : string) (line : string) : option string :=
  match strip_prefix opening line with
  | Some rest => strip_suffix ") {" rest
  | None => None
  end.

Definition classify (line : string) : line_kind :=
  match guarded "if (" line with
  | Some c => If c
  | None =>
      match guarded "} else if (" line with
      | Some c => ElseIf c
      | None =>
          if String.eqb line "} else {" then Else
          else if String.eqb line "}" then EndIf
          else Statement line
      end
  end.

(** A branch: its guard ([None] for the final else) and its lines. *)
Definition branch : Set := (option string * list string)%type.

(** The statements that precede the first header in [lines], and the
    branches that follow. *)
Fixpoint read_lines (lines : list string)
    : option (list string * list branch) :=
  match lines with
  | [] => None
  | line :: rest =>
      match classify line with
      | EndIf =>
          match rest with
          | [] => Some ([], [])
          | _ :: _ => None
          end
      | Statement s =>
          match read_lines rest with
          | Some (block, branches) => Some (s :: block, branches)
          | None => None
          end
      | If c | ElseIf c =>
          match read_lines rest with
          | Some (block, branches) => Some ([], (Some c, block) :: branches)
          | None => None
          end
      | Else =>
          match read_lines rest with
          | Some (block, branches) => Some ([], (None, block) :: branches)
          | None => None
          end
      end
  end.

(** The lines of one chain: it opens with an if and closes with a brace. *)
Definition read_chain (lines : list string) : option (list branch) :=
  match lines with
  | first :: _ =>
      match classify first, read_lines lines with
      | If _, Some ([], branches) => Some branches
      | _, _ => None
      end
  | [] => None
  end.

(** The block of the first branch whose guard holds. *)
Fixpoint select (bits : Z) (env : string -> option Z)
    (branches : list branch) : option (list string) :=
  match branches with
  | [] => Some []
  | (None, block) :: _ => Some block
  | (Some condition, block) :: rest =>
      match eval_text bits env condition with
      | Some v => if (v =? 0)%Z then select bits env rest else Some block
      | None => None
      end
  end.

Definition executed_block (bits : Z) (env : string -> option Z)
    (lines : list string) : option (list string) :=
  match read_chain lines with
  | Some branches => select bits env branches
  | None => None
  end.


End MetalText.

(** ** The vocabulary of the specification

    What the properties below are stated with: lanes and cells of the
    8 x 8 fragment, the cells of a tile in the order the copies visit
    them, and the value the specification assigns to each cell. *)

Module Spec.

Import Metal.

(** [first], [first + 1], ..., [count] values in all. *)
Fixpoint zrange (first : Z) (count : nat) : list Z :=
  match count with
  | O => []
  | S count' => first :: zrange (first + 1) count'
  end.

Definition upto (n : Z) : list Z := zrange 0 (Z.to_nat n).

(** *** Lanes and cells *)

Definition lanes : list Z := upto 32.

Definition vec2_eqb (a b : vec2) : bool :=
  (vec_x a =? vec_x b) && (vec_y a =? vec_y b).

(** The base positions of all lanes, and those without repeats. *)
Definition coordinates : list vec2 := map morton_order lanes.

Fixpoint distinct (l : list vec2) : list vec2 :=
  match l with
  | [] => []
  | c :: l' => if existsb (vec2_eqb c) l' then distinct l' else c :: distinct l'
  end.

(** The lanes whose base position is [c]. *)
Definition producers (c : vec2) : list Z :=
  filter (fun lane => vec2_eqb (morton_order lane) c) lanes.

(** The 2-wide run of a lane: its base position and the next column. *)
Definition run (c : vec2) : list vec2 :=
  [c; vec2_of (vec_x c + 1) (vec_y c)].

(** The cells of the 8 x 8 grid, row by row. *)
Definition grid : list vec2 :=
  flat_map (fun row => map (fun col => vec2_of col row) (upto 8)) (upto 8).

(** The lanes whose run holds [cell]. *)
Definition owners (cell : vec2) : list Z :=
  filter (fun lane => existsb (vec2_eqb cell) (run (morton_order lane))) lanes.

Definition covers_grid : bool :=
  forallb (fun cell => negb (Nat.eqb (List.length (owners cell)) 0)) grid.

(** The owner of a cell as the layout comment of the source draws it. *)
Definition drawn_owner (cell : vec2) : Z :=
  nth (Z.to_nat (vec_x cell))
    (nth (Z.to_nat (vec_y cell)) layout_comment []) (-1).

(** A list of lanes that is exactly [[lane]]. *)
Definition only (lane : Z) (l : list Z) : bool :=
  match l with
  | [k] => k =? lane
  | _ => false
  end.

(** The coordinate property as the specification words it. *)
Definition sixteen_pairs_two_lanes_each : Prop :=
  List.length (distinct coordinates) = 16%nat
  /\ (forall c, In c coordinates -> List.length (producers c) = 2%nat)
  /\ covers_grid = true.

(** *** Tiles *)

Definition is_ushort2 (v : vec2) : Prop :=
  is_ushort (vec_x v) /\ is_ushort (vec_y v).

(** The extent a copy iterates over: swapped under transposition. *)
Definition extent (transpose_matrix : bool) (tile_dimensions : vec2) : vec2 :=
  if transpose_matrix then yx tile_dimensions else tile_dimensions.

(** The overlap of two extents. *)
Definition overlap (a b : vec2) : vec2 :=
  vec2_of (Z.min (vec_x a) (vec_x b)) (Z.min (vec_y a) (vec_y b)).

Definition inside (e : vec2) (x y : Z) : Prop :=
  0 <= x < vec_x e /\ 0 <= y < vec_y e.

Section Tiles.

Variable T : Type.
Variable T0 : T.

(** Row-major addressing of cell (x, y). *)
Definition cell_index (elements_per_row x y : Z) : Z :=
  y * elements_per_row + x.

(** One write per cell of [e], rows in order and cells in order within a
    row; the cell (x, y) receives [value x y]. *)
Definition write_row (value : Z -> Z -> T) (elements_per_row : Z)
    (xs : list Z) (y : Z) (m : memory T) : memory T :=
  fold_left (fun m x => store T m (cell_index elements_per_row x y) (value x y))
    xs m.

Definition write_cells (value : Z -> Z -> T) (elements_per_row : Z)
    (e : vec2) (m : memory T) : memory T :=
  fold_left (fun m y => write_row value elements_per_row (upto (vec_x e)) y m)
    (upto (vec_y e)) m.

(** The value the forward copy gives to destination cell (x, y). *)
Definition forward_cell (src : memory T) (src_elements_per_row : Z)
    (src_extent : vec2) (clamp_mode : simdgroup_async_copy_clamp_mode)
    (x y : Z) : T :=
  if (x <? vec_x src_extent) && (y <? vec_y src_extent) then
    src (cell_index src_elements_per_row x y)
  else
    match clamp_mode with
    | clamp_to_edge =>
        if (0 <? vec_x src_extent) && (0 <? vec_y src_extent) then
          src (cell_index src_elements_per_row
                 (Z.min x (vec_x src_extent - 1))
                 (Z.min y (vec_y src_extent - 1)))
        else T0
    | clamp_to_zero => T0
    end.

(** The value the reverse copy gives to destination cell (x, y). *)
Definition reverse_cell (src : memory T) (src_elements_per_row : Z)
    (x y : Z) : T :=
  src (cell_index src_elements_per_row x y).

End Tiles.

(** *** Addresses *)

(** The address of element [k] as the specification writes it. *)
Definition address (transposed : bool) (elements_per_row : Z)
    (matrix_origin : vec2) (k : Z) : Z :=
  if transposed then
    (vec_x matrix_origin + k) * elements_per_row + vec_y matrix_origin
  else
    vec_y matrix_origin * elements_per_row + (vec_x matrix_origin + k).

(** The value of an emitted address in arithmetic of any width [bits]:
    the casts wrap to the offset type, the sums and the product to
    [bits]. *)
Definition wrapped_address (addressSpace : Generator.AddressSpace) (bits : Z)
    (transposed : bool) (elements_per_row : Z) (matrix_origin : vec2)
    (k : Z) : Z :=
  let cast := wrap (MetalText.offset_bits addressSpace) in
  let x := cast (wrap bits (vec_x matrix_origin + k)) in
  let y := cast (vec_y matrix_origin) in
  if transposed then
    wrap bits (wrap bits (x * elements_per_row) + y)
  else
    wrap bits (wrap bits (y * elements_per_row) + x).

(** *** Descriptors *)

Section Descriptors.

Import Generator.

(** A fully populated descriptor. *)
Definition descriptor (action : Action) (addressSpace : AddressSpace)
    (decodingBF16 : bool) (indentationSpaceCount : Z)
    : MemoryAccessDescriptor :=
  {| Generator.action := Some action;
     Generator.addressSpace := Some addressSpace;
     Generator.decodingBF16 := Some decodingBF16;
     Generator.indentationSpaceCount := indentationSpaceCount |}.

(** One of the three optional fields is empty. *)
Definition has_empty_field (d : MemoryAccessDescriptor) : Prop :=
  Generator.action d = None \/ Generator.addressSpace d = None
  \/ Generator.decodingBF16 d = None.

(** How a caller populates a descriptor: it default-constructs one and
    assigns to fields.  A field is unset when nothing was assigned to
    it. *)
Inductive assignment : Set :=
| assign_action (v : Action)
| assign_addressSpace (v : AddressSpace)
| assign_decodingBF16 (v : bool)
| assign_indentationSpaceCount (v : Z).

Definition assign (desc : MemoryAccessDescriptor) (a : assignment)
    : MemoryAccessDescriptor :=
  match a with
  | assign_action v => set_action desc v
  | assign_addressSpace v => set_addressSpace desc v
  | assign_decodingBF16 v => set_decodingBF16 desc v
  | assign_indentationSpaceCount v => set_indentationSpaceCount desc v
  end.

Definition populate (assignments : list assignment)
    : MemoryAccessDescriptor :=
  fold_left assign assignments MemoryAccessDescriptor_default.

(** The field an assignment writes: 0 for the operation, 1 for the memory
    space, 2 for the codec flag, 3 for the indent. *)
Definition field_of (a : assignment) : nat :=
  match a with
  | assign_action _ => 0
  | assign_addressSpace _ => 1
  | assign_decodingBF16 _ => 2
  | assign_indentationSpaceCount _ => 3
  end.

Definition unset (field : nat) (assignments : list assignment) : bool :=
  negb (existsb (fun a => Nat.eqb (field_of a) field) assignments).

(** The completeness check as the specification words it, over the four
    fields. *)
Definition any_unset_field_raises : Prop :=
  forall assignments field,
    (field < 4)%nat -> unset field assignments = true ->
    createMemoryAccess (populate assignments) = raise InvalidDescriptor.

End Descriptors.

(** *** Generated text *)

Section Text.

Import Generator.
Local Open Scope string_scope.

(** The text of a list of lines, each behind [indentation] and closed by
    a newline. *)
Definition lines_text (indentation : string) (lines : list string) : string :=
  fold_right (fun line rest => indentation ++ line ++ newline ++ rest) ""
    lines.

(** What the assembly of a block makes of one fragment. *)
Definition all_whitespace (fragment : string) : bool :=
  forallb isspace (list_ascii_of_string fragment).

Definition emitted (fragment : string) : string :=
  if all_whitespace fragment then "  " else "  " ++ fragment ++ ";".

(** The lines of a block as they stand in the body. *)
Definition block (fragments : list string) : list string :=
  insertBlockContents [] fragments.

Definition contains (part text : string) : bool :=
  match String.index 0 part text with
  | Some _ => true
  | None => false
  end.

Definition count_lines (p : string -> bool) (lines : list string) : nat :=
  List.length (filter p lines).

(** Scalar accesses: one element of [src] or [dst] at [address0] or
    [address1]. *)
Definition scalar_accesses : list string -> nat :=
  count_lines (fun line =>
    contains "src[address" line || contains "dst[address" line).

(** Packed accesses: a 2-wide element at [combinedAddress]. *)
Definition packed_accesses : list string -> nat :=
  count_lines (fun line =>
    contains "(src + combinedAddress)" line
    || contains "(dst + combinedAddress)" line).

(** The first two lines of a generated function. *)
Definition first_line (decodingBF16 : bool) : string :=
  if decodingBF16 then "// WARNING: 'T' must be 'float'."
  else "template <typename U>".

Definition signature (action : Action) (addressSpace : AddressSpace)
    (decodingBF16 : bool) : string :=
  "METAL_FUNC void"
  ++ (match action with load => " load" | store => " store" end)
  ++ (if decodingBF16 then "_bfloat" else "")
  ++ "(" ++ String.concat ", " (arguments action addressSpace decodingBF16)
  ++ ") {".

(** The lines of a generated function, before indentation. *)
Definition function_lines (action : Action) (addressSpace : AddressSpace)
    (decodingBF16 : bool) : list string :=
  ([first_line decodingBF16; signature action addressSpace decodingBF16]
   ++ map (append "  ") (body action addressSpace decodingBF16)
   ++ ["}"])%list.

(** The eight variants in the order of the header: operation outermost,
    codec innermost. *)
Definition variants : list (Action * AddressSpace * bool) :=
  [ (load, device, false); (load, device, true);
    (load, threadgroup, false); (load, threadgroup, true);
    (store, device, false); (store, device, true);
    (store, threadgroup, false); (store, threadgroup, true) ].

(** The text of a successful call; empty for a failed one. *)
Definition generated (d : MemoryAccessDescriptor) : string :=
  match createMemoryAccess d with
  | inr text => text
  | inl _ => ""
  end.

(** The matrix storage header with each of its eight functions taken
    from a call of its own on a fresh descriptor. *)
Definition matrix_storage_from_fresh_calls : string :=
  HeaderText.matrix_storage_first_section
  ++ fold_right (fun v rest =>
       let '(action, addressSpace, decodingBF16) := v in
       generated (descriptor action addressSpace decodingBF16 4)
       ++ newline ++ rest) "" variants
  ++ HeaderText.matrix_storage_last_section.

End Text.

(** *** Further vocabulary *)

(** Componentwise sum of two origins. *)
Definition vec2_add (a b : vec2) : vec2 :=
  vec2_of (vec_x a + vec_x b) (vec_y a + vec_y b).

(** The row and the column component of an origin: exchanged under
    transposition. *)
Definition row_of (transpose_matrix : bool) (origin : vec2) : Z :=
  if transpose_matrix then vec_x origin else vec_y origin.

Definition column_of (transpose_matrix : bool) (origin : vec2) : Z :=
  if transpose_matrix then vec_y origin else vec_x origin.

(** A text of [n] spaces. *)
Definition spaces (n : nat) : string :=
  string_of_list_ascii (repeat " "%char n).

(** The number of spaces a text starts with. *)
Fixpoint leading_spaces (text : string) : nat :=
  match text with
  | String c text' =>
      if Ascii.eqb c " "%char then S (leading_spaces text') else O
  | EmptyString => O
  end.

(** The address of element [k] in the arithmetic of the offset type. *)
Definition element_address (addressSpace : Generator.AddressSpace)
    (transposed : bool) (elements_per_row : Z) (matrix_origin : vec2)
    (k : Z) : Z :=
  address transposed elements_per_row matrix_origin k
  mod 2 ^ MetalText.offset_bits addressSpace.

(** The nesting depth after [text], starting at [depth], of the brackets
    [opening] and [closing]; [None] when a closing bracket has no opening
    one before it. *)
Fixpoint depth_after (opening closing : ascii) (text : string) (depth : nat)
    : option nat :=
  match text with
  | EmptyString => Some depth
  | String c text' =>
      if Ascii.eqb c opening then
        depth_after opening closing text' (S depth)
      else if Ascii.eqb c closing then
        match depth with
        | O => None
        | S depth' => depth_after opening closing text' depth'
        end
      else depth_after opening closing text' depth
  end.

Definition balanced (opening closing : ascii) (text : string) : Prop :=
  depth_after opening closing text 0 = Some 0%nat.

(** The value of the address expression of element [k] in threadgroup
    space before it is converted to the offset type: the cast of the
    column wraps to [ushort], the product and the sum are formed in
    [int]. *)
Definition promoted_address (transposed : bool) (elements_per_row : Z)
    (matrix_origin : vec2) (k : Z) : Z :=
  let x := wrap 16 (vec_x matrix_origin + k) in
  if transposed then x * elements_per_row + vec_y matrix_origin
  else vec_y matrix_origin * elements_per_row + x.

(** The address expression of element [k] has a value: always in device
    space, where the arithmetic is unsigned; in threadgroup space when
    [int] holds it. *)
Definition address_defined (addressSpace : Generator.AddressSpace)
    (transposed : bool) (elements_per_row : Z) (matrix_origin : vec2)
    (k : Z) : Prop :=
  match addressSpace with
  | Generator.device => True
  | Generator.threadgroup =>
      promoted_address transposed elements_per_row matrix_origin k < 2 ^ 31
  end.

(** The value of [auto combinedAddress], where it has one: of type [uint]
    in device space, of type [int] in threadgroup space. *)
Definition packed_address (addressSpace : Generator.AddressSpace)
    (elements_per_row : Z) (matrix_origin : vec2) : Z :=
  match addressSpace with
  | Generator.device =>
      address false elements_per_row matrix_origin 0 mod 2 ^ 32
  | Generator.threadgroup => address false elements_per_row matrix_origin 0
  end.

(** *** The branch table *)

Section Paths.

Import Generator.
Local Open Scope string_scope.

(** The two ways a generated function reaches its two elements: two
    scalar accesses on the addresses of elements 0 and 1, transposed or
    not, or one packed 2-wide access. *)
Inductive access_path : Set :=
| two_part (transposed : bool)
| one_part.

(** The path the specification's table gives for an operation, the codec
    flag, the transpose flag the function is called with and its stride. *)
Definition branch_table (action : Action) (codec transpose_matrix : bool)
    (elements_per_row : Z) : access_path :=
  if transpose_matrix then two_part true
  else if codec then
    match action with
    | load => one_part
    | store => two_part false
    end
  else if Z.odd elements_per_row then two_part false
  else one_part.




(** The two element indices a path reaches, counted from the pointer: the
    two addresses in the arithmetic of the offset type for a two-part
    path, the value of [combinedAddress] and the index after it for the
    one-part path. *)
Definition element_indices (addressSpace : AddressSpace) (path : access_path)
    (elements_per_row : Z) (matrix_origin : vec2) : Z * Z :=
  match path with
  | two_part transposed =>
      (element_address addressSpace transposed elements_per_row
         matrix_origin 0,
       element_address addressSpace transposed elements_per_row
         matrix_origin 1)
  | one_part =>
      (packed_address addressSpace elements_per_row matrix_origin,
       packed_address addressSpace elements_per_row matrix_origin + 1)
  end.

(** The address expressions of a path have values. *)
Definition addresses_defined (addressSpace : AddressSpace)
    (path : access_path) (elements_per_row : Z) (matrix_origin : vec2)
    : Prop :=
  match path with
  | two_part transposed =>
      address_defined addressSpace transposed elements_per_row
        matrix_origin 0
      /\ address_defined addressSpace transposed elements_per_row
           matrix_origin 1
  | one_part =>
      address_defined addressSpace false elements_per_row matrix_origin 0
  end.

(** The 2-wide access of the one-part path is aligned to two elements. *)
Definition aligned (addressSpace : AddressSpace) (pointer : Z)
    (path : access_path) (elements_per_row : Z) (matrix_origin : vec2)
    : Prop :=
  match path with
  | two_part _ => True
  | one_part =>
      Z.even (pointer
              + packed_address addressSpace elements_per_row matrix_origin)
      = true
  end.

End Paths.

End Spec.

(** ** The statements of a generated body as a program

    A generated load or store is a short straight-line program over a few
    locals, the two elements the lane holds ([thread_elements()]) and the
    memory behind its pointer argument.  [exec] gives each statement the
    generator can emit its effect; a text that is none of them has no
    effect defined.  Reading an undeclared local is undefined as well.

    The initialiser of an address is taken through two evaluators:
    [deduced] for [auto combinedAddress = e], whose type is the type of
    [e], and [declared] for [uint address0 = e] and [ushort address0 = e],
    where the value of [e] is converted to the offset type.

    The memory of an address space is indexed by element from the start of
    an allocation aligned for 2-vectors, and [pointer] is the index the
    pointer argument ([src] or [dst]) points at: [src[i]] is the element at
    [pointer + i].  A [vec<U, 2>] behind a cast pointer is one 2-wide
    access aligned to two elements; at an odd index it has no defined
    effect.  A [packed_bfloat2] is aligned as one [bfloat]. *)

Module Statements.

Import Generator MetalText.

Local Open Scope string_scope.

(** The address locals of a block. *)
Record addresses : Set := {
  address0 : option Z;
  address1 : option Z;
  combinedAddress : option Z
}.

Definition no_addresses : addresses :=
  {| address0 := None; address1 := None; combinedAddress := None |}.

(** The fragment is blank, as [insertBlockContents] decides it. *)
Definition blank (fragment : string) : bool :=
  forallb isspace (list_ascii_of_string fragment).

(** The fragment behind a line of a block: the two spaces in front and the
    terminator removed; a blank line stands for the empty fragment. *)
Definition fragment_of (line : string) : option string :=
  if blank line then Some ""
  else
    match strip_prefix "  " line with
    | Some rest => strip_suffix ";" rest
    | None => None
    end.

Section Addresses.

Variable addressSpace : AddressSpace.
Variable pointer : Z.
Variable declared : string -> option Z.
Variable deduced : string -> option Z.

(** An address declaration; the outer [None] when [line] is none. *)
Definition declare_address (line : string) (a : addresses)
    : option (option addresses) :=
  match strip_prefix (offsetType addressSpace ++ " address0 = ") line with
  | Some e =>
      Some (option_map (fun v =>
              {| address0 := Some v; address1 := address1 a;
                 combinedAddress := combinedAddress a |}) (declared e))
  | None =>
  match strip_prefix (offsetType addressSpace ++ " address1 = ") line with
  | Some e =>
      Some (option_map (fun v =>
              {| address0 := address0 a; address1 := Some v;
                 combinedAddress := combinedAddress a |}) (declared e))
  | None =>
  match strip_prefix "auto combinedAddress = " line with
  | Some e =>
      Some (option_map (fun v =>
              {| address0 := address0 a; address1 := address1 a;
                 combinedAddress := Some v |}) (deduced e))
  | None => None
  end end end.

(** *** Without the codec

    Memory holds elements of type [U], the lane two elements of type [T];
    [T(u)] and [U(t)] are the conversions between them. *)
Section Native.

Variables U T : Type.
Variable to_T : U -> T.
Variable to_U : T -> U.

Record native_locals : Type := {
  memoryForm0 : option U;
  memoryForm1 : option U;
  memoryForm : option (U * U);
  registerForm0 : option T;
  registerForm1 : option T;
  registerForm : option (T * T)
}.

Record native_state : Type := {
  native_addresses : addresses;
  native_vars : native_locals;
  thread_elements : T * T;
  memory : Z -> U
}.

Definition native_initial (elements : T * T) (m : Z -> U) : native_state :=
  {| native_addresses := no_addresses;
     native_vars :=
       {| memoryForm0 := None; memoryForm1 := None; memoryForm := None;
          registerForm0 := None; registerForm1 := None;
          registerForm := None |};
     thread_elements := elements;
     memory := m |}.

Definition set_native_vars (st : native_state) (v : native_locals)
    : native_state :=
  {| native_addresses := native_addresses st; native_vars := v;
     thread_elements := thread_elements st; memory := memory st |}.

Definition set_thread_elements (st : native_state) (e : T * T)
    : native_state :=
  {| native_addresses := native_addresses st; native_vars := native_vars st;
     thread_elements := e; memory := memory st |}.

Definition set_memory (st : native_state) (m : Z -> U) : native_state :=
  {| native_addresses := native_addresses st; native_vars := native_vars st;
     thread_elements := thread_elements st; memory := m |}.

Definition native_exec (line : string) (st : native_state)
    : option native_state :=
  let a := native_addresses st in
  let v := native_vars st in
  match declare_address line a with
  | Some a' =>
      option_map (fun a' =>
        {| native_addresses := a'; native_vars := v;
           thread_elements := thread_elements st; memory := memory st |}) a'
  | None =>
  if String.eqb line "U memoryForm0 = src[address0]" then
    match address0 a with
    | Some i =>
        Some (set_native_vars st
          {| memoryForm0 := Some (memory st (pointer + i)%Z);
             memoryForm1 := memoryForm1 v;
             memoryForm := memoryForm v; registerForm0 := registerForm0 v;
             registerForm1 := registerForm1 v;
             registerForm := registerForm v |})
    | None => None
    end
  else if String.eqb line "U memoryForm1 = src[address1]" then
    match address1 a with
    | Some i =>
        Some (set_native_vars st
          {| memoryForm0 := memoryForm0 v;
             memoryForm1 := Some (memory st (pointer + i)%Z);
             memoryForm := memoryForm v; registerForm0 := registerForm0 v;
             registerForm1 := registerForm1 v;
             registerForm := registerForm v |})
    | None => None
    end
  else if String.eqb line
            "((thread T*)thread_elements())[0] = T(memoryForm0)" then
    match memoryForm0 v with
    | Some u =>
        Some (set_thread_elements st (to_T u, snd (thread_elements st)))
    | None => None
    end
  else if String.eqb line
            "((thread T*)thread_elements())[1] = T(memoryForm1)" then
    match memoryForm1 v with
    | Some u =>
        Some (set_thread_elements st (fst (thread_elements st), to_T u))
    | None => None
    end
  else if String.eqb line
            "T registerForm0 = ((thread T*)thread_elements())[0]" then
    Some (set_native_vars st
      {| memoryForm0 := memoryForm0 v; memoryForm1 := memoryForm1 v;
         memoryForm := memoryForm v;
         registerForm0 := Some (fst (thread_elements st));
         registerForm1 := registerForm1 v; registerForm := registerForm v |})
  else if String.eqb line
            "T registerForm1 = ((thread T*)thread_elements())[1]" then
    Some (set_native_vars st
      {| memoryForm0 := memoryForm0 v; memoryForm1 := memoryForm1 v;
         memoryForm := memoryForm v; registerForm0 := registerForm0 v;
         registerForm1 := Some (snd (thread_elements st));
         registerForm := registerForm v |})
  else if String.eqb line "dst[address0] = U(registerForm0)" then
    match address0 a, registerForm0 v with
    | Some i, Some t =>
        Some (set_memory st
                (Metal.store U (memory st) (pointer + i)%Z (to_U t)))
    | _, _ => None
    end
  else if String.eqb line "dst[address1] = U(registerForm1)" then
    match address1 a, registerForm1 v with
    | Some i, Some t =>
        Some (set_memory st
                (Metal.store U (memory st) (pointer + i)%Z (to_U t)))
    | _, _ => None
    end
  else if String.eqb line
            ("vec<U, 2> memoryForm = *(const " ++ keyword addressSpace
             ++ " vec<U, 2>*)(src + combinedAddress)") then
    match combinedAddress a with
    | Some i =>
        if Z.even (pointer + i) then
          Some (set_native_vars st
            {| memoryForm0 := memoryForm0 v; memoryForm1 := memoryForm1 v;
               memoryForm := Some (memory st (pointer + i)%Z,
                                   memory st (pointer + i + 1)%Z);
               registerForm0 := registerForm0 v;
               registerForm1 := registerForm1 v;
               registerForm := registerForm v |})
        else None
    | None => None
    end
  else if String.eqb line "*(thread_elements()) = vec<T, 2>(memoryForm)" then
    match memoryForm v with
    | Some (u0, u1) => Some (set_thread_elements st (to_T u0, to_T u1))
    | None => None
    end
  else if String.eqb line "vec<T, 2> registerForm = *(thread_elements())" then
    Some (set_native_vars st
      {| memoryForm0 := memoryForm0 v; memoryForm1 := memoryForm1 v;
         memoryForm := memoryForm v; registerForm0 := registerForm0 v;
         registerForm1 := registerForm1 v;
         registerForm := Some (thread_elements st) |})
  else if String.eqb line
            ("*(" ++ keyword addressSpace ++ " vec<U, 2>*)"
             ++ "(dst + combinedAddress) = vec<U, 2>(registerForm)") then
    match combinedAddress a, registerForm v with
    | Some i, Some (t0, t1) =>
        if Z.even (pointer + i) then
          Some (set_memory st
                  (Metal.store U
                     (Metal.store U (memory st) (pointer + i)%Z (to_U t0))
                     (pointer + i + 1)%Z (to_U t1)))
        else None
    | _, _ => None
    end
  else None
  end.

(** The lines of a block, in order. *)
Fixpoint native_exec_lines (lines : list string) (st : native_state)
    : option native_state :=
  match lines with
  | [] => Some st
  | line :: lines' =>
      match fragment_of line with
      | Some fragment =>
          if blank fragment then native_exec_lines lines' st
          else
            match native_exec fragment st with
            | Some st' => native_exec_lines lines' st'
            | None => None
            end
      | None => None
      end
  end.

(** What a caller observes of a block run on fresh locals: the elements
    of the lane and the memory. *)
Definition run_native (lines : list string) (elements : T * T) (m : Z -> U)
    : option ((T * T) * (Z -> U)) :=
  option_map (fun st => (thread_elements st, memory st))
    (native_exec_lines lines (native_initial elements m)).

End Native.

(** *** With the codec

    Memory holds [bfloat] patterns of a type [B].  The lane holds two
    [float]; seen as [bfloat4] they are four patterns, of which 0 and 1
    make the first [float] and 2 and 3 the second. *)
Section Codec.

Variable B : Type.

Record bfloat4 : Type := {
  lane0 : B;
  lane1 : B;
  lane2 : B;
  lane3 : B
}.

Record codec_locals : Type := {
  bfloat_memoryForm0 : option B;
  bfloat_memoryForm1 : option B;
  bfloat2_memoryForm : option (B * B);
  bfloat4_registerForm : option bfloat4
}.

Record codec_state : Type := {
  codec_addresses : addresses;
  codec_vars : codec_locals;
  codec_thread_elements : bfloat4;
  codec_memory : Z -> B
}.

Definition codec_initial (elements : bfloat4) (m : Z -> B) : codec_state :=
  {| codec_addresses := no_addresses;
     codec_vars :=
       {| bfloat_memoryForm0 := None; bfloat_memoryForm1 := None;
          bfloat2_memoryForm := None; bfloat4_registerForm := None |};
     codec_thread_elements := elements;
     codec_memory := m |}.

Definition set_codec_vars (st : codec_state) (v : codec_locals)
    : codec_state :=
  {| codec_addresses := codec_addresses st; codec_vars := v;
     codec_thread_elements := codec_thread_elements st;
     codec_memory := codec_memory st |}.

Definition set_registerForm (st : codec_state) (r : bfloat4) : codec_state :=
  let v := codec_vars st in
  set_codec_vars st
    {| bfloat_memoryForm0 := bfloat_memoryForm0 v;
       bfloat_memoryForm1 := bfloat_memoryForm1 v;
       bfloat2_memoryForm := bfloat2_memoryForm v;
       bfloat4_registerForm := Some r |}.

Definition set_codec_memory (st : codec_state) (m : Z -> B) : codec_state :=
  {| codec_addresses := codec_addresses st; codec_vars := codec_vars st;
     codec_thread_elements := codec_thread_elements st;
     codec_memory := m |}.

Definition codec_exec (line : string) (st : codec_state)
    : option codec_state :=
  let a := codec_addresses st in
  let v := codec_vars st in
  match declare_address line a with
  | Some a' =>
      option_map (fun a' =>
        {| codec_addresses := a'; codec_vars := v;
           codec_thread_elements := codec_thread_elements st;
           codec_memory := codec_memory st |}) a'
  | None =>
  if String.eqb line "bfloat memoryForm0 = src[address0]" then
    match address0 a with
    | Some i =>
        Some (set_codec_vars st
          {| bfloat_memoryForm0 := Some (codec_memory st (pointer + i)%Z);
             bfloat_memoryForm1 := bfloat_memoryForm1 v;
             bfloat2_memoryForm := bfloat2_memoryForm v;
             bfloat4_registerForm := bfloat4_registerForm v |})
    | None => None
    end
  else if String.eqb line "bfloat memoryForm1 = src[address1]" then
    match address1 a with
    | Some i =>
        Some (set_codec_vars st
          {| bfloat_memoryForm0 := bfloat_memoryForm0 v;
             bfloat_memoryForm1 := Some (codec_memory st (pointer + i)%Z);
             bfloat2_memoryForm := bfloat2_memoryForm v;
             bfloat4_registerForm := bfloat4_registerForm v |})
    | None => None
    end
  else if String.eqb line
            ("bfloat2 memoryForm = *(const " ++ keyword addressSpace
             ++ " packed_bfloat2*)(src + combinedAddress)") then
    match combinedAddress a with
    | Some i =>
        Some (set_codec_vars st
          {| bfloat_memoryForm0 := bfloat_memoryForm0 v;
             bfloat_memoryForm1 := bfloat_memoryForm1 v;
             bfloat2_memoryForm :=
               Some (codec_memory st (pointer + i)%Z,
                     codec_memory st (pointer + i + 1)%Z);
             bfloat4_registerForm := bfloat4_registerForm v |})
    | None => None
    end
  else if String.eqb line
            "bfloat4 registerForm = *(thread bfloat4*)(thread_elements())" then
    Some (set_registerForm st (codec_thread_elements st))
  else if String.eqb line "registerForm[1] = memoryForm0" then
    match bfloat4_registerForm v, bfloat_memoryForm0 v with
    | Some r, Some b =>
        Some (set_registerForm st
          {| lane0 := lane0 r; lane1 := b; lane2 := lane2 r;
             lane3 := lane3 r |})
    | _, _ => None
    end
  else if String.eqb line "registerForm[3] = memoryForm1" then
    match bfloat4_registerForm v, bfloat_memoryForm1 v with
    | Some r, Some b =>
        Some (set_registerForm st
          {| lane0 := lane0 r; lane1 := lane1 r; lane2 := lane2 r;
             lane3 := b |})
    | _, _ => None
    end
  else if String.eqb line
            "((thread float*)&registerForm)[1] = *(thread float*)(&memoryForm)"
  then
    match bfloat4_registerForm v, bfloat2_memoryForm v with
    | Some r, Some (b0, b1) =>
        Some (set_registerForm st
          {| lane0 := lane0 r; lane1 := lane1 r; lane2 := b0; lane3 := b1 |})
    | _, _ => None
    end
  else if String.eqb line
            "((thread bfloat*)&registerForm)[1] = memoryForm[0]" then
    match bfloat4_registerForm v, bfloat2_memoryForm v with
    | Some r, Some (b0, _) =>
        Some (set_registerForm st
          {| lane0 := lane0 r; lane1 := b0; lane2 := lane2 r;
             lane3 := lane3 r |})
    | _, _ => None
    end
  else if String.eqb line
            "((thread bfloat4*)thread_elements())[0] = registerForm" then
    match bfloat4_registerForm v with
    | Some r =>
        Some {| codec_addresses := a; codec_vars := v;
                codec_thread_elements := r;
                codec_memory := codec_memory st |}
    | None => None
    end
  else if String.eqb line "registerForm[2] = registerForm[1]" then
    match bfloat4_registerForm v with
    | Some r =>
        Some (set_registerForm st
          {| lane0 := lane0 r; lane1 := lane1 r; lane2 := lane1 r;
             lane3 := lane3 r |})
    | None => None
    end
  else if String.eqb line "dst[address0] = registerForm[2]" then
    match address0 a, bfloat4_registerForm v with
    | Some i, Some r =>
        Some (set_codec_memory st
                (Metal.store B (codec_memory st) (pointer + i)%Z (lane2 r)))
    | _, _ => None
    end
  else if String.eqb line "dst[address1] = registerForm[3]" then
    match address1 a, bfloat4_registerForm v with
    | Some i, Some r =>
        Some (set_codec_memory st
                (Metal.store B (codec_memory st) (pointer + i)%Z (lane3 r)))
    | _, _ => None
    end
  else None
  end.

Fixpoint codec_exec_lines (lines : list string) (st : codec_state)
    : option codec_state :=
  match lines with
  | [] => Some st
  | line :: lines' =>
      match fragment_of line with
      | Some fragment =>
          if blank fragment then codec_exec_lines lines' st
          else
            match codec_exec fragment st with
            | Some st' => codec_exec_lines lines' st'
            | None => None
            end
      | None => None
      end
  end.

Definition run_codec (lines : list string) (elements : bfloat4)
    (m : Z -> B) : option (bfloat4 * (Z -> B)) :=
  option_map (fun st => (codec_thread_elements st, codec_memory st))
    (codec_exec_lines lines (codec_initial elements m)).

End Codec.

End Addresses.

(** *** Calls of the generated functions *)

Section Calls.

Variable addressSpace : AddressSpace.
Variable pointer : Z.
Variable elements_per_row : Z.
Variable matrix_origin : Metal.vec2.
Variable transpose_matrix : bool.

Definition arguments_of_call : string -> option Z :=
  parameters elements_per_row matrix_origin transpose_matrix.

(** [auto combinedAddress = e]: [uint] in device space, where every
    operand is one; [int] in threadgroup space, by integer promotion of the
    [ushort] operands, and undefined when [int] cannot hold the value. *)
Definition deduced (e : string) : option Z :=
  match addressSpace with
  | device => eval_text 32 arguments_of_call e
  | threadgroup =>
      match eval_text 64 arguments_of_call e with
      | Some v => Metal.int_value v
      | None => None
      end
  end.

(** [offsetType addressN = e]: the value of [e], computed in the type of
    [e], converted to the offset type; undefined where the value of [e]
    is. *)
Definition declared (e : string) : option Z :=
  option_map (Metal.wrap (offset_bits addressSpace)) (deduced e).

(** The block of the body that runs on these arguments. *)
Definition block_of_call (action : Action) (decodingBF16 : bool)
    : option (list string) :=
  executed_block (offset_bits addressSpace) arguments_of_call
    (body action addressSpace decodingBF16).

(** A call of the function generated without the codec: the elements of
    the lane and the memory after it. *)
Definition call_native (U T : Type) (to_T : U -> T) (to_U : T -> U)
    (action : Action) (elements : T * T) (m : Z -> U)
    : option ((T * T) * (Z -> U)) :=
  match block_of_call action false with
  | Some lines =>
      run_native addressSpace pointer declared deduced U T to_T to_U lines
        elements m
  | None => None
  end.

(** A call of the function generated with the codec. *)
Definition call_codec (B : Type) (action : Action)
    (elements : bfloat4 B) (m : Z -> B)
    : option (bfloat4 B * (Z -> B)) :=
  match block_of_call action true with
  | Some lines =>
      run_codec addressSpace pointer declared deduced B lines elements m
  | None => None
  end.

End Calls.

End Statements.

(* ================================================================== *)
(** * Part II: properties                                              *)
(* ================================================================== *)

(** ** Ranges *)

Module Ranges.

Import Spec.

Lemma in_zrange (count : nat) : forall first k,
  In k (zrange first count) <-> first <= k < first + Z.of_nat count.
Proof.
  induction count as [|count IH]; intros first k; simpl zrange.
  - simpl. lia.
  - simpl In. rewrite IH. lia.
Qed.

Lemma in_upto (n k : Z) : In k (upto n) <-> 0 <= k < n.
Proof.
  unfold upto. rewrite in_zrange. lia.
Qed.

Lemma in_grid (cell : Metal.vec2) :
  In cell grid <->
  0 <= Metal.vec_x cell < 8 /\ 0 <= Metal.vec_y cell < 8.
Proof.
  unfold grid. rewrite in_flat_map. split.
  - intros (row & Hrow & Hcell). apply in_map_iff in Hcell.
    destruct Hcell as (col & <- & Hcol).
    apply in_upto in Hrow. apply in_upto in Hcol. simpl. lia.
  - intros [Hx Hy]. exists (Metal.vec_y cell). split.
    + apply in_upto. exact Hy.
    + apply in_map_iff. exists (Metal.vec_x cell). split.
      * destruct cell; reflexivity.
      * apply in_upto. exact Hx.
Qed.

End Ranges.

(** ** The lane layout *)

Module MortonOrder.

Import Metal Spec.

Lemma vec2_eqb_eq (a b : vec2) : vec2_eqb a b = true <-> a = b.
Proof.
  unfold vec2_eqb. rewrite andb_true_iff, !Z.eqb_eq.
  destruct a, b; simpl. split.
  - intros [-> ->]. reflexivity.
  - intros H. injection H. auto.
Qed.

Lemma distinct_length (l : list vec2) :
  (List.length (distinct l) <= List.length l)%nat.
Proof.
  induction l as [|c l IH]; simpl; [lia|].
  destruct (existsb (vec2_eqb c) l); simpl; lia.
Qed.

Lemma distinct_all_NoDup (l : list vec2) :
  List.length (distinct l) = List.length l -> NoDup l.
Proof.
  induction l as [|c l IH]; intros Hd; [constructor|].
  simpl in Hd. pose proof (distinct_length l) as Hl.
  destruct (existsb (vec2_eqb c) l) eqn:E; [lia|].
  simpl in Hd. constructor; [|apply IH; lia].
  intros Hin.
  assert (Hex : existsb (vec2_eqb c) l = true).
  { apply existsb_exists. exists c. split; [exact Hin|].
    apply vec2_eqb_eq. reflexivity. }
  congruence.
Qed.

Lemma only_eq (lane : Z) (l : list Z) : only lane l = true -> l = [lane].
Proof.
  destruct l as [|k [|k' l]]; simpl; try discriminate.
  intros H. apply Z.eqb_eq in H. subst. reflexivity.
Qed.

(** Each lane is the only producer of its base position, which is a cell of
    the grid in an even column. *)
Lemma lane_position (lane : Z) :
  0 <= lane < 32 ->
  producers (morton_order lane) = [lane]
  /\ In (morton_order lane) grid
  /\ Z.even (vec_x (morton_order lane)) = true.
Proof.
  intros H. apply Ranges.in_upto in H.
  assert (Hall : forallb (fun lane =>
            only lane (producers (morton_order lane))
            && existsb (vec2_eqb (morton_order lane)) grid
            && Z.even (vec_x (morton_order lane))) lanes = true)
    by (vm_compute; reflexivity).
  rewrite forallb_forall in Hall. specialize (Hall lane H).
  rewrite !andb_true_iff in Hall. destruct Hall as [[Ha Hb] Hc].
  split; [exact (only_eq _ _ Ha)|]. split; [|exact Hc].
  apply existsb_exists in Hb. destruct Hb as (c & Hin & Heq).
  apply vec2_eqb_eq in Heq. rewrite Heq. exact Hin.
Qed.

(** Each cell of the grid is held by one lane, the one drawn. *)
Lemma cell_owner (cell : vec2) :
  In cell grid ->
  owners cell = [drawn_owner cell] /\ 0 <= drawn_owner cell < 32.
Proof.
  intros H.
  assert (Hall : forallb (fun cell =>
            only (drawn_owner cell) (owners cell)
            && (0 <=? drawn_owner cell) && (drawn_owner cell <? 32)) grid = true)
    by (vm_compute; reflexivity).
  rewrite forallb_forall in Hall. specialize (Hall cell H).
  rewrite !andb_true_iff in Hall. destruct Hall as [[Ha Hb] Hc].
  split; [exact (only_eq _ _ Ha)|]. lia.
Qed.

(** C3, as stated, fails: the 32 lanes have 32 distinct base positions, not
    16, and the position of lane 0 is produced by one lane, not two. *)
Lemma morton_order_not_sixteen_pairs :
  List.length (distinct coordinates) = 32%nat
  /\ List.length (producers (morton_order 0)) = 1%nat
  /\ ~ sixteen_pairs_two_lanes_each.
Proof.
  split; [reflexivity|]. split; [reflexivity|].
  intros (H & _). vm_compute in H. discriminate H.
Qed.

(** C3, amended: over the lanes 0..31, [morton_order] yields 32 distinct
    (col, row) base positions, each produced by exactly one lane; every base
    position is a cell of the 8 x 8 grid in an even column; and with the
    2-wide run of each lane included, every cell of the grid is held by
    exactly one lane, the one drawn in the layout comment of the source. *)
Theorem morton_order_one_lane_per_position :
  List.length (distinct coordinates) = 32%nat
  /\ NoDup coordinates
  /\ (forall lane, 0 <= lane < 32 ->
        producers (morton_order lane) = [lane]
        /\ In (morton_order lane) grid
        /\ Z.even (vec_x (morton_order lane)) = true)
  /\ covers_grid = true
  /\ (forall col row, 0 <= col < 8 -> 0 <= row < 8 ->
        exists lane, 0 <= lane < 32
          /\ owners (vec2_of col row) = [lane]
          /\ lane = drawn_owner (vec2_of col row)).
Proof.
  split; [reflexivity|].
  split; [apply distinct_all_NoDup; reflexivity|].
  split; [exact lane_position|].
  split; [reflexivity|].
  intros col row Hcol Hrow.
  assert (Hin : In (vec2_of col row) grid) by (apply Ranges.in_grid; simpl; lia).
  destruct (cell_owner _ Hin) as [Ho Hr].
  exists (drawn_owner (vec2_of col row)). auto.
Qed.

Lemma morton_order_one_lane_per_position_witness :
  producers (morton_order 9) = [9]
  /\ In (morton_order 9) grid
  /\ Z.even (vec_x (morton_order 9)) = true.
Proof.
  apply (proj1 (proj2 (proj2 morton_order_one_lane_per_position)) 9). lia.
Defined.

End MortonOrder.

(** ** Offsets *)

Module ApplyOffset.

Import Metal.

Lemma wrap_small (bits v : Z) : 0 <= v < 2 ^ bits -> wrap bits v = v.
Proof.
  intros H. unfold wrap. apply Z.mod_small. exact H.
Qed.

Lemma wrap_range (bits v : Z) : 0 <= bits -> 0 <= wrap bits v < 2 ^ bits.
Proof.
  intros H. unfold wrap. apply Z.mod_pos_bound. apply Z.pow_pos_nonneg; lia.
Qed.

(** The offset [apply_offset] adds to [src]: the product wrapped to 32 bits,
    plus the other component. *)
Lemma apply_offset_device_offset src elements_per_row matrix_origin transpose :
  apply_offset_device src elements_per_row matrix_origin transpose - src =
  if transpose then
    (vec_x matrix_origin * elements_per_row) mod 2 ^ 32 + vec_y matrix_origin
  else
    (vec_y matrix_origin * elements_per_row) mod 2 ^ 32 + vec_x matrix_origin.
Proof.
  unfold apply_offset_device, ulong, uint.
  destruct transpose.
  - rewrite (wrap_small 64).
    + unfold wrap. lia.
    + pose proof (wrap_range 32 (vec_x matrix_origin * elements_per_row)). lia.
  - rewrite (wrap_small 64).
    + unfold wrap. lia.
    + pose proof (wrap_range 32 (vec_y matrix_origin * elements_per_row)). lia.
Qed.

(** C10: in the device [apply_offset], the product of the origin component
    and the stride is formed in 32 bits and widened afterwards: the offset
    added to the pointer is the product modulo 2^32 plus the other origin
    component, and whenever the product reaches 2^32 it falls short of the
    offset of the full product. *)
Theorem apply_offset_device_wraps_product :
  forall (src elements_per_row : Z) (matrix_origin : vec2)
         (transpose_matrix : bool),
    is_uint elements_per_row ->
    is_uint (vec_x matrix_origin) -> is_uint (vec_y matrix_origin) ->
    let row := if transpose_matrix then vec_x matrix_origin
               else vec_y matrix_origin in
    let column := if transpose_matrix then vec_y matrix_origin
                  else vec_x matrix_origin in
    let offset :=
      apply_offset_device src elements_per_row matrix_origin transpose_matrix
      - src in
    offset = (row * elements_per_row) mod 2 ^ 32 + column
    /\ (2 ^ 32 <= row * elements_per_row ->
        offset < row * elements_per_row + column
        /\ offset <> row * elements_per_row + column).
Proof.
  intros src epr origin transpose Hepr Hx Hy row column offset.
  assert (Hoff : offset = (row * epr) mod 2 ^ 32 + column).
  { unfold offset, row, column. rewrite apply_offset_device_offset.
    destruct transpose; reflexivity. }
  split; [exact Hoff|].
  intros Hbig.
  assert (Hm : 0 <= (row * epr) mod 2 ^ 32 < 2 ^ 32)
    by (apply Z.mod_pos_bound; lia).
  lia.
Qed.

(** Origin (65536, 1) with stride 65536, transposed: the product is 2^32,
    and the offset is 1. *)
Lemma apply_offset_device_wraps_product_witness :
  apply_offset_device 0 65536 (vec2_of 65536 1) true - 0
    = (65536 * 65536) mod 2 ^ 32 + 1
  /\ apply_offset_device 0 65536 (vec2_of 65536 1) true - 0
       < 65536 * 65536 + 1
  /\ apply_offset_device 0 65536 (vec2_of 65536 1) true - 0
       <> 65536 * 65536 + 1.
Proof.
  assert (H65536 : is_uint 65536) by (unfold is_uint; lia).
  assert (H1 : is_uint 1) by (unfold is_uint; lia).
  destruct (apply_offset_device_wraps_product 0 65536 (vec2_of 65536 1) true
              H65536 H65536 H1) as [Hoffset Hshort].
  split; [exact Hoffset|]. apply Hshort. simpl. lia.
Defined.

End ApplyOffset.

(** ** The tiled copies *)

Module TileCopy.

Import Metal Spec.

(** With enough fuel, a loop over a [ushort] counter whose body always
    succeeds is the fold of its body over the values of the counter. *)
Lemma for_ushort_fold {St : Type} (body : Z -> St -> option St)
    (pure : Z -> St -> St) (bound : Z) :
  bound < 2 ^ 16 ->
  forall (count : nat) (first : Z) (fuel : nat) (s : St),
    0 <= first ->
    first + Z.of_nat count = bound ->
    (count < fuel)%nat ->
    (forall k s', first <= k < bound -> body k s' = Some (pure k s')) ->
    for_ushort fuel first bound body s =
    Some (fold_left (fun s' k => pure k s') (zrange first count) s).
Proof.
  intros Hbound. induction count as [|count IH];
    intros first fuel s Hfirst Hcount Hfuel Hbody;
    (destruct fuel as [|fuel]; [lia|]); simpl.
  - replace (first <? bound) with false by (symmetry; apply Z.ltb_ge; lia).
    reflexivity.
  - replace (first <? bound) with true by (symmetry; apply Z.ltb_lt; lia).
    rewrite Hbody by lia.
    replace (ushort (first + 1)) with (first + 1).
    + apply IH; try lia. intros k s' Hk. apply Hbody. lia.
    + unfold ushort, wrap. symmetry. apply Z.mod_small. lia.
Qed.

(** Index arithmetic in [ulong] does not wrap on operands of these
    widths. *)
Lemma ulong_index (elements_per_row x y : Z) :
  is_uint elements_per_row -> is_ushort x -> is_ushort y ->
  ulong (ulong (ulong y * ulong elements_per_row) + ulong x) =
  cell_index elements_per_row x y.
Proof.
  unfold is_uint, is_ushort, cell_index, ulong, wrap. intros He Hx Hy.
  assert (Hp : 0 <= y * elements_per_row < 2 ^ 48) by nia.
  rewrite (Z.mod_small y), (Z.mod_small elements_per_row), (Z.mod_small x)
    by lia.
  rewrite (Z.mod_small (y * elements_per_row)) by lia.
  apply Z.mod_small. lia.
Qed.

Lemma is_ushort_is_uint (v : Z) : is_ushort v -> is_uint v.
Proof. unfold is_ushort, is_uint. lia. Qed.

Lemma extent_is_ushort2 (transpose_matrix : bool) (d : vec2) :
  is_ushort2 d -> is_ushort2 (extent transpose_matrix d).
Proof.
  unfold is_ushort2, extent. destruct transpose_matrix; simpl; tauto.
Qed.

Section Copies.

Variable T : Type.
Variable T0 : T.

(** *** Writes that miss an index leave it alone *)

Lemma store_other (m : memory T) (i j : Z) (v : T) :
  j <> i -> store T m i v j = m j.
Proof.
  intros H. unfold store. destruct (Z.eqb_spec j i); [contradiction|].
  reflexivity.
Qed.

Lemma store_same (m : memory T) (i : Z) (v : T) : store T m i v i = v.
Proof. unfold store. rewrite Z.eqb_refl. reflexivity. Qed.

Lemma write_row_frame (value : Z -> Z -> T) (elements_per_row y i : Z)
    (xs : list Z) : forall m : memory T,
  (forall x, In x xs -> cell_index elements_per_row x y <> i) ->
  write_row T value elements_per_row xs y m i = m i.
Proof.
  unfold write_row. induction xs as [|x xs IH]; intros m Hmiss; simpl.
  - reflexivity.
  - rewrite IH by (intros x' Hx'; apply Hmiss; right; exact Hx').
    apply store_other. intros ->. apply (Hmiss x); [left|]; reflexivity.
Qed.

Lemma write_rows_frame (value : Z -> Z -> T) (elements_per_row i : Z)
    (xs ys : list Z) : forall m : memory T,
  (forall x y, In x xs -> In y ys -> cell_index elements_per_row x y <> i) ->
  fold_left (fun m y => write_row T value elements_per_row xs y m) ys m i
  = m i.
Proof.
  induction ys as [|y ys IH]; intros m Hmiss; simpl.
  - reflexivity.
  - rewrite IH by (intros x' y' Hx' Hy'; apply Hmiss; [|right]; assumption).
    apply write_row_frame. intros x Hx. apply Hmiss; [|left]; auto.
Qed.

(** *** A written cell holds its value when rows do not overlap *)

Lemma write_row_lookup (value : Z -> Z -> T) (elements_per_row y : Z) :
  forall (count : nat) (first x : Z) (m : memory T),
    In x (zrange first count) ->
    write_row T value elements_per_row (zrange first count) y m
      (cell_index elements_per_row x y) = value x y.
Proof.
  unfold write_row.
  induction count as [|count IH]; intros first x m Hx; simpl in Hx.
  - contradiction.
  - simpl. destruct (Z.eq_dec first x) as [->|Hne].
    + fold (write_row T value elements_per_row (zrange (x + 1) count) y
              (store T m (cell_index elements_per_row x y) (value x y))).
      rewrite write_row_frame.
      * apply store_same.
      * intros x' Hx'. apply Ranges.in_zrange in Hx'.
        unfold cell_index. lia.
    + apply IH. destruct Hx as [Hx|Hx]; [contradiction|exact Hx].
Qed.

Lemma write_cells_lookup (value : Z -> Z -> T) (elements_per_row : Z)
    (width : Z) :
  width <= elements_per_row ->
  forall (count : nat) (first x y : Z) (m : memory T),
    0 <= first ->
    0 <= x < width ->
    In y (zrange first count) ->
    fold_left (fun m y => write_row T value elements_per_row (upto width) y m)
      (zrange first count) m (cell_index elements_per_row x y) = value x y.
Proof.
  intros Hwidth.
  induction count as [|count IH]; intros first x y m Hfirst Hx Hy;
    simpl in Hy.
  - contradiction.
  - simpl. destruct (Z.eq_dec first y) as [->|Hne].
    + rewrite write_rows_frame.
      * apply write_row_lookup. apply Ranges.in_upto. exact Hx.
      * intros x' y' Hx' Hy'. apply Ranges.in_upto in Hx'.
        apply Ranges.in_zrange in Hy'. unfold cell_index. nia.
    + apply IH; try lia. destruct Hy as [Hy|Hy]; [contradiction|exact Hy].
Qed.

Lemma write_cells_inside (value : Z -> Z -> T) (elements_per_row : Z)
    (e : vec2) (m : memory T) (x y : Z) :
  vec_x e <= elements_per_row ->
  inside e x y ->
  write_cells T value elements_per_row e m (cell_index elements_per_row x y)
  = value x y.
Proof.
  intros Hwidth [Hx Hy]. unfold write_cells.
  apply write_cells_lookup; try lia.
  apply Ranges.in_upto. exact Hy.
Qed.

Lemma write_cells_frame (value : Z -> Z -> T) (elements_per_row : Z)
    (e : vec2) (m : memory T) (i : Z) :
  (forall x y, inside e x y -> cell_index elements_per_row x y <> i) ->
  write_cells T value elements_per_row e m i = m i.
Proof.
  intros Hmiss. unfold write_cells. apply write_rows_frame.
  intros x y Hx Hy. apply Ranges.in_upto in Hx. apply Ranges.in_upto in Hy.
  apply Hmiss. split; assumption.
Qed.

(** Within the row stride, distinct cells have distinct indices. *)
Lemma cell_index_inj (elements_per_row x y x' y' : Z) :
  0 <= x < elements_per_row -> 0 <= x' < elements_per_row ->
  cell_index elements_per_row x y = cell_index elements_per_row x' y' ->
  x = x' /\ y = y'.
Proof.
  unfold cell_index. intros Hx Hx' H.
  assert (y = y') by nia. subst. lia.
Qed.

(** *** The loops as writes *)

Lemma nested_loops_write_cells (fuel : nat) (elements_per_row : Z)
    (e : vec2) (value : Z -> Z -> T)
    (body : Z -> Z -> memory T -> option (memory T)) (dst : memory T) :
  65536 <= Z.of_nat fuel ->
  is_ushort2 e ->
  (forall x y m, inside e x y ->
     body y x m =
     Some (store T m (cell_index elements_per_row x y) (value x y))) ->
  for_ushort fuel 0 (vec_y e) (fun y dst =>
    for_ushort fuel 0 (vec_x e) (body y) dst) dst =
  Some (write_cells T value elements_per_row e dst).
Proof.
  intros Hfuel [Hx Hy] Hbody. unfold is_ushort in Hx, Hy.
  unfold write_cells, upto.
  apply (for_ushort_fold _
           (fun y m => write_row T value elements_per_row (upto (vec_x e)) y m));
    try lia.
  intros y m Hyr. unfold write_row, upto.
  apply (for_ushort_fold _
           (fun x m => store T m (cell_index elements_per_row x y) (value x y)));
    try lia.
  intros x m' Hxr. apply Hbody. split; lia.
Qed.

(** *** The forward copy *)

Lemma forward_body (dst_elements_per_row src_elements_per_row : Z)
    (src_extent : vec2) (src : memory T)
    (clamp_mode : simdgroup_async_copy_clamp_mode) (x y : Z) (m : memory T) :
  is_ushort dst_elements_per_row -> is_uint src_elements_per_row ->
  is_ushort2 src_extent -> is_ushort x -> is_ushort y ->
  (let in_bounds := (x <? vec_x src_extent) && (y <? vec_y src_extent) in
   let dst_index :=
     ulong (ulong (ulong y * ulong dst_elements_per_row) + ulong x) in
   if in_bounds then
     let src_index :=
       ulong (ulong (ulong y * ulong src_elements_per_row) + ulong x) in
     Some (store T m dst_index (src src_index))
   else if clamp_mode_eqb clamp_mode clamp_to_edge
           && (0 <? vec_x src_extent) && (0 <? vec_y src_extent) then
     let sx := Z.min x (ushort (vec_x src_extent - 1)) in
     let sy := Z.min y (ushort (vec_y src_extent - 1)) in
     let src_index :=
       ulong (ulong (ulong sy * ulong src_elements_per_row) + ulong sx) in
     Some (store T m dst_index (src src_index))
   else Some (store T m dst_index T0)) =
  Some (store T m (cell_index dst_elements_per_row x y)
          (forward_cell T T0 src src_elements_per_row src_extent clamp_mode
             x y)).
Proof.
  intros Hd Hs [Hsx Hsy] Hx Hy. cbv zeta. unfold forward_cell.
  rewrite (ulong_index dst_elements_per_row x y)
    by auto using is_ushort_is_uint.
  destruct ((x <? vec_x src_extent) && (y <? vec_y src_extent)).
  - rewrite ulong_index by assumption. reflexivity.
  - destruct clamp_mode; simpl clamp_mode_eqb; simpl andb; [reflexivity|].
    destruct (Z.ltb_spec 0 (vec_x src_extent)) as [Hpx|Hpx];
      [|reflexivity].
    destruct (Z.ltb_spec 0 (vec_y src_extent)) as [Hpy|Hpy];
      [|reflexivity].
    simpl andb. unfold is_ushort in *.
    replace (ushort (vec_x src_extent - 1)) with (vec_x src_extent - 1)
      by (unfold ushort, wrap; symmetry; apply Z.mod_small; lia).
    replace (ushort (vec_y src_extent - 1)) with (vec_y src_extent - 1)
      by (unfold ushort, wrap; symmetry; apply Z.mod_small; lia).
    rewrite ulong_index; [reflexivity|assumption|unfold is_ushort; lia..].
Qed.

(** C4: the forward tiled copy returns, and performs one write per cell
    (x, y) of the destination extent (swapped under transposition), rows
    in order: the source cell (x, y) when it lies within the source
    extent; else, under clamp_to_edge with both source extents positive,
    the source cell at (min(x, srcExtent.x - 1), min(y, srcExtent.y - 1));
    else zero.  Nothing else is written, and when the destination rows do
    not overlap (the extent is no wider than the row stride) every cell of
    the extent ends with that value. *)
Theorem async_copy_to_threadgroup_cells :
  forall (fuel : nat)
         (dst : memory T) (dst_elements_per_row : Z)
         (dst_tile_dimensions : vec2)
         (src : memory T) (src_elements_per_row : Z)
         (src_tile_dimensions : vec2)
         (transpose_matrix : bool)
         (clamp_mode : simdgroup_async_copy_clamp_mode),
    65536 <= Z.of_nat fuel ->
    is_ushort dst_elements_per_row -> is_ushort2 dst_tile_dimensions ->
    is_uint src_elements_per_row -> is_ushort2 src_tile_dimensions ->
    let dst_extent := extent transpose_matrix dst_tile_dimensions in
    let src_extent := extent transpose_matrix src_tile_dimensions in
    let value :=
      forward_cell T T0 src src_elements_per_row src_extent clamp_mode in
    exists dst' : memory T,
      async_copy_to_threadgroup T T0 fuel
        dst dst_elements_per_row dst_tile_dimensions
        src src_elements_per_row src_tile_dimensions
        transpose_matrix clamp_mode = Some dst'
      /\ dst' = write_cells T value dst_elements_per_row dst_extent dst
      /\ (forall i,
            (forall x y, inside dst_extent x y ->
               cell_index dst_elements_per_row x y <> i) ->
            dst' i = dst i)
      /\ (vec_x dst_extent <= dst_elements_per_row ->
          forall x y, inside dst_extent x y ->
            dst' (cell_index dst_elements_per_row x y) = value x y).
Proof.
  intros fuel dst depr ddims src sepr sdims transpose clamp
    Hfuel Hdepr Hddims Hsepr Hsdims dst_extent src_extent value.
  pose proof (extent_is_ushort2 transpose _ Hddims) as Hde.
  pose proof (extent_is_ushort2 transpose _ Hsdims) as Hse.
  fold dst_extent in Hde. fold src_extent in Hse.
  exists (write_cells T value depr dst_extent dst).
  split; [|split; [reflexivity|split]].
  - unfold async_copy_to_threadgroup.
    change (if transpose then yx sdims else sdims) with src_extent.
    change (if transpose then yx ddims else ddims) with dst_extent.
    apply nested_loops_write_cells; try assumption.
    intros x y m [Hx Hy]. destruct Hde as [Hdx Hdy].
    unfold is_ushort in Hdx, Hdy.
    apply forward_body; try assumption; unfold is_ushort; lia.
  - intros i Hmiss. apply write_cells_frame. exact Hmiss.
  - intros Hwidth x y Hin. apply write_cells_inside; assumption.
Qed.

(** *** The reverse copy *)

(** C5: the reverse tiled copy returns, and performs one write per cell
    (x, y) of the overlap, x < min(dstExtent.x, srcExtent.x) and
    y < min(dstExtent.y, srcExtent.y) with both extents swapped under
    transposition, each from the source cell of the same coordinates.
    Every index that is not the index of a cell of the overlap keeps its
    content; when the rows of the overlap fit the destination stride,
    every cell of the overlap ends with its source value and every other
    cell within the stride is untouched. *)
Theorem async_copy_to_device_overlap :
  forall (fuel : nat)
         (dst : memory T) (dst_elements_per_row : Z)
         (dst_tile_dimensions : vec2)
         (src : memory T) (src_elements_per_row : Z)
         (src_tile_dimensions : vec2)
         (transpose_matrix : bool),
    65536 <= Z.of_nat fuel ->
    is_uint dst_elements_per_row -> is_ushort2 dst_tile_dimensions ->
    is_ushort src_elements_per_row -> is_ushort2 src_tile_dimensions ->
    let tile :=
      overlap (extent transpose_matrix dst_tile_dimensions)
              (extent transpose_matrix src_tile_dimensions) in
    let value := reverse_cell T src src_elements_per_row in
    exists dst' : memory T,
      async_copy_to_device T fuel
        dst dst_elements_per_row dst_tile_dimensions
        src src_elements_per_row src_tile_dimensions
        transpose_matrix = Some dst'
      /\ dst' = write_cells T value dst_elements_per_row tile dst
      /\ (forall i,
            (forall x y, inside tile x y ->
               cell_index dst_elements_per_row x y <> i) ->
            dst' i = dst i)
      /\ (vec_x tile <= dst_elements_per_row ->
          (forall x y, inside tile x y ->
             dst' (cell_index dst_elements_per_row x y) = value x y)
          /\ (forall x y, 0 <= x < dst_elements_per_row ->
                ~ inside tile x y ->
                dst' (cell_index dst_elements_per_row x y)
                = dst (cell_index dst_elements_per_row x y))).
Proof.
  intros fuel dst depr ddims src sepr sdims transpose
    Hfuel Hdepr Hddims Hsepr Hsdims tile value.
  pose proof (extent_is_ushort2 transpose _ Hddims) as [Hdx Hdy].
  pose proof (extent_is_ushort2 transpose _ Hsdims) as [Hsx Hsy].
  assert (Htile : is_ushort2 tile).
  { unfold tile, overlap, is_ushort2, is_ushort in *. simpl. lia. }
  exists (write_cells T value depr tile dst).
  split; [|split; [reflexivity|split]].
  - unfold async_copy_to_device.
    change (if transpose then yx sdims else sdims)
      with (extent transpose sdims).
    change (if transpose then yx ddims else ddims)
      with (extent transpose ddims).
    apply (nested_loops_write_cells fuel depr tile value); try assumption.
    intros x y m [Hx Hy]. destruct Htile as [Htx Hty].
    unfold is_ushort in Htx, Hty. unfold value, reverse_cell.
    rewrite !ulong_index;
      auto using is_ushort_is_uint; unfold is_ushort; lia.
  - intros i Hmiss. apply write_cells_frame. exact Hmiss.
  - intros Hwidth. split.
    + intros x y Hin. apply write_cells_inside; assumption.
    + intros x y Hx Hout. apply write_cells_frame.
      intros x' y' Hin' Heq. apply Hout.
      destruct (cell_index_inj depr x' y' x y) as [-> ->];
        [destruct Hin'; lia | exact Hx | exact Heq | exact Hin'].
Qed.

End Copies.

(** The scenario of the specification: destination extent (4, 4), source
    extent (2, 2), clamp to edge.  The destination starts at -1 everywhere
    and source element i holds 100 + i. *)
Lemma async_copy_to_threadgroup_cells_witness :
  exists dst' : memory Z,
    async_copy_to_threadgroup Z 0 (Z.to_nat 65536)
      (fun _ => -1) 4 (vec2_of 4 4)
      (fun i => 100 + i) 2 (vec2_of 2 2) false clamp_to_edge = Some dst'
    /\ dst' (cell_index 4 1 0) = 101
    /\ dst' (cell_index 4 3 3) = 103
    /\ dst' 16 = -1.
Proof.
  assert (H4 : is_ushort 4) by (unfold is_ushort; lia).
  assert (H2 : is_ushort 2) by (unfold is_ushort; lia).
  pose proof (async_copy_to_threadgroup_cells Z 0 (Z.to_nat 65536)
                (fun _ => -1) 4 (vec2_of 4 4)
                (fun i => 100 + i) 2 (vec2_of 2 2) false clamp_to_edge
                ltac:(lia) H4 (conj H4 H4)
                (is_ushort_is_uint 2 H2) (conj H2 H2)) as H.
  cbv zeta in H. destruct H as (dst' & Hrun & _ & Hframe & Hcells).
  exists dst'. split; [exact Hrun|].
  rewrite !Hcells by (unfold inside; simpl; lia).
  split; [reflexivity|]. split; [reflexivity|].
  apply Hframe. unfold inside, cell_index. simpl. lia.
Defined.

(** The scenario of the specification: destination extent (2, 2), source
    extent (4, 4).  Cell (1, 1) is copied, cell (2, 0) is not. *)
Lemma async_copy_to_device_overlap_witness :
  exists dst' : memory Z,
    async_copy_to_device Z (Z.to_nat 65536)
      (fun _ => -1) 4 (vec2_of 2 2)
      (fun i => 100 + i) 4 (vec2_of 4 4) false = Some dst'
    /\ dst' (cell_index 4 1 1) = 105
    /\ dst' (cell_index 4 2 0) = -1.
Proof.
  assert (H4 : is_ushort 4) by (unfold is_ushort; lia).
  assert (H2 : is_ushort 2) by (unfold is_ushort; lia).
  pose proof (async_copy_to_device_overlap Z (Z.to_nat 65536)
                (fun _ => -1) 4 (vec2_of 2 2)
                (fun i => 100 + i) 4 (vec2_of 4 4) false
                ltac:(lia) (is_ushort_is_uint 4 H4) (conj H2 H2)
                H4 (conj H4 H4)) as H.
  cbv zeta in H. destruct H as (dst' & Hrun & _ & _ & Hcells).
  destruct Hcells as [Hin Hout]; [simpl; lia|].
  exists dst'. split; [exact Hrun|]. split.
  - rewrite Hin by (unfold inside; simpl; lia). reflexivity.
  - rewrite Hout; [reflexivity | lia | unfold inside; simpl; lia].
Defined.

(** The three scenarios of the specification, run on the code: the 16
    elements of a 4 x 4 destination after each copy. *)
Example clamp_to_edge_scenario :
  option_map (fun dst' : memory Z => map dst' (upto 16))
    (async_copy_to_threadgroup Z 0 (Z.to_nat 65536)
       (fun _ => -1) 4 (vec2_of 4 4)
       (fun i => 100 + i) 2 (vec2_of 2 2) false clamp_to_edge)
  = Some [100; 101; 101; 101;
          102; 103; 103; 103;
          102; 103; 103; 103;
          102; 103; 103; 103].
Proof. vm_compute. reflexivity. Qed.

Example clamp_to_zero_scenario :
  option_map (fun dst' : memory Z => map dst' (upto 16))
    (async_copy_to_threadgroup Z 0 (Z.to_nat 65536)
       (fun _ => -1) 4 (vec2_of 4 4)
       (fun i => 100 + i) 2 (vec2_of 2 2) false clamp_to_zero)
  = Some [100; 101; 0; 0;
          102; 103; 0; 0;
          0; 0; 0; 0;
          0; 0; 0; 0].
Proof. vm_compute. reflexivity. Qed.

Example reverse_copy_scenario :
  option_map (fun dst' : memory Z => map dst' (upto 16))
    (async_copy_to_device Z (Z.to_nat 65536)
       (fun _ => -1) 4 (vec2_of 2 2)
       (fun i => 100 + i) 4 (vec2_of 4 4) false)
  = Some [100; 101; -1; -1;
          104; 105; -1; -1;
          -1; -1; -1; -1;
          -1; -1; -1; -1].
Proof. vm_compute. reflexivity. Qed.

(** With a destination stride below the width of the tile, rows overlap
    and a later row overwrites the end of the row before it. *)
Example overlapping_rows :
  option_map (fun dst' : memory Z => map dst' (upto 4))
    (async_copy_to_threadgroup Z 0 (Z.to_nat 65536)
       (fun _ => -1) 1 (vec2_of 2 2)
       (fun i => 100 + i) 2 (vec2_of 2 2) false clamp_to_zero)
  = Some [100; 102; 103; -1].
Proof. vm_compute. reflexivity. Qed.

End TileCopy.

(** ** Emitted addresses *)

Module Address.

Import Generator MetalText.
Import Spec.

Local Open Scope string_scope.

(** Wrapping the operands first does not change a wrapped address. *)
Lemma wrap_transposed (bits x k e y : Z) :
  Metal.wrap bits
    (Metal.wrap bits (Metal.wrap bits (Metal.wrap bits (x + k)) * e)
     + Metal.wrap bits y)
  = Metal.wrap bits ((x + k) * e + y).
Proof.
  unfold Metal.wrap.
  rewrite Zmod_mod, Zplus_mod_idemp_r, Zplus_mod_idemp_l.
  rewrite <- Zplus_mod_idemp_l, Zmult_mod_idemp_l, Zplus_mod_idemp_l.
  reflexivity.
Qed.

Lemma wrap_not_transposed (bits x k e y : Z) :
  Metal.wrap bits
    (Metal.wrap bits (Metal.wrap bits y * e)
     + Metal.wrap bits (Metal.wrap bits (x + k)))
  = Metal.wrap bits (y * e + (x + k)).
Proof.
  unfold Metal.wrap.
  rewrite Zmod_mod, Zplus_mod_idemp_r, Zplus_mod_idemp_l.
  rewrite <- Zplus_mod_idemp_l, Zmult_mod_idemp_l, Zplus_mod_idemp_l.
  reflexivity.
Qed.

(** Replaces the parse of a closed text by its result. *)
Ltac parse_text :=
  match goal with
  | |- context [parse ?text] =>
      let tree := eval vm_compute in (parse text) in
      replace (parse text) with tree by (vm_compute; reflexivity)
  end.

Lemma createAddress_eval_any_width (addressSpace : AddressSpace)
    (transposed : bool) (bits k elements_per_row : Z)
    (matrix_origin : Metal.vec2) (transpose_matrix : bool) :
  k = 0 \/ k = 1 ->
  eval_text bits
    (parameters elements_per_row matrix_origin transpose_matrix)
    (createAddress addressSpace transposed k)
  = Some (wrapped_address addressSpace bits transposed elements_per_row
            matrix_origin k).
Proof.
  intros [-> | ->]; unfold eval_text, wrapped_address;
    destruct addressSpace, transposed; parse_text; reflexivity.
Qed.

(** The emitted address of element 0 or 1, evaluated on the parameters of
    the generated function in the arithmetic of the offset type, is the
    address of the specification wrapped to that type. *)
Lemma createAddress_eval (addressSpace : AddressSpace) (transposed : bool)
    (k elements_per_row : Z) (matrix_origin : Metal.vec2)
    (transpose_matrix : bool) :
  k = 0 \/ k = 1 ->
  eval_text (offset_bits addressSpace)
    (parameters elements_per_row matrix_origin transpose_matrix)
    (createAddress addressSpace transposed k)
  = Some (Metal.wrap (offset_bits addressSpace)
            (address transposed elements_per_row matrix_origin k)).
Proof.
  intros Hk. rewrite createAddress_eval_any_width by exact Hk.
  unfold wrapped_address, address. f_equal.
  destruct transposed;
    [apply wrap_transposed | apply wrap_not_transposed].
Qed.

(** In arithmetic at least as wide as the offset type, as the [int] that
    integer promotion gives the threadgroup expression, the emitted
    address is exactly the address of the specification when the operands
    are values of their types and nothing overflows. *)
Lemma createAddress_eval_exact (addressSpace : AddressSpace)
    (transposed : bool) (bits k elements_per_row : Z)
    (matrix_origin : Metal.vec2) (transpose_matrix : bool) :
  k = 0 \/ k = 1 ->
  offset_bits addressSpace <= bits ->
  0 <= Metal.vec_x matrix_origin ->
  Metal.vec_x matrix_origin + k < 2 ^ offset_bits addressSpace ->
  0 <= Metal.vec_y matrix_origin < 2 ^ offset_bits addressSpace ->
  0 <= elements_per_row ->
  address transposed elements_per_row matrix_origin k < 2 ^ bits ->
  eval_text bits
    (parameters elements_per_row matrix_origin transpose_matrix)
    (createAddress addressSpace transposed k)
  = Some (address transposed elements_per_row matrix_origin k).
Proof.
  intros Hk Hbits Hx Hxk Hy He Hfit.
  rewrite createAddress_eval_any_width by exact Hk.
  unfold wrapped_address, address in *. f_equal.
  assert (Hpow : 2 ^ offset_bits addressSpace <= 2 ^ bits)
    by (apply Z.pow_le_mono_r; [lia | exact Hbits]).
  assert (Hk0 : 0 <= k) by lia.
  set (x := Metal.vec_x matrix_origin) in *.
  set (y := Metal.vec_y matrix_origin) in *.
  unfold Metal.wrap.
  rewrite (Z.mod_small (x + k) (2 ^ bits)) by lia.
  rewrite (Z.mod_small (x + k) (2 ^ offset_bits addressSpace)) by lia.
  rewrite (Z.mod_small y (2 ^ offset_bits addressSpace)) by lia.
  destruct transposed.
  - assert (0 <= (x + k) * elements_per_row) by nia.
    rewrite (Z.mod_small ((x + k) * elements_per_row)) by lia.
    apply Z.mod_small. lia.
  - assert (0 <= y * elements_per_row) by nia.
    rewrite (Z.mod_small (y * elements_per_row)) by lia.
    apply Z.mod_small. lia.
Qed.

(** C2: for every address space (no other field of the descriptor enters
    the address), origin, stride and element index k in {0, 1}, the emitted
    address expression reads uint or ushort, as the space demands, around
    the formula of the specification, and evaluated in the arithmetic of the
    offset type it computes (origin.x + k) * stride + origin.y when
    transposed and origin.y * stride + (origin.x + k) when not: wrapped to
    the offset type, and exactly that number whenever it fits the type.  In
    any wider arithmetic it is exactly that number as well, when the
    operands are values of the offset type and nothing overflows. *)
Theorem createAddress_computes_address :
  forall (addressSpace : AddressSpace) (transposed : bool)
         (k elements_per_row : Z) (matrix_origin : Metal.vec2)
         (transpose_matrix : bool),
    k = 0 \/ k = 1 ->
    let bits := offset_bits addressSpace in
    let env := parameters elements_per_row matrix_origin transpose_matrix in
    let a := address transposed elements_per_row matrix_origin k in
    let x := offsetType addressSpace ++ "(matrix_origin.x + " ++ to_string k
             ++ ")" in
    let y := offsetType addressSpace ++ "(matrix_origin.y)" in
    createAddress addressSpace transposed k
      = (if transposed then x ++ " * elements_per_row + " ++ y
         else y ++ " * elements_per_row + " ++ x)
    /\ eval_text bits env (createAddress addressSpace transposed k)
       = Some (a mod 2 ^ bits)
    /\ (0 <= a < 2 ^ bits ->
        eval_text bits env (createAddress addressSpace transposed k) = Some a)
    /\ (forall width : Z,
          bits <= width ->
          0 <= Metal.vec_x matrix_origin ->
          Metal.vec_x matrix_origin + k < 2 ^ bits ->
          0 <= Metal.vec_y matrix_origin < 2 ^ bits ->
          0 <= elements_per_row ->
          a < 2 ^ width ->
          eval_text width env (createAddress addressSpace transposed k)
          = Some a).
Proof.
  intros addressSpace transposed k epr origin tm Hk bits env a x y.
  assert (Heval : eval_text bits env (createAddress addressSpace transposed k)
                  = Some (a mod 2 ^ bits))
    by (apply createAddress_eval; exact Hk).
  split; [|split; [|split]].
  - destruct Hk as [-> | ->]; destruct addressSpace, transposed; reflexivity.
  - exact Heval.
  - intros Hfit. rewrite Heval, Z.mod_small by exact Hfit. reflexivity.
  - intros width Hwidth Hx Hxk Hy He Hfit.
    apply createAddress_eval_exact; assumption.
Qed.

(** Threadgroup space, transposed, element 1, stride 3, origin (2, 5):
    the address is (2 + 1) * 3 + 5 = 14. *)
Lemma createAddress_computes_address_witness :
  createAddress threadgroup true 1
    = "ushort(matrix_origin.x + 1) * elements_per_row + ushort(matrix_origin.y)"
  /\ eval_text 16 (parameters 3 (Metal.vec2_of 2 5) true)
       (createAddress threadgroup true 1) = Some 14.
Proof.
  pose proof (createAddress_computes_address threadgroup true 1 3
                (Metal.vec2_of 2 5) true (or_intror eq_refl)) as H.
  cbv zeta in H. destruct H as (Htext & _ & Hexact & _).
  split; [exact Htext|]. apply Hexact. unfold address. simpl. lia.
Defined.

(** C8: for a stride above 1 that its type can hold and every origin, the
    two emitted addresses of a path, evaluated in the unsigned arithmetic
    of the offset type (modulo 2^32 for device, 2^16 for threadgroup),
    differ: the transposed pair and the non-transposed pair alike. *)
Theorem addresses_distinct :
  forall (addressSpace : AddressSpace) (transposed : bool)
         (elements_per_row : Z) (matrix_origin : Metal.vec2)
         (transpose_matrix : bool),
    1 < elements_per_row < 2 ^ offset_bits addressSpace ->
    let bits := offset_bits addressSpace in
    let env := parameters elements_per_row matrix_origin transpose_matrix in
    exists address0 address1 : Z,
      eval_text bits env (createAddress addressSpace transposed 0)
        = Some address0
      /\ eval_text bits env (createAddress addressSpace transposed 1)
        = Some address1
      /\ address0 = address transposed elements_per_row matrix_origin 0
                      mod 2 ^ bits
      /\ address1 = address transposed elements_per_row matrix_origin 1
                      mod 2 ^ bits
      /\ address0 <> address1.
Proof.
  intros addressSpace transposed epr origin tm Hstride bits env.
  exists (address transposed epr origin 0 mod 2 ^ bits),
         (address transposed epr origin 1 mod 2 ^ bits).
  split; [apply createAddress_eval; left; reflexivity|].
  split; [apply createAddress_eval; right; reflexivity|].
  split; [reflexivity|]. split; [reflexivity|].
  intros Heq.
  assert (Hbits : 2 < 2 ^ bits) by (destruct addressSpace; simpl; lia).
  assert (Hdiff : (address transposed epr origin 1
                   - address transposed epr origin 0) mod 2 ^ bits = 0).
  { rewrite Zminus_mod, Heq, Z.sub_diag. apply Zmod_0_l. }
  assert (Hstep : address transposed epr origin 1
                  - address transposed epr origin 0
                  = if transposed then epr else 1).
  { unfold address. destruct transposed; ring. }
  rewrite Hstep in Hdiff.
  rewrite Z.mod_small in Hdiff by (destruct transposed; fold bits in Hstride; lia).
  destruct transposed; lia.
Qed.

(** Device space, stride 2, origin (7, 3): addresses 17 and 19 when
    transposed. *)
Lemma addresses_distinct_witness :
  exists address0 address1 : Z,
    eval_text 32 (parameters 2 (Metal.vec2_of 7 3) true)
      (createAddress device true 0) = Some address0
    /\ eval_text 32 (parameters 2 (Metal.vec2_of 7 3) true)
      (createAddress device true 1) = Some address1
    /\ address0 = 17 /\ address1 = 19 /\ address0 <> address1.
Proof.
  pose proof (addresses_distinct device true 2 (Metal.vec2_of 7 3) true
                ltac:(simpl; lia)) as H.
  cbv zeta in H. destruct H as (a0 & a1 & H0 & H1 & E0 & E1 & Hne).
  exists a0, a1. repeat split; assumption.
Defined.

End Address.

(** ** Text assembly *)

Module TextAssembly.

Import Generator.
Import Spec.

Local Open Scope string_scope.

Lemma append_assoc (a b c : string) : (a ++ b) ++ c = a ++ (b ++ c).
Proof.
  induction a as [|ch a IH]; simpl; [reflexivity|]. rewrite IH. reflexivity.
Qed.

Lemma append_empty_r (a : string) : a ++ "" = a.
Proof.
  induction a as [|ch a IH]; simpl; [reflexivity|]. rewrite IH. reflexivity.
Qed.

(** The flag of the whitespace check after the loop over the characters. *)
Lemma whitespace_flag (characters : list ascii) : forall flag : bool,
  fold_left (fun allCharactersWhitespace character =>
      if isspace character then allCharactersWhitespace else false)
    characters flag
  = flag && forallb isspace characters.
Proof.
  induction characters as [|c cs IH]; intros flag; simpl.
  - rewrite andb_true_r. reflexivity.
  - rewrite IH. destruct (isspace c), flag; reflexivity.
Qed.

Lemma insertBlockContents_emitted (block : list string) :
  forall body : list string,
    insertBlockContents body block = (body ++ map emitted block)%list.
Proof.
  unfold insertBlockContents.
  induction block as [|line block IH]; intros body; simpl.
  - rewrite app_nil_r. reflexivity.
  - rewrite IH. unfold push_back, emitted, all_whitespace.
    rewrite whitespace_flag. simpl andb.
    destruct (forallb isspace (list_ascii_of_string line));
      rewrite <- app_assoc; reflexivity.
Qed.

Lemma lines_text_cons (indentation line : string) (lines : list string) :
  lines_text indentation (line :: lines)
  = indentation ++ line ++ newline ++ lines_text indentation lines.
Proof. reflexivity. Qed.

(** The loop that writes the body appends one indented line per entry. *)
Lemma body_loop (indentation : string) (lines : list string) :
  forall output : string,
    fold_left (fun output line =>
        output ++ indentation ++ "  " ++ line ++ newline) lines output
    = output ++ lines_text indentation (map (append "  ") lines).
Proof.
  induction lines as [|line lines IH]; intros output.
  - simpl. rewrite append_empty_r. reflexivity.
  - change (fold_left _ (line :: lines) output)
      with (fold_left (fun output line =>
                output ++ indentation ++ "  " ++ line ++ newline) lines
              (output ++ indentation ++ "  " ++ line ++ newline)).
    rewrite IH. change (map (append "  ") (line :: lines))
      with (("  " ++ line) :: map (append "  ") lines).
    rewrite lines_text_cons, !append_assoc. reflexivity.
Qed.

Lemma lines_text_app (indentation : string) (l1 l2 : list string) :
  lines_text indentation (l1 ++ l2)
  = lines_text indentation l1 ++ lines_text indentation l2.
Proof.
  induction l1 as [|line l1 IH]; [reflexivity|].
  change ((line :: l1) ++ l2)%list with (line :: (l1 ++ l2))%list.
  rewrite !lines_text_cons, IH, !append_assoc. reflexivity.
Qed.

(** The text of a function is its lines, each indented and terminated. *)
Lemma createMemoryAccess_text_lines (action : Action)
    (addressSpace : AddressSpace) (decodingBF16 : bool)
    (indentation : string) :
  createMemoryAccess_text action addressSpace decodingBF16 indentation
  = lines_text indentation (function_lines action addressSpace decodingBF16).
Proof.
  unfold createMemoryAccess_text, function_lines.
  rewrite body_loop, !lines_text_app.
  generalize (lines_text indentation
                (map (append "  ") (body action addressSpace decodingBF16))).
  intros middle.
  destruct action, addressSpace, decodingBF16;
    cbv -[append]; rewrite !append_assoc; cbn [append]; reflexivity.
Qed.

Lemma emitted_statement (fragment : string) :
  (exists c, In c (list_ascii_of_string fragment) /\ isspace c = false) ->
  emitted fragment = "  " ++ fragment ++ ";".
Proof.
  intros (c & Hin & Hc). unfold emitted, all_whitespace.
  destruct (forallb isspace (list_ascii_of_string fragment)) eqn:E;
    [|reflexivity].
  rewrite forallb_forall in E. rewrite (E c Hin) in Hc. discriminate.
Qed.

Lemma emitted_blank (fragment : string) :
  (forall c, In c (list_ascii_of_string fragment) -> isspace c = true) ->
  emitted fragment = "  ".
Proof.
  intros H. unfold emitted, all_whitespace.
  rewrite (proj2 (forallb_forall _ _) H). reflexivity.
Qed.

Lemma string_of_spaces_nonneg (count : Z) :
  0 <= count ->
  string_of_spaces count
  = ret (string_of_list_ascii (repeat " "%char (Z.to_nat count))).
Proof.
  intros H. unfold string_of_spaces.
  destruct (Z.ltb_spec count 0); [lia|reflexivity].
Qed.

Lemma createMemoryAccess_descriptor (action : Action)
    (addressSpace : AddressSpace) (decodingBF16 : bool) (count : Z) :
  createMemoryAccess (descriptor action addressSpace decodingBF16 count)
  = bind (string_of_spaces count) (fun indentation =>
      ret (createMemoryAccess_text action addressSpace decodingBF16
             indentation)).
Proof. reflexivity. Qed.

(** A fully populated descriptor with an indent that is not negative
    generates the lines of its function behind that many spaces. *)
Lemma createMemoryAccess_lines (action : Action)
    (addressSpace : AddressSpace) (decodingBF16 : bool) (count : Z) :
  0 <= count ->
  createMemoryAccess (descriptor action addressSpace decodingBF16 count)
  = inr (lines_text
           (string_of_list_ascii (repeat " "%char (Z.to_nat count)))
           (function_lines action addressSpace decodingBF16)).
Proof.
  intros Hcount.
  rewrite createMemoryAccess_descriptor, string_of_spaces_nonneg
    by exact Hcount.
  unfold bind, ret. rewrite createMemoryAccess_text_lines. reflexivity.
Qed.

(** C9: assembling a block appends one line per fragment: a fragment with
    a character that is not whitespace becomes the fragment behind two
    spaces with the terminator appended, a fragment of whitespace only (the
    empty one included) becomes a blank line without terminator.  The body
    is made of the three headers, the closing brace and such blocks, and
    the text of a function is its lines, every one behind the indentation
    of the descriptor and closed by a newline. *)
Theorem block_assembly_contract :
  (forall body block : list string,
     insertBlockContents body block = (body ++ map emitted block)%list)
  /\ (forall fragment : string,
        (exists c, In c (list_ascii_of_string fragment) /\ isspace c = false) ->
        emitted fragment = "  " ++ fragment ++ ";")
  /\ (forall fragment : string,
        (forall c, In c (list_ascii_of_string fragment) -> isspace c = true) ->
        emitted fragment = "  ")
  /\ (forall (action : Action) (addressSpace : AddressSpace)
             (decodingBF16 : bool),
        let two_part := createTwoPartAccess action addressSpace decodingBF16 in
        let one_part := createOnePartAccess action addressSpace decodingBF16 in
        body action addressSpace decodingBF16
        = (["if (transpose_matrix) {"] ++ map emitted (two_part true)
           ++ (if decodingBF16 then
                 ["} else {"]
                 ++ map emitted (match action with
                                 | load => one_part
                                 | store => two_part false
                                 end)
                 ++ ["}"]
               else
                 ["} else if (elements_per_row % 2 != 0) {"]
                 ++ map emitted (two_part false)
                 ++ ["} else {"] ++ map emitted one_part ++ ["}"]))%list)
  /\ (forall (action : Action) (addressSpace : AddressSpace)
             (decodingBF16 : bool) (count : Z),
        0 <= count ->
        createMemoryAccess (descriptor action addressSpace decodingBF16 count)
        = inr (lines_text
                 (string_of_list_ascii (repeat " "%char (Z.to_nat count)))
                 ([first_line decodingBF16;
                   signature action addressSpace decodingBF16]
                  ++ map (append "  ") (body action addressSpace decodingBF16)
                  ++ ["}"]))).
Proof.
  split; [intros body block; apply insertBlockContents_emitted|].
  split; [exact emitted_statement|].
  split; [exact emitted_blank|].
  split.
  - intros action addressSpace decodingBF16 two_part one_part.
    unfold body, push_back.
    rewrite !insertBlockContents_emitted.
    destruct decodingBF16.
    + destruct action; simpl Action_eqb; cbv iota;
        rewrite ?insertBlockContents_emitted, <- ?app_assoc; reflexivity.
    + rewrite ?insertBlockContents_emitted, <- ?app_assoc. reflexivity.
  - intros action addressSpace decodingBF16 count Hcount.
    apply createMemoryAccess_lines. exact Hcount.
Qed.

(** A statement gets its terminator, the empty fragment does not, and the
    device load without codec at indentation 4 is its lines. *)
Lemma block_assembly_contract_witness :
  emitted "registerForm[1] = memoryForm0" = "  registerForm[1] = memoryForm0;"
  /\ emitted "" = "  "
  /\ createMemoryAccess (descriptor load device false 4)
     = inr (lines_text "    " (function_lines load device false)).
Proof.
  destruct block_assembly_contract as (_ & Hstatement & Hblank & _ & Htext).
  split; [|split].
  - apply (Hstatement "registerForm[1] = memoryForm0").
    exists "r"%char. split; [left; reflexivity | reflexivity].
  - apply (Hblank ""). intros c [].
  - apply (Htext load device false 4). lia.
Defined.

End TextAssembly.

(** ** Branch selection *)

Module BranchTable.

Import Generator MetalText.
Import Spec.

Local Open Scope string_scope.

(** The guard on the transpose flag holds exactly when the flag is set. *)
Lemma transpose_guard (bits elements_per_row : Z) (matrix_origin : Metal.vec2)
    (transpose_matrix : bool) :
  eval_text bits (parameters elements_per_row matrix_origin transpose_matrix)
    "transpose_matrix"
  = Some (Z.b2z transpose_matrix).
Proof. reflexivity. Qed.

(** The guard on the stride holds exactly when the stride is odd. *)
Lemma parity_guard (bits elements_per_row : Z) (matrix_origin : Metal.vec2)
    (transpose_matrix : bool) :
  eval_text bits (parameters elements_per_row matrix_origin transpose_matrix)
    "elements_per_row % 2 != 0"
  = Some (Z.b2z (Z.odd elements_per_row)).
Proof.
  unfold eval_text. Address.parse_text.
  cbn [eval parameters String.eqb Ascii.eqb Bool.eqb Z.eqb].
  rewrite Zquot.Zrem_odd.
  destruct (Z.odd elements_per_row) eqn:Hodd; [|reflexivity].
  destruct elements_per_row; [discriminate Hodd | reflexivity ..].
Qed.



(** The two scenarios of the specification.  Load from device memory with
    the codec off, not transposed, stride 4: one packed access and no
    scalar access. *)
Example load_device_even_stride :
  option_map (fun b => (packed_accesses b, scalar_accesses b))
    (executed_block 32 (parameters 4 (Metal.vec2_of 0 0) false)
       (body load device false))
  = Some (1%nat, 0%nat).
Proof. vm_compute. reflexivity. Qed.

(** Store to threadgroup memory under the codec: two scalar accesses
    whatever the stride and the transpose flag. *)
Example store_threadgroup_codec :
  map (fun '(stride, transpose_matrix) =>
         option_map scalar_accesses
           (executed_block 16
              (parameters stride (Metal.vec2_of 0 0) transpose_matrix)
              (body store threadgroup true)))
    [(4, false); (5, false); (4, true); (5, true)]
  = [Some 2%nat; Some 2%nat; Some 2%nat; Some 2%nat].
Proof. vm_compute. reflexivity. Qed.

End BranchTable.

(** ** The completeness check *)

Module Completeness.

Import Generator.
Import Spec.

(** What [createMemoryAccess] returns, by the state of the descriptor. *)
Lemma createMemoryAccess_cases (d : MemoryAccessDescriptor) :
  match action d, addressSpace d, decodingBF16 d with
  | Some a, Some s, Some c =>
      createMemoryAccess d =
      if indentationSpaceCount d <? 0 then raise length_error
      else ret (createMemoryAccess_text a s c
                  (string_of_list_ascii
                     (repeat " "%char (Z.to_nat (indentationSpaceCount d)))))
  | _, _, _ => createMemoryAccess d = raise InvalidDescriptor
  end.
Proof.
  unfold createMemoryAccess, string_of_spaces.
  destruct (action d) as [a|], (addressSpace d) as [s|],
    (decodingBF16 d) as [c|]; try reflexivity.
  simpl. destruct (indentationSpaceCount d <? 0); reflexivity.
Qed.

(** Assignments fill the optional field they name and no other. *)
Lemma populate_fields (assignments : list assignment) :
  forall d : MemoryAccessDescriptor,
    let d' := fold_left assign assignments d in
    (action d' = None <-> action d = None /\ unset 0 assignments = true)
    /\ (addressSpace d' = None <->
        addressSpace d = None /\ unset 1 assignments = true)
    /\ (decodingBF16 d' = None <->
        decodingBF16 d = None /\ unset 2 assignments = true).
Proof.
  unfold unset.
  induction assignments as [|a assignments IH]; intros d; simpl.
  - tauto.
  - specialize (IH (assign d a)). simpl in IH.
    destruct IH as (IHa & IHs & IHc). rewrite IHa, IHs, IHc.
    destruct a; simpl; intuition congruence.
Qed.

(** C6, as stated, fails for the indent: a descriptor to whose indent
    nothing was assigned generates, with the default indent 0. *)
Lemma unset_indent_generates :
  unset 3 [assign_action load; assign_addressSpace device;
           assign_decodingBF16 false] = true
  /\ createMemoryAccess
       (populate [assign_action load; assign_addressSpace device;
                  assign_decodingBF16 false])
     = inr (lines_text ""%string (function_lines load device false))
  /\ ~ any_unset_field_raises.
Proof.
  split; [reflexivity|]. split; [vm_compute; reflexivity|].
  intros H.
  specialize (H [assign_action load; assign_addressSpace device;
                 assign_decodingBF16 false] 3%nat ltac:(lia) eq_refl).
  vm_compute in H. discriminate H.
Qed.

(** C6, amended: a generation call raises InvalidDescriptor, and returns
    no text, exactly when one of the three optional fields (operation,
    memory space, codec flag) is empty, which for a descriptor populated by
    assignments means that one of the three was never assigned.  The indent
    is an integer that defaults to 0 and is not checked.  A descriptor with
    the three fields set and an indent that is not negative generates its
    text. *)
Theorem createMemoryAccess_checks_optional_fields :
  (forall d : MemoryAccessDescriptor,
     has_empty_field d <-> createMemoryAccess d = raise InvalidDescriptor)
  /\ (forall assignments : list assignment,
        unset 0 assignments = true \/ unset 1 assignments = true
        \/ unset 2 assignments = true
        <-> createMemoryAccess (populate assignments)
            = raise InvalidDescriptor)
  /\ (forall (action : Action) (addressSpace : AddressSpace)
             (decodingBF16 : bool) (indentationSpaceCount : Z),
        0 <= indentationSpaceCount ->
        exists text : string,
          createMemoryAccess
            (descriptor action addressSpace decodingBF16
               indentationSpaceCount) = inr text).
Proof.
  assert (Hcheck : forall d : MemoryAccessDescriptor,
            has_empty_field d <-> createMemoryAccess d = raise InvalidDescriptor).
  { intros d. pose proof (createMemoryAccess_cases d) as H.
    unfold has_empty_field.
    destruct (action d) as [a|], (addressSpace d) as [s|],
      (decodingBF16 d) as [c|]; try (split; [intros _; exact H | tauto]).
    rewrite H. split.
    - intros [E | [E | E]]; discriminate E.
    - destruct (indentationSpaceCount d <? 0); discriminate. }
  split; [exact Hcheck|]. split.
  - intros assignments. rewrite <- Hcheck. unfold has_empty_field, populate.
    destruct (populate_fields assignments MemoryAccessDescriptor_default)
      as (Ha & Hs & Hc).
    rewrite Ha, Hs, Hc. simpl. tauto.
  - intros action addressSpace decodingBF16 count Hcount.
    pose proof (createMemoryAccess_cases
                  (descriptor action addressSpace decodingBF16 count)) as H.
    simpl in H. rewrite H.
    destruct (Z.ltb_spec count 0); [lia|]. eexists. reflexivity.
Qed.

(** A descriptor with no memory space raises; the threadgroup store under
    the codec at indent 4 generates. *)
Lemma createMemoryAccess_checks_optional_fields_witness :
  createMemoryAccess (populate [assign_action store; assign_decodingBF16 true])
    = raise InvalidDescriptor
  /\ exists text : string,
       createMemoryAccess (descriptor store threadgroup true 4) = inr text.
Proof.
  destruct createMemoryAccess_checks_optional_fields as (_ & Hunset & Htext).
  split.
  - apply (proj1 (Hunset [assign_action store; assign_decodingBF16 true])).
    right. left. reflexivity.
  - apply (Htext store threadgroup true 4). lia.
Defined.

(** A negative indent is the one other failure, and it is not
    InvalidDescriptor. *)
Lemma negative_indent_length_error (action : Action)
    (addressSpace : AddressSpace) (decodingBF16 : bool) (count : Z) :
  count < 0 ->
  createMemoryAccess (descriptor action addressSpace decodingBF16 count)
  = raise length_error.
Proof.
  intros H.
  pose proof (createMemoryAccess_cases
                (descriptor action addressSpace decodingBF16 count)) as E.
  simpl in E. rewrite E. destruct (Z.ltb_spec count 0); [reflexivity|lia].
Qed.

End Completeness.

(** ** Determinism *)

Module Determinism.

Import Generator.
Import Spec.

(** A call that returns a value leaves a store. *)
Lemma returned_value (A : Type) (r : result (A * Stateful.variables))
    (a : A) :
  Stateful.returned r = inr a ->
  exists st' : Stateful.variables, r = inr (a, st').
Proof.
  destruct r as [e | [a' st']]; simpl; intros H; [discriminate H|].
  injection H as ->. exists st'. reflexivity.
Qed.

(** Run from the declaration of [arguments] on, in any store, the
    statements of [createMemoryAccess] return the text of the function:
    every variable they read was set by a statement before. *)
Lemma createMemoryAccess_statements_text (action : Action)
    (addressSpace : AddressSpace) (decodingBF16 : bool)
    (indentation : string) (st : Stateful.variables) :
  Stateful.returned
    (Stateful.createMemoryAccess_statements action addressSpace decodingBF16
       indentation st)
  = inr (createMemoryAccess_text action addressSpace decodingBF16
           indentation).
Proof.
  destruct action, addressSpace, decodingBF16; vm_compute; reflexivity.
Qed.

(** The imperative reading returns, in any store and for any descriptor,
    what the functional reading returns. *)
Lemma createMemoryAccess_any_store (d : MemoryAccessDescriptor)
    (st : Stateful.variables) :
  Stateful.returned (Stateful.createMemoryAccess d st) = createMemoryAccess d.
Proof.
  destruct d as [[a|] [s|] [c|] n]; try reflexivity.
  unfold Stateful.createMemoryAccess, createMemoryAccess. simpl.
  unfold string_of_spaces.
  destruct (n <? 0); [reflexivity|].
  apply createMemoryAccess_statements_text.
Qed.

(** A fully populated descriptor generates. *)
Lemma createMemoryAccess_populated (a : Action) (s : AddressSpace) (c : bool)
    (n : Z) :
  0 <= n ->
  createMemoryAccess (descriptor a s c n)
  = inr (generated (descriptor a s c n)).
Proof.
  intros Hn. unfold generated.
  pose proof (Completeness.createMemoryAccess_cases (descriptor a s c n))
    as H.
  simpl in H. rewrite H. destruct (Z.ltb_spec n 0); [lia|reflexivity].
Qed.

(** The loop of the header, which assigns to one descriptor and passes it
    on eight times, yields for each variant the text of a call on a fresh
    descriptor. *)
Lemma header_from_fresh_calls :
  createMetalSimdgroupMatrixStorage = inr matrix_storage_from_fresh_calls.
Proof. vm_compute. reflexivity. Qed.

Lemma createMetalSimdgroupMatrixStorage_any_store (st : Stateful.variables) :
  Stateful.returned (Stateful.createMetalSimdgroupMatrixStorage st)
  = createMetalSimdgroupMatrixStorage.
Proof. vm_compute. reflexivity. Qed.

(** C7: generation is deterministic.  The generator is read here with its
    variables in a store that outlives every call, so that state carried
    from one call to the next would show.  For a fully populated descriptor
    (with an indent that is not negative) there is one text that a call
    returns in whatever store it starts, whatever calls came before; so two
    calls with the descriptor, with any calls between them, return the same
    text.  For any descriptor at all the result, text or failure, is the
    same in every store.  The header functions take no input: in whatever
    store it starts, the matrix storage header returns one fixed text, in
    which each of the eight functions is what a call on a fresh descriptor
    returns, although the header assigns to one descriptor and lets one
    call run in the store the call before left; the event header returns
    its literal and leaves the store as it was. *)
Theorem generation_is_deterministic :
  (forall (a : Action) (s : AddressSpace) (c : bool) (n : Z),
     0 <= n ->
     exists text : string,
       (forall st : Stateful.variables,
          exists st' : Stateful.variables,
            Stateful.createMemoryAccess (descriptor a s c n) st
            = inr (text, st'))
       /\ (forall (st : Stateful.variables)
                  (between : list MemoryAccessDescriptor),
             exists st1 st2 : Stateful.variables,
               Stateful.createMemoryAccess (descriptor a s c n) st
               = inr (text, st1)
               /\ Stateful.createMemoryAccess (descriptor a s c n)
                    (Stateful.calls between st1)
                  = inr (text, st2)))
  /\ (forall (d : MemoryAccessDescriptor) (st1 st2 : Stateful.variables),
        Stateful.returned (Stateful.createMemoryAccess d st1)
        = Stateful.returned (Stateful.createMemoryAccess d st2))
  /\ (forall st : Stateful.variables,
        exists st1 st2 : Stateful.variables,
          Stateful.createMetalSimdgroupMatrixStorage st
          = inr (matrix_storage_from_fresh_calls, st1)
          /\ Stateful.createMetalSimdgroupMatrixStorage st1
             = inr (matrix_storage_from_fresh_calls, st2))
  /\ (forall st : Stateful.variables,
        Stateful.createMetalSimdgroupEvent st
        = inr (HeaderText.metal_simdgroup_event, st)).
Proof.
  assert (Hcall : forall a s c n st,
            0 <= n ->
            exists st' : Stateful.variables,
              Stateful.createMemoryAccess (descriptor a s c n) st
              = inr (generated (descriptor a s c n), st')).
  { intros a s c n st Hn. apply returned_value.
    rewrite createMemoryAccess_any_store.
    apply createMemoryAccess_populated. exact Hn. }
  assert (Hheader : forall st,
            exists st' : Stateful.variables,
              Stateful.createMetalSimdgroupMatrixStorage st
              = inr (matrix_storage_from_fresh_calls, st')).
  { intros st. apply returned_value.
    rewrite createMetalSimdgroupMatrixStorage_any_store.
    exact header_from_fresh_calls. }
  split; [|split; [|split]].
  - intros a s c n Hn. exists (generated (descriptor a s c n)). split.
    + intros st. apply Hcall. exact Hn.
    + intros st between.
      destruct (Hcall a s c n st Hn) as [st1 H1].
      destruct (Hcall a s c n (Stateful.calls between st1) Hn) as [st2 H2].
      exists st1, st2. split; assumption.
  - intros d st1 st2. rewrite !createMemoryAccess_any_store. reflexivity.
  - intros st. destruct (Hheader st) as [st1 H1].
    destruct (Hheader st1) as [st2 H2].
    exists st1, st2. split; assumption.
  - intros st. reflexivity.
Qed.

(** The threadgroup load under the codec at indent 2, called in a store
    whose every cell holds something, then called again after a device
    store and a failing call: the same text both times. *)
Lemma generation_is_deterministic_witness :
  exists (text : string) (st1 st2 : Stateful.variables),
    Stateful.createMemoryAccess (descriptor load threadgroup true 2)
      Stateful.leftover
    = inr (text, st1)
    /\ Stateful.createMemoryAccess (descriptor load threadgroup true 2)
         (Stateful.calls
            [descriptor store device false 7; MemoryAccessDescriptor_default]
            st1)
       = inr (text, st2).
Proof.
  destruct generation_is_deterministic as (Hcall & _).
  destruct (Hcall load threadgroup true 2 ltac:(lia)) as (text & _ & Htwo).
  destruct (Htwo Stateful.leftover
              [descriptor store device false 7; MemoryAccessDescriptor_default])
    as (st1 & st2 & H1 & H2).
  exists text, st1, st2. split; assumption.
Defined.

End Determinism.

(** ** The elementwise copies *)

Module Elementwise.

Import Metal Spec.

Lemma for_ulong_fold {St : Type} (body : Z -> St -> option St)
    (pure : Z -> St -> St) (bound : Z) :
  bound < 2 ^ 64 ->
  forall (count : nat) (first : Z) (fuel : nat) (s : St),
    0 <= first ->
    first + Z.of_nat count = bound ->
    (count < fuel)%nat ->
    (forall k s', first <= k < bound -> body k s' = Some (pure k s')) ->
    for_ulong fuel first bound body s =
    Some (fold_left (fun s' k => pure k s') (zrange first count) s).
Proof.
  intros Hbound. induction count as [|count IH];
    intros first fuel s Hfirst Hcount Hfuel Hbody;
    (destruct fuel as [|fuel]; [lia|]); simpl.
  - replace (first <? bound) with false by (symmetry; apply Z.ltb_ge; lia).
    reflexivity.
  - replace (first <? bound) with true by (symmetry; apply Z.ltb_lt; lia).
    rewrite Hbody by lia.
    replace (ulong (first + 1)) with (first + 1).
    + apply IH; try lia. intros k s' Hk. apply Hbody. lia.
    + unfold ulong, wrap. symmetry. apply Z.mod_small. lia.
Qed.

Section Elements.

Variable T : Type.

Lemma copy_range (src : memory T) (count : nat) :
  forall (first : Z) (m : memory T) (i : Z),
    fold_left (fun m k => store T m k (src k)) (zrange first count) m i
    = if (first <=? i) && (i <? first + Z.of_nat count) then src i else m i.
Proof.
  induction count as [|count IH]; intros first m i; simpl zrange; simpl fold_left.
  - replace ((first <=? i) && (i <? first + Z.of_nat 0)) with false;
      [reflexivity|].
    symmetry. apply andb_false_iff.
    destruct (Z.leb_spec first i); [right; apply Z.ltb_ge; lia | left; reflexivity].
  - rewrite IH. unfold store.
    destruct (Z.leb_spec (first + 1) i), (Z.ltb_spec i (first + 1 + Z.of_nat count)),
      (Z.leb_spec first i), (Z.ltb_spec i (first + Z.of_nat (S count)));
      simpl; try lia; try reflexivity;
      destruct (Z.eqb_spec i first); try lia; subst; reflexivity.
Qed.

(** The elementwise copy as a function of the index. *)
Lemma async_copy_elements_result (fuel : nat) (dst src : memory T)
    (n_elements : Z) :
  0 <= n_elements < 2 ^ 64 ->
  n_elements < Z.of_nat fuel ->
  exists dst' : memory T,
    async_copy_elements T fuel dst src n_elements = Some dst'
    /\ forall i,
         dst' i = if (0 <=? i) && (i <? n_elements) then src i else dst i.
Proof.
  intros Hn Hfuel.
  exists (fold_left (fun m k => store T m k (src k))
            (zrange 0 (Z.to_nat n_elements)) dst).
  split.
  - unfold async_copy_elements.
    apply (for_ulong_fold _ (fun k m => store T m k (src k))); try lia.
    intros; reflexivity.
  - intros i. rewrite copy_range. rewrite Z2Nat.id by lia. reflexivity.
Qed.

(** X1: an elementwise copy of n elements returns, given fuel for n
    iterations; afterwards element i of the destination is element i of
    the source for every i below n, and every other element of the
    destination is what it was. *)
Theorem async_copy_elements_prefix :
  forall (fuel : nat) (dst src : memory T) (n_elements : Z),
    0 <= n_elements < 2 ^ 64 ->
    n_elements < Z.of_nat fuel ->
    exists dst' : memory T,
      async_copy_elements T fuel dst src n_elements = Some dst'
      /\ (forall i, 0 <= i < n_elements -> dst' i = src i)
      /\ (forall i, ~ 0 <= i < n_elements -> dst' i = dst i).
Proof.
  intros fuel dst src n Hn Hfuel.
  destruct (async_copy_elements_result fuel dst src n Hn Hfuel)
    as (dst' & Hrun & Hcells).
  exists dst'. split; [exact Hrun|]. split; intros i Hi; rewrite Hcells.
  - destruct (Z.leb_spec 0 i), (Z.ltb_spec i n); simpl; try lia. reflexivity.
  - destruct (Z.leb_spec 0 i), (Z.ltb_spec i n); simpl; try lia; reflexivity.
Qed.

End Elements.

(** Three elements out of five. *)
Lemma async_copy_elements_prefix_witness :
  exists dst' : memory Z,
    async_copy_elements Z 4 (fun _ => -1) (fun i => 100 + i) 3 = Some dst'
    /\ map dst' [0; 1; 2; 3; 4] = [100; 101; 102; -1; -1].
Proof.
  destruct (async_copy_elements_prefix Z 4 (fun _ => -1) (fun i => 100 + i) 3)
    as (dst' & Hrun & Hcells); [lia | lia |].
  destruct Hcells as [Hin Hout].
  exists dst'. split; [exact Hrun|].
  simpl map. rewrite !Hin by lia. rewrite !Hout by lia. reflexivity.
Defined.

End Elementwise.

(** ** More on the tiled copies *)

Module TileCopyLaws.

Import Metal Spec.

Section Laws.

Variable T : Type.
Variable T0 : T.

(** The forward copy as writes. *)
Lemma forward_is_write_cells (fuel : nat)
    (dst : memory T) (dst_elements_per_row : Z) (dst_tile_dimensions : vec2)
    (src : memory T) (src_elements_per_row : Z) (src_tile_dimensions : vec2)
    (transpose_matrix : bool) (clamp_mode : simdgroup_async_copy_clamp_mode) :
  65536 <= Z.of_nat fuel ->
  is_ushort dst_elements_per_row -> is_ushort2 dst_tile_dimensions ->
  is_uint src_elements_per_row -> is_ushort2 src_tile_dimensions ->
  async_copy_to_threadgroup T T0 fuel
    dst dst_elements_per_row dst_tile_dimensions
    src src_elements_per_row src_tile_dimensions
    transpose_matrix clamp_mode
  = Some (write_cells T
            (forward_cell T T0 src src_elements_per_row
               (extent transpose_matrix src_tile_dimensions) clamp_mode)
            dst_elements_per_row
            (extent transpose_matrix dst_tile_dimensions) dst).
Proof.
  intros Hfuel Hdepr Hddims Hsepr Hsdims.
  pose proof (TileCopy.extent_is_ushort2 transpose_matrix _ Hddims) as Hde.
  pose proof (TileCopy.extent_is_ushort2 transpose_matrix _ Hsdims) as Hse.
  unfold async_copy_to_threadgroup.
  change (if transpose_matrix then yx src_tile_dimensions
          else src_tile_dimensions)
    with (extent transpose_matrix src_tile_dimensions).
  change (if transpose_matrix then yx dst_tile_dimensions
          else dst_tile_dimensions)
    with (extent transpose_matrix dst_tile_dimensions).
  apply TileCopy.nested_loops_write_cells; try assumption.
  intros x y m [Hx Hy]. destruct Hde as [Hdx Hdy].
  unfold is_ushort in Hdx, Hdy.
  apply TileCopy.forward_body; try assumption; unfold is_ushort; lia.
Qed.

(** The reverse copy as writes. *)
Lemma reverse_is_write_cells (fuel : nat)
    (dst : memory T) (dst_elements_per_row : Z) (dst_tile_dimensions : vec2)
    (src : memory T) (src_elements_per_row : Z) (src_tile_dimensions : vec2)
    (transpose_matrix : bool) :
  65536 <= Z.of_nat fuel ->
  is_uint dst_elements_per_row -> is_ushort2 dst_tile_dimensions ->
  is_ushort src_elements_per_row -> is_ushort2 src_tile_dimensions ->
  async_copy_to_device T fuel
    dst dst_elements_per_row dst_tile_dimensions
    src src_elements_per_row src_tile_dimensions transpose_matrix
  = Some (write_cells T (reverse_cell T src src_elements_per_row)
            dst_elements_per_row
            (overlap (extent transpose_matrix dst_tile_dimensions)
                     (extent transpose_matrix src_tile_dimensions)) dst).
Proof.
  intros Hfuel Hdepr Hddims Hsepr Hsdims.
  pose proof (TileCopy.extent_is_ushort2 transpose_matrix _ Hddims) as [Hdx Hdy].
  pose proof (TileCopy.extent_is_ushort2 transpose_matrix _ Hsdims) as [Hsx Hsy].
  set (tile := overlap (extent transpose_matrix dst_tile_dimensions)
                       (extent transpose_matrix src_tile_dimensions)).
  assert (Htile : is_ushort2 tile).
  { unfold tile, overlap, is_ushort2, is_ushort in *. simpl. lia. }
  unfold async_copy_to_device.
  change (if transpose_matrix then yx src_tile_dimensions
          else src_tile_dimensions)
    with (extent transpose_matrix src_tile_dimensions).
  change (if transpose_matrix then yx dst_tile_dimensions
          else dst_tile_dimensions)
    with (extent transpose_matrix dst_tile_dimensions).
  apply (TileCopy.nested_loops_write_cells T fuel dst_elements_per_row tile
           (reverse_cell T src src_elements_per_row)); try assumption.
  intros x y m [Hx Hy]. destruct Htile as [Htx Hty].
  unfold is_ushort in Htx, Hty. unfold reverse_cell.
  rewrite !TileCopy.ulong_index;
    auto using TileCopy.is_ushort_is_uint; unfold is_ushort; lia.
Qed.

(** Writes of values that agree on the cells, into memories that agree
    everywhere, give memories that agree everywhere. *)
Lemma write_row_ext (v1 v2 : Z -> Z -> T) (elements_per_row y : Z)
    (xs : list Z) : forall m1 m2 : memory T,
  (forall x, In x xs -> v1 x y = v2 x y) ->
  (forall i, m1 i = m2 i) ->
  forall i, write_row T v1 elements_per_row xs y m1 i
            = write_row T v2 elements_per_row xs y m2 i.
Proof.
  unfold write_row. induction xs as [|x xs IH]; intros m1 m2 Hv Hm i; simpl.
  - apply Hm.
  - apply IH.
    + intros x' Hx'. apply Hv. right. exact Hx'.
    + intros j. unfold store. rewrite (Hv x) by (left; reflexivity).
      rewrite Hm. reflexivity.
Qed.

Lemma write_cells_ext (v1 v2 : Z -> Z -> T) (elements_per_row : Z)
    (e : vec2) (m1 m2 : memory T) :
  (forall x y, inside e x y -> v1 x y = v2 x y) ->
  (forall i, m1 i = m2 i) ->
  forall i, write_cells T v1 elements_per_row e m1 i
            = write_cells T v2 elements_per_row e m2 i.
Proof.
  intros Hv. unfold write_cells.
  assert (Hys : forall y, In y (upto (vec_y e)) -> 0 <= y < vec_y e)
    by (intros y Hy; apply Ranges.in_upto; exact Hy).
  revert m1 m2 Hys. generalize (upto (vec_y e)) as ys.
  induction ys as [|y ys IH]; intros m1 m2 Hys Hm i; simpl.
  - apply Hm.
  - apply IH.
    + intros y' Hy'. apply Hys. right. exact Hy'.
    + apply write_row_ext; [|exact Hm].
      intros x Hx. apply Hv. split.
      * apply Ranges.in_upto. exact Hx.
      * apply Hys. left. reflexivity.
Qed.

(** Writing to each cell the value it holds changes nothing. *)
Lemma write_cells_same (value : Z -> Z -> T) (elements_per_row : Z)
    (e : vec2) (m : memory T) :
  (forall x y, inside e x y ->
     value x y = m (cell_index elements_per_row x y)) ->
  forall i, write_cells T value elements_per_row e m i = m i.
Proof.
  intros Hv i.
  rewrite (write_cells_ext value
             (fun x y => m (cell_index elements_per_row x y))
             elements_per_row e m m Hv (fun j => eq_refl)).
  unfold write_cells.
  assert (Hrow : forall xs y (m' : memory T),
            (forall j, m' j = m j) ->
            forall j, write_row T
                        (fun x y => m (cell_index elements_per_row x y))
                        elements_per_row xs y m' j = m j).
  { unfold write_row. induction xs as [|x xs IH]; intros y m' Hm' j; simpl.
    - apply Hm'.
    - apply IH. intros j'. unfold store.
      destruct (Z.eqb_spec j' (cell_index elements_per_row x y)) as [->|];
        [reflexivity | apply Hm']. }
  assert (Hrows : forall ys (m' : memory T),
            (forall j, m' j = m j) ->
            forall j, fold_left (fun m0 y =>
                        write_row T
                          (fun x y => m (cell_index elements_per_row x y))
                          elements_per_row (upto (vec_x e)) y m0) ys m' j
                      = m j).
  { induction ys as [|y ys IH]; intros m' Hm' j; simpl.
    - apply Hm'.
    - apply IH. intros j'. apply Hrow. exact Hm'. }
  apply Hrows. reflexivity.
Qed.

(** In bounds, the forward value is the source cell. *)
Lemma forward_cell_inside (src : memory T) (src_elements_per_row : Z)
    (src_extent : vec2) (clamp_mode : simdgroup_async_copy_clamp_mode)
    (x y : Z) :
  inside src_extent x y ->
  forward_cell T T0 src src_elements_per_row src_extent clamp_mode x y
  = src (cell_index src_elements_per_row x y).
Proof.
  intros [Hx Hy]. unfold forward_cell.
  destruct (Z.ltb_spec x (vec_x src_extent)); [|lia].
  destruct (Z.ltb_spec y (vec_y src_extent)); [|lia].
  reflexivity.
Qed.

(** The forward value reads the source at a cell of its extent only. *)
Lemma forward_cell_ext (src1 src2 : memory T) (src_elements_per_row : Z)
    (src_extent : vec2) (clamp_mode : simdgroup_async_copy_clamp_mode)
    (x y : Z) :
  0 <= x -> 0 <= y ->
  (forall x' y', inside src_extent x' y' ->
     src1 (cell_index src_elements_per_row x' y')
     = src2 (cell_index src_elements_per_row x' y')) ->
  forward_cell T T0 src1 src_elements_per_row src_extent clamp_mode x y
  = forward_cell T T0 src2 src_elements_per_row src_extent clamp_mode x y.
Proof.
  intros Hx Hy Hsrc. unfold forward_cell.
  destruct (Z.ltb_spec x (vec_x src_extent)),
    (Z.ltb_spec y (vec_y src_extent)); simpl;
    try (apply Hsrc; unfold inside; lia);
    (destruct clamp_mode; [reflexivity|]);
    destruct (Z.ltb_spec 0 (vec_x src_extent)),
      (Z.ltb_spec 0 (vec_y src_extent)); simpl; try reflexivity;
    apply Hsrc; unfold inside; lia.
Qed.

(** X2: a forward tiled copy whose two row strides equal the width of
    the tile, with the source as large as the destination, is the
    elementwise copy of width * height elements. *)
Theorem contiguous_tile_copy_is_elementwise :
  forall (fuel : nat) (dst src : memory T) (tile_dimensions : vec2)
         (transpose_matrix : bool)
         (clamp_mode : simdgroup_async_copy_clamp_mode),
    let width := vec_x (extent transpose_matrix tile_dimensions) in
    let height := vec_y (extent transpose_matrix tile_dimensions) in
    65536 <= Z.of_nat fuel -> width * height < Z.of_nat fuel ->
    is_ushort2 tile_dimensions ->
    exists tiled flat : memory T,
      async_copy_to_threadgroup T T0 fuel
        dst width tile_dimensions src width tile_dimensions
        transpose_matrix clamp_mode = Some tiled
      /\ async_copy_elements T fuel dst src (width * height) = Some flat
      /\ forall i, tiled i = flat i.
Proof.
  intros fuel dst src dims t clamp width height Hfuel Hfuel' Hdims.
  pose proof (TileCopy.extent_is_ushort2 t _ Hdims) as [Hw Hh].
  fold width in Hw. fold height in Hh. unfold is_ushort in Hw, Hh.
  assert (Hn : 0 <= width * height < 2 ^ 64) by nia.
  destruct (Elementwise.async_copy_elements_result T fuel dst src
              (width * height) Hn Hfuel') as (flat & Hflat & Hcells).
  eexists. exists flat. split.
  - apply forward_is_write_cells; try assumption;
      unfold is_ushort, is_uint; lia.
  - split; [exact Hflat|]. intros i. rewrite Hcells.
    destruct (Z.leb_spec 0 i) as [Hlo|Hlo];
      [destruct (Z.ltb_spec i (width * height)) as [Hhi|Hhi]|]; simpl.
    + assert (Hpos : 0 < width) by nia.
      pose proof (Z.div_mod i width ltac:(lia)) as Hdm.
      pose proof (Z.mod_pos_bound i width Hpos) as Hmod.
      assert (Hdiv : 0 <= i / width < height).
      { split; [apply Z.div_pos; lia|].
        apply Z.div_lt_upper_bound; [lia|]. lia. }
      replace i with (cell_index width (i mod width) (i / width)) at 1
        by (unfold cell_index; lia).
      rewrite TileCopy.write_cells_inside.
      * rewrite forward_cell_inside by (unfold inside; fold width height; lia).
        f_equal. unfold cell_index. lia.
      * fold width. lia.
      * unfold inside. fold width height. lia.
    + apply TileCopy.write_cells_frame. intros x y [Hx Hy].
      fold width in Hx. fold height in Hy. unfold cell_index. nia.
    + apply TileCopy.write_cells_frame. intros x y [Hx Hy].
      fold width in Hx. fold height in Hy. unfold cell_index. nia.
Qed.

(** X3: the forward copy reads the source inside the source extent only:
    two sources that agree on the cells of that extent give the same
    destination, whatever they hold elsewhere and whatever the clamp
    mode. *)
Theorem forward_copy_reads_inside_source_extent :
  forall (fuel : nat)
         (dst : memory T) (dst_elements_per_row : Z)
         (dst_tile_dimensions : vec2)
         (src1 src2 : memory T) (src_elements_per_row : Z)
         (src_tile_dimensions : vec2)
         (transpose_matrix : bool)
         (clamp_mode : simdgroup_async_copy_clamp_mode),
    65536 <= Z.of_nat fuel ->
    is_ushort dst_elements_per_row -> is_ushort2 dst_tile_dimensions ->
    is_uint src_elements_per_row -> is_ushort2 src_tile_dimensions ->
    (forall x y,
       inside (extent transpose_matrix src_tile_dimensions) x y ->
       src1 (cell_index src_elements_per_row x y)
       = src2 (cell_index src_elements_per_row x y)) ->
    exists dst1 dst2 : memory T,
      async_copy_to_threadgroup T T0 fuel
        dst dst_elements_per_row dst_tile_dimensions
        src1 src_elements_per_row src_tile_dimensions
        transpose_matrix clamp_mode = Some dst1
      /\ async_copy_to_threadgroup T T0 fuel
           dst dst_elements_per_row dst_tile_dimensions
           src2 src_elements_per_row src_tile_dimensions
           transpose_matrix clamp_mode = Some dst2
      /\ forall i, dst1 i = dst2 i.
Proof.
  intros fuel dst depr ddims src1 src2 sepr sdims t clamp
    Hfuel Hdepr Hddims Hsepr Hsdims Hsrc.
  eexists. eexists.
  split; [apply forward_is_write_cells; assumption|].
  split; [apply forward_is_write_cells; assumption|].
  apply write_cells_ext; [|reflexivity].
  intros x y [Hx Hy]. apply forward_cell_ext; try lia. exact Hsrc.
Qed.

(** X4: copying a tile from device to threadgroup memory and back leaves
    device memory as it was, and copying it from threadgroup to device
    memory and back leaves threadgroup memory as it was, when the rows of
    the intermediate tile do not overlap. *)
Theorem tile_round_trip :
  forall (fuel : nat)
         (threadgroup : memory T) (threadgroup_elements_per_row : Z)
         (device : memory T) (device_elements_per_row : Z)
         (tile_dimensions : vec2) (transpose_matrix : bool)
         (clamp_mode : simdgroup_async_copy_clamp_mode),
    65536 <= Z.of_nat fuel ->
    is_ushort threadgroup_elements_per_row ->
    is_uint device_elements_per_row ->
    is_ushort2 tile_dimensions ->
    let width := vec_x (extent transpose_matrix tile_dimensions) in
    (width <= threadgroup_elements_per_row ->
     exists threadgroup' device' : memory T,
       async_copy_to_threadgroup T T0 fuel
         threadgroup threadgroup_elements_per_row tile_dimensions
         device device_elements_per_row tile_dimensions
         transpose_matrix clamp_mode = Some threadgroup'
       /\ async_copy_to_device T fuel
            device device_elements_per_row tile_dimensions
            threadgroup' threadgroup_elements_per_row tile_dimensions
            transpose_matrix = Some device'
       /\ forall i, device' i = device i)
    /\ (width <= device_elements_per_row ->
        exists device' threadgroup' : memory T,
          async_copy_to_device T fuel
            device device_elements_per_row tile_dimensions
            threadgroup threadgroup_elements_per_row tile_dimensions
            transpose_matrix = Some device'
          /\ async_copy_to_threadgroup T T0 fuel
               threadgroup threadgroup_elements_per_row tile_dimensions
               device' device_elements_per_row tile_dimensions
               transpose_matrix clamp_mode = Some threadgroup'
          /\ forall i, threadgroup' i = threadgroup i).
Proof.
  intros fuel tg tepr dev depr dims t clamp Hfuel Htepr Hdepr Hdims width.
  set (e := extent t dims).
  assert (Hoverlap : overlap e e = e).
  { unfold overlap. destruct e as [ex ey]. simpl. rewrite !Z.min_id.
    reflexivity. }
  split; intros Hwidth; eexists; eexists.
  - split; [apply forward_is_write_cells; assumption|].
    split; [apply reverse_is_write_cells; assumption|].
    fold e. rewrite Hoverlap. apply write_cells_same.
    intros x y Hin. unfold reverse_cell.
    rewrite TileCopy.write_cells_inside by assumption.
    apply forward_cell_inside. exact Hin.
  - split; [apply reverse_is_write_cells; assumption|].
    split; [apply forward_is_write_cells; assumption|].
    fold e. rewrite Hoverlap. apply write_cells_same.
    intros x y Hin. rewrite forward_cell_inside by exact Hin.
    rewrite TileCopy.write_cells_inside by assumption. reflexivity.
Qed.

(** X5: when the destination extent lies within the source extent the
    clamp mode has no effect on the forward copy. *)
Theorem clamp_mode_only_matters_outside_source :
  forall (fuel : nat)
         (dst : memory T) (dst_elements_per_row : Z)
         (dst_tile_dimensions : vec2)
         (src : memory T) (src_elements_per_row : Z)
         (src_tile_dimensions : vec2)
         (transpose_matrix : bool)
         (mode1 mode2 : simdgroup_async_copy_clamp_mode),
    65536 <= Z.of_nat fuel ->
    is_ushort dst_elements_per_row -> is_ushort2 dst_tile_dimensions ->
    is_uint src_elements_per_row -> is_ushort2 src_tile_dimensions ->
    vec_x (extent transpose_matrix dst_tile_dimensions)
      <= vec_x (extent transpose_matrix src_tile_dimensions) ->
    vec_y (extent transpose_matrix dst_tile_dimensions)
      <= vec_y (extent transpose_matrix src_tile_dimensions) ->
    exists dst1 dst2 : memory T,
      async_copy_to_threadgroup T T0 fuel
        dst dst_elements_per_row dst_tile_dimensions
        src src_elements_per_row src_tile_dimensions
        transpose_matrix mode1 = Some dst1
      /\ async_copy_to_threadgroup T T0 fuel
           dst dst_elements_per_row dst_tile_dimensions
           src src_elements_per_row src_tile_dimensions
           transpose_matrix mode2 = Some dst2
      /\ forall i, dst1 i = dst2 i.
Proof.
  intros fuel dst depr ddims src sepr sdims t mode1 mode2
    Hfuel Hdepr Hddims Hsepr Hsdims Hx Hy.
  eexists. eexists.
  split; [apply forward_is_write_cells; assumption|].
  split; [apply forward_is_write_cells; assumption|].
  apply write_cells_ext; [|reflexivity].
  intros x y [Hcx Hcy].
  rewrite !forward_cell_inside by (unfold inside; lia). reflexivity.
Qed.

(** X6: the reverse copy reads the source inside the overlap only, so
    inside the source extent: two sources that agree on the cells of the
    overlap give the same destination. *)
Theorem reverse_copy_reads_inside_overlap :
  forall (fuel : nat)
         (dst : memory T) (dst_elements_per_row : Z)
         (dst_tile_dimensions : vec2)
         (src1 src2 : memory T) (src_elements_per_row : Z)
         (src_tile_dimensions : vec2)
         (transpose_matrix : bool),
    65536 <= Z.of_nat fuel ->
    is_uint dst_elements_per_row -> is_ushort2 dst_tile_dimensions ->
    is_ushort src_elements_per_row -> is_ushort2 src_tile_dimensions ->
    (forall x y,
       inside (overlap (extent transpose_matrix dst_tile_dimensions)
                       (extent transpose_matrix src_tile_dimensions)) x y ->
       src1 (cell_index src_elements_per_row x y)
       = src2 (cell_index src_elements_per_row x y)) ->
    exists dst1 dst2 : memory T,
      async_copy_to_device T fuel
        dst dst_elements_per_row dst_tile_dimensions
        src1 src_elements_per_row src_tile_dimensions
        transpose_matrix = Some dst1
      /\ async_copy_to_device T fuel
           dst dst_elements_per_row dst_tile_dimensions
           src2 src_elements_per_row src_tile_dimensions
           transpose_matrix = Some dst2
      /\ forall i, dst1 i = dst2 i.
Proof.
  intros fuel dst depr ddims src1 src2 sepr sdims t
    Hfuel Hdepr Hddims Hsepr Hsdims Hsrc.
  eexists. eexists.
  split; [apply reverse_is_write_cells; assumption|].
  split; [apply reverse_is_write_cells; assumption|].
  apply write_cells_ext; [|reflexivity].
  intros x y Hin. unfold reverse_cell. apply Hsrc. exact Hin.
Qed.

End Laws.

(** A 3 x 2 tile with stride 3 is the copy of 6 elements. *)
Lemma contiguous_tile_copy_is_elementwise_witness :
  exists tiled flat : memory Z,
    async_copy_to_threadgroup Z 0 (Z.to_nat 65536)
      (fun _ => -1) 3 (vec2_of 3 2) (fun i => 100 + i) 3 (vec2_of 3 2)
      false clamp_to_zero = Some tiled
    /\ async_copy_elements Z (Z.to_nat 65536)
         (fun _ => -1) (fun i => 100 + i) 6 = Some flat
    /\ forall i, tiled i = flat i.
Proof.
  assert (H3 : is_ushort 3) by (unfold is_ushort; lia).
  assert (H2 : is_ushort 2) by (unfold is_ushort; lia).
  assert (Hfuel : 3 * 2 < Z.of_nat (Z.to_nat 65536)) by lia.
  exact (contiguous_tile_copy_is_elementwise Z 0 (Z.to_nat 65536)
           (fun _ => -1) (fun i => 100 + i) (vec2_of 3 2) false clamp_to_zero
           ltac:(lia) Hfuel (conj H3 H2)).
Defined.

(** Two sources that differ from element 4 on, read through a 2 x 2
    extent of stride 2. *)
Lemma forward_copy_reads_inside_source_extent_witness :
  exists dst1 dst2 : memory Z,
    async_copy_to_threadgroup Z 0 (Z.to_nat 65536)
      (fun _ => -1) 4 (vec2_of 4 4)
      (fun i => 100 + i) 2 (vec2_of 2 2) false clamp_to_edge = Some dst1
    /\ async_copy_to_threadgroup Z 0 (Z.to_nat 65536)
         (fun _ => -1) 4 (vec2_of 4 4)
         (fun i => if i <? 4 then 100 + i else 0) 2 (vec2_of 2 2)
         false clamp_to_edge = Some dst2
    /\ forall i, dst1 i = dst2 i.
Proof.
  assert (H4 : is_ushort 4) by (unfold is_ushort; lia).
  assert (H2 : is_ushort 2) by (unfold is_ushort; lia).
  apply (forward_copy_reads_inside_source_extent Z 0 (Z.to_nat 65536)
           (fun _ => -1) 4 (vec2_of 4 4)
           (fun i => 100 + i) (fun i => if i <? 4 then 100 + i else 0)
           2 (vec2_of 2 2) false clamp_to_edge
           ltac:(lia) H4 (conj H4 H4)
           (TileCopy.is_ushort_is_uint 2 H2) (conj H2 H2)).
  intros x y [Hx Hy]. cbv [extent yx vec_x vec_y] in Hx, Hy.
  unfold cell_index.
  destruct (Z.ltb_spec (y * 2 + x) 4); [reflexivity | lia].
Defined.

(** A 2 x 3 tile, transposed, through a threadgroup stride of 4. *)
Lemma tile_round_trip_witness :
  exists threadgroup' device' : memory Z,
    async_copy_to_threadgroup Z 0 (Z.to_nat 65536)
      (fun _ => -1) 4 (vec2_of 2 3) (fun i => 100 + i) 7 (vec2_of 2 3)
      true clamp_to_zero = Some threadgroup'
    /\ async_copy_to_device Z (Z.to_nat 65536)
         (fun i => 100 + i) 7 (vec2_of 2 3) threadgroup' 4 (vec2_of 2 3)
         true = Some device'
    /\ forall i, device' i = 100 + i.
Proof.
  assert (H4 : is_ushort 4) by (unfold is_ushort; lia).
  assert (H3 : is_ushort 3) by (unfold is_ushort; lia).
  assert (H2 : is_ushort 2) by (unfold is_ushort; lia).
  assert (H7 : is_uint 7) by (unfold is_uint; lia).
  pose proof (tile_round_trip Z 0 (Z.to_nat 65536)
                (fun _ => -1) 4 (fun i => 100 + i) 7 (vec2_of 2 3) true
                clamp_to_zero ltac:(lia) H4 H7 (conj H2 H3)) as H.
  cbv zeta in H. destruct H as [Hforward _].
  apply Hforward. cbv [extent yx vec_x vec_y]. lia.
Defined.

(** Destination 2 x 2 inside source 4 x 4: both clamp modes agree. *)
Lemma clamp_mode_only_matters_outside_source_witness :
  exists dst1 dst2 : memory Z,
    async_copy_to_threadgroup Z 0 (Z.to_nat 65536)
      (fun _ => -1) 2 (vec2_of 2 2) (fun i => 100 + i) 4 (vec2_of 4 4)
      false clamp_to_zero = Some dst1
    /\ async_copy_to_threadgroup Z 0 (Z.to_nat 65536)
         (fun _ => -1) 2 (vec2_of 2 2) (fun i => 100 + i) 4 (vec2_of 4 4)
         false clamp_to_edge = Some dst2
    /\ forall i, dst1 i = dst2 i.
Proof.
  assert (H4 : is_ushort 4) by (unfold is_ushort; lia).
  assert (H2 : is_ushort 2) by (unfold is_ushort; lia).
  apply (clamp_mode_only_matters_outside_source Z 0 (Z.to_nat 65536)
           (fun _ => -1) 2 (vec2_of 2 2) (fun i => 100 + i) 4 (vec2_of 4 4)
           false clamp_to_zero clamp_to_edge
           ltac:(lia) H2 (conj H2 H2)
           (TileCopy.is_ushort_is_uint 4 H4) (conj H4 H4));
    cbv [extent yx vec_x vec_y]; lia.
Defined.

(** Two sources that differ outside the 2 x 2 overlap. *)
Lemma reverse_copy_reads_inside_overlap_witness :
  exists dst1 dst2 : memory Z,
    async_copy_to_device Z (Z.to_nat 65536)
      (fun _ => -1) 4 (vec2_of 2 2)
      (fun i => 100 + i) 4 (vec2_of 4 4) false = Some dst1
    /\ async_copy_to_device Z (Z.to_nat 65536)
         (fun _ => -1) 4 (vec2_of 2 2)
         (fun i => if i <? 6 then 100 + i else 0) 4 (vec2_of 4 4) false
       = Some dst2
    /\ forall i, dst1 i = dst2 i.
Proof.
  assert (H4 : is_ushort 4) by (unfold is_ushort; lia).
  assert (H2 : is_ushort 2) by (unfold is_ushort; lia).
  apply (reverse_copy_reads_inside_overlap Z (Z.to_nat 65536)
           (fun _ => -1) 4 (vec2_of 2 2)
           (fun i => 100 + i) (fun i => if i <? 6 then 100 + i else 0)
           4 (vec2_of 4 4) false
           ltac:(lia) (TileCopy.is_ushort_is_uint 4 H4) (conj H2 H2)
           H4 (conj H4 H4)).
  intros x y [Hx Hy]. cbv [overlap extent yx vec_x vec_y] in Hx, Hy.
  unfold cell_index.
  destruct (Z.ltb_spec (y * 4 + x) 6); [reflexivity | lia].
Defined.

End TileCopyLaws.

(** ** Offsets and addresses together *)

Module OffsetLaws.

Import Metal Spec.
Import Generator MetalText.

(** X7: [apply_offset] and the address of a load or store compose.  The
    pointer that the device [apply_offset] returns for a base origin, moved
    by the emitted address of element k at a local origin, points at the
    address of element k at the sum of the two origins, when the base
    product and the local address fit 32 bits. *)
Theorem apply_offset_then_address :
  forall (src elements_per_row : Z) (base local : vec2)
         (transpose_matrix : bool) (k : Z),
    k = 0 \/ k = 1 ->
    is_uint elements_per_row ->
    is_uint (vec_x base) -> is_uint (vec_y base) ->
    is_ushort2 local ->
    row_of transpose_matrix base * elements_per_row < 2 ^ 32 ->
    address transpose_matrix elements_per_row local k < 2 ^ 32 ->
    exists a : Z,
      eval_text 32 (parameters elements_per_row local transpose_matrix)
        (createAddress device transpose_matrix k) = Some a
      /\ apply_offset_device src elements_per_row base transpose_matrix + a
         = src + address transpose_matrix elements_per_row
                   (vec2_add base local) k.
Proof.
  intros src epr base local t k Hk Hepr Hbx Hby [Hlx Hly] Hproduct Hfit.
  unfold is_uint, is_ushort in *.
  exists (address t epr local k). split.
  - apply (Address.createAddress_eval_exact device t 32 k epr local t);
      simpl; try assumption; try lia.
  - pose proof (ApplyOffset.apply_offset_device_offset src epr base t) as Hoff.
    unfold row_of in Hproduct. unfold address, vec2_add. simpl.
    destruct t; rewrite Z.mod_small in Hoff by nia; lia.
Qed.

(** Base origin (64, 128), stride 256, local origin (2, 5), element 1. *)
Lemma apply_offset_then_address_witness :
  exists a : Z,
    eval_text 32 (parameters 256 (vec2_of 2 5) false)
      (createAddress device false 1) = Some a
    /\ apply_offset_device 1000 256 (vec2_of 64 128) false + a
       = 1000 + address false 256 (vec2_of 66 133) 1.
Proof.
  apply (apply_offset_then_address 1000 256 (vec2_of 64 128) (vec2_of 2 5)
           false 1);
    unfold is_uint, is_ushort2, is_ushort, row_of, address; simpl; lia.
Defined.

(** X8: the threadgroup [apply_offset] forms its product in [int], not in
    16 bits: on [ushort] operands whose product is below 2^31 it adds the
    full product and the column, as the device overload does on the same
    operands, and on a product from 2^31 on it has no defined result. *)
Theorem apply_offset_threadgroup_full_product :
  forall (src elements_per_row : Z) (matrix_origin : vec2)
         (transpose_matrix : bool),
    is_ushort elements_per_row -> is_ushort2 matrix_origin ->
    let product := row_of transpose_matrix matrix_origin * elements_per_row in
    (product < 2 ^ 31 ->
     apply_offset_threadgroup src elements_per_row matrix_origin
       transpose_matrix
     = Some (src + product + column_of transpose_matrix matrix_origin)
     /\ apply_offset_device src elements_per_row matrix_origin
          transpose_matrix
        = src + product + column_of transpose_matrix matrix_origin)
    /\ (2 ^ 31 <= product ->
        apply_offset_threadgroup src elements_per_row matrix_origin
          transpose_matrix = None).
Proof.
  intros src epr origin t Hepr [Hx Hy] product.
  unfold is_ushort in *.
  assert (Hpos : 0 <= product) by (unfold product, row_of; destruct t; nia).
  split.
  - intros Hfit. split.
    + unfold apply_offset_threadgroup, int_value.
      unfold product, row_of, column_of in *.
      destruct t;
        match goal with
        | |- context [(?a <=? ?p) && (?p <? ?b)] =>
            destruct (Z.leb_spec a p); [|lia];
            destruct (Z.ltb_spec p b); [|lia]
        end; reflexivity.
    + pose proof (ApplyOffset.apply_offset_device_offset src epr origin t)
        as Hoff.
      unfold product, row_of, column_of in *.
      destruct t; rewrite Z.mod_small in Hoff by lia; lia.
  - intros Hbig. unfold apply_offset_threadgroup, int_value.
    unfold product, row_of in *.
    destruct t;
      match goal with
      | |- context [(?a <=? ?p) && (?p <? ?b)] =>
          destruct (Z.ltb_spec p b); [lia|];
          rewrite andb_false_r
      end; reflexivity.
Qed.

(** Origin (5, 300) with stride 300: the offset 90005 is beyond 16 bits. *)
Lemma apply_offset_threadgroup_full_product_witness :
  apply_offset_threadgroup 0 300 (vec2_of 5 300) false = Some 90005
  /\ apply_offset_device 0 300 (vec2_of 5 300) false = 90005.
Proof.
  assert (H300 : is_ushort 300) by (unfold is_ushort; lia).
  assert (H5 : is_ushort 5) by (unfold is_ushort; lia).
  pose proof (apply_offset_threadgroup_full_product 0 300 (vec2_of 5 300)
                false H300 (conj H5 H300)) as H.
  cbv zeta in H. destruct H as [Hfit _].
  apply Hfit. unfold row_of. simpl. lia.
Defined.

(** The value of the address expression of element k in the type of the
    expression: [uint] in device space, [int] in threadgroup space. *)
Lemma deduced_value (addressSpace : AddressSpace) (elements_per_row : Z)
    (matrix_origin : vec2) (transpose_matrix transposed : bool) (k : Z) :
  k = 0 \/ k = 1 ->
  is_ushort2 matrix_origin ->
  0 <= elements_per_row < 2 ^ offset_bits addressSpace ->
  Statements.deduced addressSpace elements_per_row matrix_origin
    transpose_matrix (createAddress addressSpace transposed k)
  = match addressSpace with
    | device =>
        Some (address transposed elements_per_row matrix_origin k mod 2 ^ 32)
    | threadgroup =>
        int_value (promoted_address transposed elements_per_row
                     matrix_origin k)
    end.
Proof.
  intros Hk [Hx Hy] Hepr. unfold is_ushort in Hx, Hy.
  unfold Statements.deduced, Statements.arguments_of_call.
  destruct addressSpace.
  - apply (Address.createAddress_eval device). exact Hk.
  - rewrite Address.createAddress_eval_any_width by exact Hk.
    f_equal. unfold wrapped_address, promoted_address.
    change (offset_bits threadgroup) with 16 in *.
    set (x := vec_x matrix_origin) in *.
    set (y := vec_y matrix_origin) in *.
    cbv zeta. unfold wrap.
    rewrite (Z.mod_small (x + k) (2 ^ 64)) by lia.
    rewrite (Z.mod_small y (2 ^ 16)) by lia.
    assert (Hc : 0 <= (x + k) mod 2 ^ 16 < 2 ^ 16)
      by (apply Z.mod_pos_bound; lia).
    destruct transposed.
    + assert (0 <= (x + k) mod 2 ^ 16 * elements_per_row < 2 ^ 32) by nia.
      rewrite (Z.mod_small ((x + k) mod 2 ^ 16 * elements_per_row)) by lia.
      apply Z.mod_small. lia.
    + assert (0 <= y * elements_per_row < 2 ^ 32) by nia.
      rewrite (Z.mod_small (y * elements_per_row)) by lia.
      apply Z.mod_small. lia.
Qed.

(** Converted to the offset type, the promoted address is the address of
    the specification in the arithmetic of that type. *)
Lemma promoted_address_wrapped (transposed : bool) (elements_per_row : Z)
    (matrix_origin : vec2) (k : Z) :
  wrap 16 (promoted_address transposed elements_per_row matrix_origin k)
  = element_address threadgroup transposed elements_per_row matrix_origin k.
Proof.
  unfold promoted_address, element_address, address, wrap.
  change (offset_bits threadgroup) with 16. cbv zeta.
  destruct transposed.
  - rewrite <- Zplus_mod_idemp_l, Zmult_mod_idemp_l, Zplus_mod_idemp_l.
    reflexivity.
  - rewrite Zplus_mod_idemp_r. reflexivity.
Qed.

(** The promoted address is not negative and not above the address of the
    specification. *)
Lemma promoted_address_bounds (transposed : bool) (elements_per_row : Z)
    (matrix_origin : vec2) (k : Z) :
  k = 0 \/ k = 1 ->
  is_ushort2 matrix_origin ->
  0 <= elements_per_row ->
  0 <= promoted_address transposed elements_per_row matrix_origin k
    <= address transposed elements_per_row matrix_origin k.
Proof.
  intros Hk [Hx Hy] Hepr. unfold is_ushort in Hx, Hy.
  unfold promoted_address, address, wrap. cbv zeta.
  assert (Hc : 0 <= (vec_x matrix_origin + k) mod 2 ^ 16
               <= vec_x matrix_origin + k).
  { split; [apply Z.mod_pos_bound; lia|].
    apply Z.mod_le; lia. }
  destruct transposed; nia.
Qed.

(** An address that [int] holds has the promoted address as its value. *)
Lemma deduced_defined (addressSpace : AddressSpace) (elements_per_row : Z)
    (matrix_origin : vec2) (transpose_matrix transposed : bool) (k : Z) :
  k = 0 \/ k = 1 ->
  is_ushort2 matrix_origin ->
  0 <= elements_per_row < 2 ^ offset_bits addressSpace ->
  address_defined addressSpace transposed elements_per_row matrix_origin k ->
  Statements.deduced addressSpace elements_per_row matrix_origin
    transpose_matrix (createAddress addressSpace transposed k)
  = Some match addressSpace with
         | device =>
             address transposed elements_per_row matrix_origin k mod 2 ^ 32
         | threadgroup =>
             promoted_address transposed elements_per_row matrix_origin k
         end.
Proof.
  intros Hk Horigin Hepr Hdefined.
  rewrite deduced_value by assumption.
  destruct addressSpace; [reflexivity|].
  pose proof (promoted_address_bounds transposed elements_per_row
                matrix_origin k Hk Horigin ltac:(lia)) as Hbounds.
  unfold address_defined in Hdefined. unfold int_value.
  destruct (Z.leb_spec (- 2 ^ 31)
              (promoted_address transposed elements_per_row matrix_origin k));
    [|lia].
  destruct (Z.ltb_spec
              (promoted_address transposed elements_per_row matrix_origin k)
              (2 ^ 31)); [reflexivity|lia].
Qed.

(** An address that [int] does not hold has no value. *)
Lemma deduced_undefined (elements_per_row : Z) (matrix_origin : vec2)
    (transpose_matrix transposed : bool) (k : Z) :
  k = 0 \/ k = 1 ->
  is_ushort2 matrix_origin ->
  0 <= elements_per_row < 2 ^ 16 ->
  2 ^ 31 <= promoted_address transposed elements_per_row matrix_origin k ->
  Statements.deduced threadgroup elements_per_row matrix_origin
    transpose_matrix (createAddress threadgroup transposed k)
  = None.
Proof.
  intros Hk Horigin Hepr Hbig.
  rewrite deduced_value by assumption.
  unfold int_value.
  destruct (Z.ltb_spec
              (promoted_address transposed elements_per_row matrix_origin k)
              (2 ^ 31)); [lia|].
  rewrite andb_false_r. reflexivity.
Qed.

(** The packed address of an even stride and an even column is even. *)
Lemma packed_address_even (addressSpace : AddressSpace)
    (elements_per_row : Z) (matrix_origin : vec2) :
  Z.even elements_per_row = true ->
  Z.even (vec_x matrix_origin) = true ->
  Z.even (packed_address addressSpace elements_per_row matrix_origin) = true.
Proof.
  intros Hepr Hx.
  assert (Hv : Z.even (address false elements_per_row matrix_origin 0) = true).
  { unfold address. rewrite Z.even_add, Z.even_mul, Hepr, orb_true_r.
    rewrite Z.add_0_r, Hx. reflexivity. }
  unfold packed_address. destruct addressSpace; [|exact Hv].
  rewrite Z.mod_eq by lia.
  rewrite Z.even_sub, Z.even_mul, Hv. reflexivity.
Qed.

(** Without a wrap of the column, the promoted address is the address of
    the specification. *)
Lemma promoted_address_exact (transposed : bool) (elements_per_row : Z)
    (matrix_origin : vec2) (k : Z) :
  0 <= vec_x matrix_origin + k < 2 ^ 16 ->
  promoted_address transposed elements_per_row matrix_origin k
  = address transposed elements_per_row matrix_origin k.
Proof.
  intros Hx. unfold promoted_address, address, wrap. cbv zeta.
  rewrite Z.mod_small by exact Hx. reflexivity.
Qed.

(** The value of [auto combinedAddress] where it is defined. *)
Lemma deduced_packed_address (addressSpace : AddressSpace)
    (elements_per_row : Z) (matrix_origin : vec2) (transpose_matrix : bool) :
  is_ushort2 matrix_origin ->
  0 <= elements_per_row < 2 ^ offset_bits addressSpace ->
  address_defined addressSpace false elements_per_row matrix_origin 0 ->
  Statements.deduced addressSpace elements_per_row matrix_origin
    transpose_matrix (createAddress addressSpace false 0)
  = Some (packed_address addressSpace elements_per_row matrix_origin).
Proof.
  intros Horigin Hepr Hdefined.
  rewrite (deduced_defined addressSpace elements_per_row matrix_origin
             transpose_matrix false 0) by auto.
  unfold packed_address. destruct addressSpace; [reflexivity|].
  rewrite promoted_address_exact; [reflexivity|].
  destruct Horigin as [Hx _]. unfold is_ushort in Hx. lia.
Qed.

(** X9: in the non-transposed packed path the address is the value of
    [auto combinedAddress], of type [uint] in device space and of type
    [int] in threadgroup space.  For an origin and a stride of their types,
    where [int] holds the threadgroup address, that value is defined; it is
    the address of element 0 (modulo 2^32 in device space, not wrapped to
    16 bits in threadgroup space), and for an even stride and an even
    origin.x it is even, so that the 2-wide access is aligned exactly when
    the pointer is: the parity guard of the codec-off functions supplies
    the even stride and [morton_order] supplies even columns. *)
Theorem packed_address_is_even :
  forall (addressSpace : AddressSpace) (elements_per_row : Z)
         (matrix_origin : vec2) (transpose_matrix : bool),
    is_ushort2 matrix_origin ->
    0 <= elements_per_row < 2 ^ offset_bits addressSpace ->
    address_defined addressSpace false elements_per_row matrix_origin 0 ->
    Z.even elements_per_row = true ->
    Z.even (vec_x matrix_origin) = true ->
    exists a : Z,
      Statements.deduced addressSpace elements_per_row matrix_origin
        transpose_matrix (createAddress addressSpace false 0) = Some a
      /\ a = packed_address addressSpace elements_per_row matrix_origin
      /\ Z.even a = true
      /\ forall pointer : Z, Z.even (pointer + a) = Z.even pointer.
Proof.
  intros s epr origin t Horigin Hepr Hdefined Heven Hx.
  exists (packed_address s epr origin).
  assert (Ha : Z.even (packed_address s epr origin) = true)
    by (apply packed_address_even; assumption).
  split; [|split; [reflexivity|split; [exact Ha|]]].
  - apply deduced_packed_address; assumption.
  - intros pointer. rewrite Z.even_add, Ha.
    destruct (Z.even pointer); reflexivity.
Qed.

(** Threadgroup space, stride 300, origin (4, 300): the address is 90004,
    beyond 16 bits, and even. *)
Lemma packed_address_is_even_witness :
  exists a : Z,
    Statements.deduced threadgroup 300 (vec2_of 4 300) false
      (createAddress threadgroup false 0) = Some a
    /\ a = 90004
    /\ Z.even a = true
    /\ forall pointer : Z, Z.even (pointer + a) = Z.even pointer.
Proof.
  assert (H4 : is_ushort 4) by (unfold is_ushort; lia).
  assert (H300 : is_ushort 300) by (unfold is_ushort; lia).
  apply (packed_address_is_even threadgroup 300 (vec2_of 4 300) false
           (conj H4 H300)).
  - simpl. lia.
  - unfold address_defined, promoted_address, wrap. simpl. lia.
  - reflexivity.
  - reflexivity.
Defined.

End OffsetLaws.

(** ** The lane layout beyond the fragment *)

Module MortonOrderLaws.

Import Metal Spec.

(** X10: [morton_order] is defined on every [ushort] lane index, and only
    the 32 lanes of a SIMD group land in the 8 x 8 fragment: a lane index
    from 32 on has a row from 8 on.  Adding 32 to a lane index adds 8 to
    its row and keeps its column. *)
Theorem morton_order_outside_fragment :
  forall lane : Z,
    is_ushort lane ->
    (In (morton_order lane) grid <-> lane < 32)
    /\ (32 <= lane -> 8 <= vec_y (morton_order lane))
    /\ (lane + 32 < 2 ^ 16 ->
        morton_order (lane + 32)
        = vec2_of (vec_x (morton_order lane)) (vec_y (morton_order lane) + 8)).
Proof.
  intros lane Hlane. unfold is_ushort in Hlane.
  assert (Hall : forallb (fun lane =>
            let c := morton_order lane in
            Bool.eqb ((0 <=? vec_x c) && (vec_x c <? 8)
                      && (0 <=? vec_y c) && (vec_y c <? 8)) (lane <? 32)
            && ((lane <? 32) || (8 <=? vec_y c))
            && ((2 ^ 16 <=? lane + 32)
                || vec2_eqb (morton_order (lane + 32))
                     (vec2_of (vec_x c) (vec_y c + 8))))
            (upto 65536) = true)
    by (vm_compute; reflexivity).
  rewrite forallb_forall in Hall.
  specialize (Hall lane (proj2 (Ranges.in_upto 65536 lane) Hlane)).
  cbv zeta in Hall.
  rewrite !andb_true_iff in Hall. destruct Hall as [[Hgrid Hrow] Hshift].
  apply Bool.eqb_prop in Hgrid.
  split; [|split].
  - rewrite Ranges.in_grid. split.
    + intros [Hx Hy].
      replace ((0 <=? vec_x (morton_order lane))
               && (vec_x (morton_order lane) <? 8)
               && (0 <=? vec_y (morton_order lane))
               && (vec_y (morton_order lane) <? 8)) with true in Hgrid.
      * symmetry in Hgrid. apply Z.ltb_lt in Hgrid. exact Hgrid.
      * symmetry. rewrite !andb_true_iff, !Z.leb_le, !Z.ltb_lt. lia.
    + intros Hlt. apply Z.ltb_lt in Hlt. rewrite Hlt in Hgrid.
      rewrite !andb_true_iff, !Z.leb_le, !Z.ltb_lt in Hgrid. lia.
  - intros Hbig. apply orb_true_iff in Hrow. destruct Hrow as [Hrow|Hrow].
    + apply Z.ltb_lt in Hrow. lia.
    + apply Z.leb_le in Hrow. exact Hrow.
  - intros Hfit. apply orb_true_iff in Hshift.
    destruct Hshift as [Hshift|Hshift].
    + apply Z.leb_le in Hshift. lia.
    + apply MortonOrder.vec2_eqb_eq. exact Hshift.
Qed.

(** Lane 41 is lane 9 eight rows further down. *)
Lemma morton_order_outside_fragment_witness :
  (In (morton_order 41) grid <-> 41 < 32)
  /\ 8 <= vec_y (morton_order 41)
  /\ morton_order (9 + 32) = vec2_of 6 8.
Proof.
  assert (H41 : is_ushort 41) by (unfold is_ushort; lia).
  assert (H9 : is_ushort 9) by (unfold is_ushort; lia).
  destruct (morton_order_outside_fragment 41 H41) as (Hgrid & Hrow & _).
  destruct (morton_order_outside_fragment 9 H9) as (_ & _ & Hshift).
  split; [exact Hgrid|]. split; [apply Hrow; lia|].
  rewrite Hshift by lia. reflexivity.
Defined.

End MortonOrderLaws.

(** ** What the generated functions do *)

Module StatementsLaws.

Import Generator MetalText Statements.
Import Spec.

Local Open Scope string_scope.

(** The block that runs, by the branch table. *)
Lemma block_of_call_selected (addressSpace : AddressSpace)
    (elements_per_row : Z) (matrix_origin : Metal.vec2)
    (transpose_matrix : bool) (action : Action) (decodingBF16 : bool) :
  block_of_call addressSpace elements_per_row matrix_origin transpose_matrix
    action decodingBF16
  = Some (if transpose_matrix then
            block (createTwoPartAccess action addressSpace decodingBF16 true)
          else if decodingBF16 then
            match action with
            | load =>
                block (createOnePartAccess action addressSpace decodingBF16)
            | store =>
                block (createTwoPartAccess action addressSpace decodingBF16
                         false)
            end
          else if Z.odd elements_per_row then
            block (createTwoPartAccess action addressSpace decodingBF16 false)
          else block (createOnePartAccess action addressSpace decodingBF16)).
Proof.
  unfold block_of_call, arguments_of_call, executed_block.
  destruct action, addressSpace, decodingBF16;
    match goal with
    | |- context [read_chain ?b] =>
        let chain := eval vm_compute in (read_chain b) in
        replace (read_chain b) with chain by (vm_compute; reflexivity)
    end;
    unfold select; rewrite BranchTable.transpose_guard;
    (destruct transpose_matrix; [vm_compute; reflexivity|]);
    simpl Z.b2z; simpl Z.eqb; cbv iota;
    try (vm_compute; reflexivity);
    rewrite BranchTable.parity_guard;
    (destruct (Z.odd elements_per_row); vm_compute; reflexivity).
Qed.

(** *** Blocks, for any evaluation of the addresses *)

Section Blocks.

Variable pointer : Z.
Variable declared : string -> option Z.
Variable deduced : string -> option Z.

(** Runs a block once the values of its addresses are known. *)
Ltac run_block H0 H1 :=
  vm_compute in H0; vm_compute in H1; vm_compute;
  rewrite ?H0, ?H1; vm_compute; reflexivity.

(** Runs a packed block at an aligned address. *)
Ltac run_aligned_block H0 Heven :=
  vm_compute in H0; vm_compute in Heven; vm_compute;
  rewrite H0; vm_compute; rewrite Heven; vm_compute; reflexivity.

Section NativeBlocks.

Variables U T : Type.
Variable to_T : U -> T.
Variable to_U : T -> U.

Lemma native_two_part_load (addressSpace : AddressSpace) (transposed : bool)
    (a0 a1 : Z) (elements : T * T) (m : Z -> U) :
  declared (createAddress addressSpace transposed 0) = Some a0 ->
  declared (createAddress addressSpace transposed 1) = Some a1 ->
  run_native addressSpace pointer declared deduced U T to_T to_U
    (block (createTwoPartAccess load addressSpace false transposed))
    elements m
  = Some ((to_T (m (pointer + a0)%Z), to_T (m (pointer + a1)%Z)), m).
Proof.
  intros H0 H1. destruct addressSpace, transposed; run_block H0 H1.
Qed.

Lemma native_one_part_load (addressSpace : AddressSpace) (a : Z)
    (elements : T * T) (m : Z -> U) :
  deduced (createAddress addressSpace false 0) = Some a ->
  Z.even (pointer + a) = true ->
  run_native addressSpace pointer declared deduced U T to_T to_U
    (block (createOnePartAccess load addressSpace false)) elements m
  = Some ((to_T (m (pointer + a)%Z), to_T (m (pointer + a + 1)%Z)), m).
Proof.
  intros H0 Heven. destruct addressSpace; run_aligned_block H0 Heven.
Qed.

Lemma native_two_part_store (addressSpace : AddressSpace) (transposed : bool)
    (a0 a1 : Z) (elements : T * T) (m : Z -> U) :
  declared (createAddress addressSpace transposed 0) = Some a0 ->
  declared (createAddress addressSpace transposed 1) = Some a1 ->
  run_native addressSpace pointer declared deduced U T to_T to_U
    (block (createTwoPartAccess store addressSpace false transposed))
    elements m
  = Some (elements,
          Metal.store U
            (Metal.store U m (pointer + a0)%Z (to_U (fst elements)))
            (pointer + a1)%Z (to_U (snd elements))).
Proof.
  intros H0 H1. destruct elements as [t0 t1].
  destruct addressSpace, transposed; run_block H0 H1.
Qed.

Lemma native_one_part_store (addressSpace : AddressSpace) (a : Z)
    (elements : T * T) (m : Z -> U) :
  deduced (createAddress addressSpace false 0) = Some a ->
  Z.even (pointer + a) = true ->
  run_native addressSpace pointer declared deduced U T to_T to_U
    (block (createOnePartAccess store addressSpace false)) elements m
  = Some (elements,
          Metal.store U
            (Metal.store U m (pointer + a)%Z (to_U (fst elements)))
            (pointer + a + 1)%Z (to_U (snd elements))).
Proof.
  intros H0 Heven. destruct elements as [t0 t1].
  destruct addressSpace; run_aligned_block H0 Heven.
Qed.

(** A block whose address has no value has no result. *)
Lemma native_two_part_undefined (action : Action)
    (addressSpace : AddressSpace) (transposed : bool)
    (elements : T * T) (m : Z -> U) :
  declared (createAddress addressSpace transposed 0) = None
  \/ declared (createAddress addressSpace transposed 1) = None ->
  run_native addressSpace pointer declared deduced U T to_T to_U
    (block (createTwoPartAccess action addressSpace false transposed))
    elements m
  = None.
Proof.
  intros H.
  destruct (declared (createAddress addressSpace transposed 0)) as [a0|]
    eqn:H0;
    [destruct H as [H | H1]; [discriminate H|] | clear H];
    destruct action, addressSpace, transposed;
    first [run_block H0 H1 | run_block H0 H0].
Qed.

Lemma native_one_part_undefined (action : Action)
    (addressSpace : AddressSpace) (elements : T * T) (m : Z -> U) :
  deduced (createAddress addressSpace false 0) = None ->
  run_native addressSpace pointer declared deduced U T to_T to_U
    (block (createOnePartAccess action addressSpace false)) elements m
  = None.
Proof.
  intros H0. destruct action, addressSpace; run_block H0 H0.
Qed.

End NativeBlocks.

Section CodecBlocks.

Variable B : Type.

Lemma codec_two_part_load (addressSpace : AddressSpace) (transposed : bool)
    (a0 a1 : Z) (elements : bfloat4 B) (m : Z -> B) :
  declared (createAddress addressSpace transposed 0) = Some a0 ->
  declared (createAddress addressSpace transposed 1) = Some a1 ->
  run_codec addressSpace pointer declared deduced B
    (block (createTwoPartAccess load addressSpace true transposed))
    elements m
  = Some ({| lane0 := lane0 B elements; lane1 := m (pointer + a0)%Z;
             lane2 := lane2 B elements; lane3 := m (pointer + a1)%Z |}, m).
Proof.
  intros H0 H1. destruct elements as [b0 b1 b2 b3].
  destruct addressSpace, transposed; run_block H0 H1.
Qed.

Lemma codec_one_part_load (addressSpace : AddressSpace) (a : Z)
    (elements : bfloat4 B) (m : Z -> B) :
  deduced (createAddress addressSpace false 0) = Some a ->
  run_codec addressSpace pointer declared deduced B
    (block (createOnePartAccess load addressSpace true)) elements m
  = Some ({| lane0 := lane0 B elements; lane1 := m (pointer + a)%Z;
             lane2 := m (pointer + a)%Z;
             lane3 := m (pointer + a + 1)%Z |}, m).
Proof.
  intros H0. destruct elements as [b0 b1 b2 b3].
  destruct addressSpace; run_block H0 H0.
Qed.

Lemma codec_two_part_store (addressSpace : AddressSpace) (transposed : bool)
    (a0 a1 : Z) (elements : bfloat4 B) (m : Z -> B) :
  declared (createAddress addressSpace transposed 0) = Some a0 ->
  declared (createAddress addressSpace transposed 1) = Some a1 ->
  run_codec addressSpace pointer declared deduced B
    (block (createTwoPartAccess store addressSpace true transposed))
    elements m
  = Some (elements,
          Metal.store B
            (Metal.store B m (pointer + a0)%Z (lane1 B elements))
            (pointer + a1)%Z (lane3 B elements)).
Proof.
  intros H0 H1. destruct elements as [b0 b1 b2 b3].
  destruct addressSpace, transposed; run_block H0 H1.
Qed.

Lemma codec_two_part_undefined (action : Action)
    (addressSpace : AddressSpace) (transposed : bool)
    (elements : bfloat4 B) (m : Z -> B) :
  declared (createAddress addressSpace transposed 0) = None
  \/ declared (createAddress addressSpace transposed 1) = None ->
  run_codec addressSpace pointer declared deduced B
    (block (createTwoPartAccess action addressSpace true transposed))
    elements m
  = None.
Proof.
  intros H.
  destruct (declared (createAddress addressSpace transposed 0)) as [a0|]
    eqn:H0;
    [destruct H as [H | H1]; [discriminate H|] | clear H];
    destruct action, addressSpace, transposed;
    first [run_block H0 H1 | run_block H0 H0].
Qed.

Lemma codec_one_part_undefined (addressSpace : AddressSpace)
    (elements : bfloat4 B) (m : Z -> B) :
  deduced (createAddress addressSpace false 0) = None ->
  run_codec addressSpace pointer declared deduced B
    (block (createOnePartAccess load addressSpace true)) elements m
  = None.
Proof.
  intros H0. destruct addressSpace; run_block H0 H0.
Qed.

End CodecBlocks.

End Blocks.

(** *** The addresses of a call *)

(** The block that runs is the block of the path of the branch table. *)
Lemma block_of_call_path (addressSpace : AddressSpace)
    (elements_per_row : Z) (matrix_origin : Metal.vec2)
    (transpose_matrix : bool) (action : Action) (decodingBF16 : bool) :
  block_of_call addressSpace elements_per_row matrix_origin transpose_matrix
    action decodingBF16
  = Some (block
            match branch_table action decodingBF16 transpose_matrix
                    elements_per_row with
            | two_part transposed =>
                createTwoPartAccess action addressSpace decodingBF16
                  transposed
            | one_part =>
                createOnePartAccess action addressSpace decodingBF16
            end).
Proof.
  rewrite block_of_call_selected. unfold branch_table.
  destruct transpose_matrix, decodingBF16, action,
    (Z.odd elements_per_row); reflexivity.
Qed.

(** A declared address that has a value is the address of the
    specification in the arithmetic of the offset type. *)
Lemma declared_defined (addressSpace : AddressSpace) (elements_per_row : Z)
    (matrix_origin : Metal.vec2) (transpose_matrix transposed : bool)
    (k : Z) :
  k = 0%Z \/ k = 1%Z ->
  is_ushort2 matrix_origin ->
  (0 <= elements_per_row < 2 ^ offset_bits addressSpace)%Z ->
  address_defined addressSpace transposed elements_per_row matrix_origin k ->
  declared addressSpace elements_per_row matrix_origin transpose_matrix
    (createAddress addressSpace transposed k)
  = Some (element_address addressSpace transposed elements_per_row
            matrix_origin k).
Proof.
  intros Hk Horigin Hepr Hdefined. unfold declared.
  rewrite OffsetLaws.deduced_defined by assumption.
  simpl. f_equal. destruct addressSpace.
  - unfold Metal.wrap, element_address. apply Zmod_mod.
  - apply OffsetLaws.promoted_address_wrapped.
Qed.

Lemma declared_undefined (elements_per_row : Z) (matrix_origin : Metal.vec2)
    (transpose_matrix transposed : bool) (k : Z) :
  k = 0%Z \/ k = 1%Z ->
  is_ushort2 matrix_origin ->
  (0 <= elements_per_row < 2 ^ 16)%Z ->
  (2 ^ 31 <= promoted_address transposed elements_per_row matrix_origin k)%Z ->
  declared threadgroup elements_per_row matrix_origin transpose_matrix
    (createAddress threadgroup transposed k)
  = None.
Proof.
  intros Hk Horigin Hepr Hbig. unfold declared.
  rewrite OffsetLaws.deduced_undefined by assumption. reflexivity.
Qed.

(** Where the addresses of a two-part path are not all defined, one of
    the two declarations has no value. *)
Lemma two_part_undefined (addressSpace : AddressSpace)
    (elements_per_row : Z) (matrix_origin : Metal.vec2)
    (transpose_matrix transposed : bool) :
  is_ushort2 matrix_origin ->
  (0 <= elements_per_row < 2 ^ offset_bits addressSpace)%Z ->
  ~ addresses_defined addressSpace (two_part transposed) elements_per_row
      matrix_origin ->
  declared addressSpace elements_per_row matrix_origin transpose_matrix
    (createAddress addressSpace transposed 0) = None
  \/ declared addressSpace elements_per_row matrix_origin transpose_matrix
       (createAddress addressSpace transposed 1) = None.
Proof.
  intros Horigin Hepr Hnot. destruct addressSpace.
  - exfalso. apply Hnot. split; exact I.
  - simpl in Hnot.
    destruct (Z.lt_ge_cases
                (promoted_address transposed elements_per_row
                   matrix_origin 0) (2 ^ 31)) as [H0 | H0].
    + destruct (Z.lt_ge_cases
                  (promoted_address transposed elements_per_row
                     matrix_origin 1) (2 ^ 31)) as [H1 | H1].
      * exfalso. apply Hnot. split; assumption.
      * right. apply declared_undefined; auto.
    + left. apply declared_undefined; auto.
Qed.

Lemma one_part_undefined (addressSpace : AddressSpace)
    (elements_per_row : Z) (matrix_origin : Metal.vec2)
    (transpose_matrix : bool) :
  is_ushort2 matrix_origin ->
  (0 <= elements_per_row < 2 ^ offset_bits addressSpace)%Z ->
  ~ addresses_defined addressSpace one_part elements_per_row matrix_origin ->
  deduced addressSpace elements_per_row matrix_origin transpose_matrix
    (createAddress addressSpace false 0) = None.
Proof.
  intros Horigin Hepr Hnot. destruct addressSpace.
  - exfalso. apply Hnot. exact I.
  - simpl in Hnot. apply OffsetLaws.deduced_undefined; auto.
    apply Z.nlt_ge. exact Hnot.
Qed.

(** The two element indices of a path differ for a stride that is not
    zero. *)
Lemma element_addresses_differ (addressSpace : AddressSpace)
    (transposed : bool) (elements_per_row : Z) (matrix_origin : Metal.vec2) :
  (0 < elements_per_row < 2 ^ offset_bits addressSpace)%Z ->
  element_address addressSpace transposed elements_per_row matrix_origin 0
  <> element_address addressSpace transposed elements_per_row matrix_origin 1.
Proof.
  intros Hstride Heq. unfold element_address in Heq.
  set (bits := offset_bits addressSpace) in *.
  assert (Hbits : (2 < 2 ^ bits)%Z)
    by (unfold bits; destruct addressSpace; simpl; lia).
  assert (Hdiff : ((address transposed elements_per_row matrix_origin 1
                    - address transposed elements_per_row matrix_origin 0)
                   mod 2 ^ bits = 0)%Z).
  { rewrite Zminus_mod, Heq, Z.sub_diag. apply Zmod_0_l. }
  assert (Hstep : (address transposed elements_per_row matrix_origin 1
                   - address transposed elements_per_row matrix_origin 0
                   = if transposed then elements_per_row else 1)%Z).
  { unfold address. destruct transposed; ring. }
  rewrite Hstep in Hdiff.
  rewrite Z.mod_small in Hdiff by (destruct transposed; lia).
  destruct transposed; lia.
Qed.

Lemma element_indices_differ (addressSpace : AddressSpace)
    (pointer : Z) (path : access_path) (elements_per_row : Z)
    (matrix_origin : Metal.vec2) :
  (0 < elements_per_row < 2 ^ offset_bits addressSpace)%Z ->
  (pointer
   + fst (element_indices addressSpace path elements_per_row matrix_origin)
   <> pointer
      + snd (element_indices addressSpace path elements_per_row
               matrix_origin))%Z.
Proof.
  intros Hstride. destruct path as [transposed|]; simpl.
  - pose proof (element_addresses_differ addressSpace transposed
                  elements_per_row matrix_origin Hstride). lia.
  - lia.
Qed.

(** Where the second address fits the offset type, the one-part path
    reaches the elements of the non-transposed two-part path. *)
Lemma packed_pair (addressSpace : AddressSpace) (elements_per_row : Z)
    (matrix_origin : Metal.vec2) :
  is_ushort2 matrix_origin ->
  (0 <= elements_per_row)%Z ->
  (address false elements_per_row matrix_origin 1
   < 2 ^ offset_bits addressSpace)%Z ->
  element_indices addressSpace one_part elements_per_row matrix_origin
  = element_indices addressSpace (two_part false) elements_per_row
      matrix_origin.
Proof.
  intros [Hx Hy] Hepr Hfit. unfold Metal.is_ushort in Hx, Hy.
  assert (Hstep : (address false elements_per_row matrix_origin 1
                   = address false elements_per_row matrix_origin 0 + 1)%Z)
    by (unfold address; lia).
  assert (Hpos : (0 <= address false elements_per_row matrix_origin 0)%Z)
    by (unfold address; nia).
  unfold element_indices, element_address, packed_address.
  destruct addressSpace; simpl offset_bits in *;
    rewrite (Z.mod_small (address false elements_per_row matrix_origin 1))
      by lia;
    rewrite !(Z.mod_small (address false elements_per_row matrix_origin 0))
      by lia;
    rewrite Hstep; reflexivity.
Qed.

Section NativeCalls.

Variables U T : Type.
Variable to_T : U -> T.
Variable to_U : T -> U.

Lemma call_native_load (addressSpace : AddressSpace)
    (pointer elements_per_row : Z) (matrix_origin : Metal.vec2)
    (transpose_matrix : bool) (elements : T * T) (m : Z -> U) :
  let path := branch_table load false transpose_matrix elements_per_row in
  let i := element_indices addressSpace path elements_per_row
             matrix_origin in
  is_ushort2 matrix_origin ->
  (0 <= elements_per_row < 2 ^ offset_bits addressSpace)%Z ->
  addresses_defined addressSpace path elements_per_row matrix_origin ->
  aligned addressSpace pointer path elements_per_row matrix_origin ->
  call_native addressSpace pointer elements_per_row matrix_origin
    transpose_matrix U T to_T to_U load elements m
  = Some ((to_T (m (pointer + fst i)%Z), to_T (m (pointer + snd i)%Z)), m).
Proof.
  intros path i Horigin Hepr Hdefined Haligned. unfold call_native.
  rewrite block_of_call_path. subst i. fold path.
  destruct path as [transposed|]; simpl in *.
  - destruct Hdefined as [H0 H1].
    apply native_two_part_load; apply declared_defined; auto.
  - rewrite Z.add_assoc. apply native_one_part_load; [|exact Haligned].
    apply OffsetLaws.deduced_packed_address; assumption.
Qed.

Lemma call_native_store (addressSpace : AddressSpace)
    (pointer elements_per_row : Z) (matrix_origin : Metal.vec2)
    (transpose_matrix : bool) (elements : T * T) (m : Z -> U) :
  let path := branch_table store false transpose_matrix elements_per_row in
  let i := element_indices addressSpace path elements_per_row
             matrix_origin in
  is_ushort2 matrix_origin ->
  (0 <= elements_per_row < 2 ^ offset_bits addressSpace)%Z ->
  addresses_defined addressSpace path elements_per_row matrix_origin ->
  aligned addressSpace pointer path elements_per_row matrix_origin ->
  call_native addressSpace pointer elements_per_row matrix_origin
    transpose_matrix U T to_T to_U store elements m
  = Some (elements,
          Metal.store U
            (Metal.store U m (pointer + fst i)%Z (to_U (fst elements)))
            (pointer + snd i)%Z (to_U (snd elements))).
Proof.
  intros path i Horigin Hepr Hdefined Haligned. unfold call_native.
  rewrite block_of_call_path. subst i. fold path.
  destruct path as [transposed|]; simpl in *.
  - destruct Hdefined as [H0 H1].
    apply native_two_part_store; apply declared_defined; auto.
  - rewrite Z.add_assoc. apply native_one_part_store; [|exact Haligned].
    apply OffsetLaws.deduced_packed_address; assumption.
Qed.

Lemma call_native_undefined (addressSpace : AddressSpace)
    (pointer elements_per_row : Z) (matrix_origin : Metal.vec2)
    (transpose_matrix : bool) (action : Action) (elements : T * T)
    (m : Z -> U) :
  is_ushort2 matrix_origin ->
  (0 <= elements_per_row < 2 ^ offset_bits addressSpace)%Z ->
  ~ addresses_defined addressSpace
      (branch_table action false transpose_matrix elements_per_row)
      elements_per_row matrix_origin ->
  call_native addressSpace pointer elements_per_row matrix_origin
    transpose_matrix U T to_T to_U action elements m
  = None.
Proof.
  intros Horigin Hepr Hnot. unfold call_native.
  rewrite block_of_call_path.
  destruct (branch_table action false transpose_matrix elements_per_row)
    as [transposed|].
  - apply native_two_part_undefined. apply two_part_undefined; assumption.
  - apply native_one_part_undefined. apply one_part_undefined; assumption.
Qed.

End NativeCalls.

Section CodecCalls.

Variable B : Type.

Lemma call_codec_load (addressSpace : AddressSpace)
    (pointer elements_per_row : Z) (matrix_origin : Metal.vec2)
    (transpose_matrix : bool) (elements : bfloat4 B) (m : Z -> B) :
  let path := branch_table load true transpose_matrix elements_per_row in
  let i := element_indices addressSpace path elements_per_row
             matrix_origin in
  is_ushort2 matrix_origin ->
  (0 <= elements_per_row < 2 ^ offset_bits addressSpace)%Z ->
  addresses_defined addressSpace path elements_per_row matrix_origin ->
  call_codec addressSpace pointer elements_per_row matrix_origin
    transpose_matrix B load elements m
  = Some ({| lane0 := lane0 B elements;
             lane1 := m (pointer + fst i)%Z;
             lane2 := if transpose_matrix then lane2 B elements
                      else m (pointer + fst i)%Z;
             lane3 := m (pointer + snd i)%Z |}, m).
Proof.
  intros path i Horigin Hepr Hdefined. unfold call_codec.
  rewrite block_of_call_path. subst i. fold path.
  unfold path, branch_table in *.
  destruct transpose_matrix; simpl in *.
  - destruct Hdefined as [H0 H1].
    apply codec_two_part_load; apply declared_defined; auto.
  - rewrite Z.add_assoc. apply codec_one_part_load.
    apply OffsetLaws.deduced_packed_address; assumption.
Qed.

Lemma call_codec_store (addressSpace : AddressSpace)
    (pointer elements_per_row : Z) (matrix_origin : Metal.vec2)
    (transpose_matrix : bool) (elements : bfloat4 B) (m : Z -> B) :
  let path := branch_table store true transpose_matrix elements_per_row in
  let i := element_indices addressSpace path elements_per_row
             matrix_origin in
  is_ushort2 matrix_origin ->
  (0 <= elements_per_row < 2 ^ offset_bits addressSpace)%Z ->
  addresses_defined addressSpace path elements_per_row matrix_origin ->
  call_codec addressSpace pointer elements_per_row matrix_origin
    transpose_matrix B store elements m
  = Some (elements,
          Metal.store B
            (Metal.store B m (pointer + fst i)%Z (lane1 B elements))
            (pointer + snd i)%Z (lane3 B elements)).
Proof.
  intros path i Horigin Hepr Hdefined. unfold call_codec.
  rewrite block_of_call_path. subst i. fold path.
  unfold path, branch_table in *.
  destruct transpose_matrix; simpl in *; destruct Hdefined as [H0 H1];
    apply codec_two_part_store; apply declared_defined; auto.
Qed.

Lemma call_codec_undefined (addressSpace : AddressSpace)
    (pointer elements_per_row : Z) (matrix_origin : Metal.vec2)
    (transpose_matrix : bool) (action : Action) (elements : bfloat4 B)
    (m : Z -> B) :
  is_ushort2 matrix_origin ->
  (0 <= elements_per_row < 2 ^ offset_bits addressSpace)%Z ->
  ~ addresses_defined addressSpace
      (branch_table action true transpose_matrix elements_per_row)
      elements_per_row matrix_origin ->
  call_codec addressSpace pointer elements_per_row matrix_origin
    transpose_matrix B action elements m
  = None.
Proof.
  intros Horigin Hepr Hnot. unfold call_codec.
  rewrite block_of_call_path. unfold branch_table in *.
  destruct transpose_matrix.
  - apply codec_two_part_undefined. apply two_part_undefined; assumption.
  - destruct action.
    + apply codec_one_part_undefined. apply one_part_undefined; assumption.
    + apply codec_two_part_undefined. apply two_part_undefined; assumption.
Qed.

End CodecCalls.

(** *** The generated functions *)

Lemma store_two (V : Type) (m : Z -> V) (i0 i1 : Z) (v0 v1 : V) :
  let m' := Metal.store V (Metal.store V m i0 v0) i1 v1 in
  m' i1 = v1
  /\ (i0 <> i1 -> m' i0 = v0)
  /\ (forall i, i <> i0 -> i <> i1 -> m' i = m i).
Proof.
  cbv zeta. split; [apply TileCopy.store_same|]. split.
  - intros Hne. rewrite TileCopy.store_other by exact Hne.
    apply TileCopy.store_same.
  - intros i H0 H1. rewrite !TileCopy.store_other by assumption.
    reflexivity.
Qed.

(** Writing back what two distinct elements hold changes nothing. *)
Lemma store_back (V : Type) (m : Z -> V) (i0 i1 : Z) :
  forall i : Z, Metal.store V (Metal.store V m i0 (m i0)) i1 (m i1) i = m i.
Proof.
  intros i. unfold Metal.store.
  destruct (Z.eqb_spec i i1) as [->|]; [reflexivity|].
  destruct (Z.eqb_spec i i0) as [->|]; reflexivity.
Qed.

Section Native.

Variables U T : Type.
Variable to_T : U -> T.
Variable to_U : T -> U.

(** X11: the load generated without the codec, called with an origin and
    a stride of their types on a pointer into memory.  Where the address
    expressions of the path it takes have values (in threadgroup space:
    where [int] holds them) and the 2-wide access of the packed path is
    aligned, it returns the two elements of memory the path reaches,
    converted to the register type, and leaves memory as it is: on a
    two-part path the elements at the addresses of elements 0 and 1 in the
    arithmetic of the offset type, on the packed path the element at the
    value of combinedAddress and the one after it.  Where an address
    expression of the path has no value the call has no defined result.
    The packed path reaches the elements of the non-transposed two-part
    path where the second address fits the offset type. *)
Theorem generated_load_result :
  forall (addressSpace : AddressSpace) (pointer elements_per_row : Z)
         (matrix_origin : Metal.vec2) (transpose_matrix : bool)
         (elements : T * T) (m : Z -> U),
    is_ushort2 matrix_origin ->
    (0 <= elements_per_row < 2 ^ offset_bits addressSpace)%Z ->
    let path := branch_table load false transpose_matrix elements_per_row in
    let i := element_indices addressSpace path elements_per_row
               matrix_origin in
    (addresses_defined addressSpace path elements_per_row matrix_origin ->
     aligned addressSpace pointer path elements_per_row matrix_origin ->
     call_native addressSpace pointer elements_per_row matrix_origin
       transpose_matrix U T to_T to_U load elements m
     = Some ((to_T (m (pointer + fst i)%Z), to_T (m (pointer + snd i)%Z)),
             m))
    /\ (~ addresses_defined addressSpace path elements_per_row
          matrix_origin ->
        call_native addressSpace pointer elements_per_row matrix_origin
          transpose_matrix U T to_T to_U load elements m
        = None)
    /\ ((address false elements_per_row matrix_origin 1
         < 2 ^ offset_bits addressSpace)%Z ->
        element_indices addressSpace one_part elements_per_row matrix_origin
        = element_indices addressSpace (two_part false) elements_per_row
            matrix_origin).
Proof.
  intros s pointer epr origin t elements m Horigin Hepr path i.
  split; [|split].
  - intros Hdefined Haligned. apply call_native_load; assumption.
  - intros Hnot. apply call_native_undefined; assumption.
  - intros Hfit. apply packed_pair; [assumption | lia | assumption].
Qed.

(** X12: the store generated without the codec, under the same
    conditions, returns with the register as it was and memory changed at
    the two elements its path reaches and nowhere else: element 1 of the
    register, converted, stands at the second, element 0 at the first when
    the two differ.  Where an address expression of the path has no value
    the call has no defined result. *)
Theorem generated_store_result :
  forall (addressSpace : AddressSpace) (pointer elements_per_row : Z)
         (matrix_origin : Metal.vec2) (transpose_matrix : bool)
         (elements : T * T) (m : Z -> U),
    is_ushort2 matrix_origin ->
    (0 <= elements_per_row < 2 ^ offset_bits addressSpace)%Z ->
    let path := branch_table store false transpose_matrix elements_per_row in
    let i := element_indices addressSpace path elements_per_row
               matrix_origin in
    (addresses_defined addressSpace path elements_per_row matrix_origin ->
     aligned addressSpace pointer path elements_per_row matrix_origin ->
     exists m' : Z -> U,
       call_native addressSpace pointer elements_per_row matrix_origin
         transpose_matrix U T to_T to_U store elements m
       = Some (elements, m')
       /\ m' (pointer + snd i)%Z = to_U (snd elements)
       /\ (fst i <> snd i -> m' (pointer + fst i)%Z = to_U (fst elements))
       /\ (forall j : Z,
             j <> (pointer + fst i)%Z -> j <> (pointer + snd i)%Z ->
             m' j = m j))
    /\ (~ addresses_defined addressSpace path elements_per_row
          matrix_origin ->
        call_native addressSpace pointer elements_per_row matrix_origin
          transpose_matrix U T to_T to_U store elements m
        = None).
Proof.
  intros s pointer epr origin t elements m Horigin Hepr path i.
  split.
  - intros Hdefined Haligned. eexists. split.
    + apply call_native_store; assumption.
    + fold path. fold i.
      destruct (store_two U m (pointer + fst i) (pointer + snd i)
                  (to_U (fst elements)) (to_U (snd elements)))
        as (H1 & H0 & Hframe).
      split; [exact H1|]. split; [|exact Hframe].
      intros Hne. apply H0. lia.
  - intros Hnot. apply call_native_undefined; assumption.
Qed.

(** X13: without the codec and for a stride that is not zero, a store
    followed by a load of the same origin gives back the register converted
    to the memory type and back, whatever the register held before the
    load; a load followed by a store leaves every element of memory as it
    was when converting an element to the register type and back gives the
    element. *)
Theorem native_round_trip :
  forall (addressSpace : AddressSpace) (pointer elements_per_row : Z)
         (matrix_origin : Metal.vec2) (transpose_matrix : bool)
         (elements : T * T) (m : Z -> U),
    is_ushort2 matrix_origin ->
    (0 < elements_per_row < 2 ^ offset_bits addressSpace)%Z ->
    let path := branch_table load false transpose_matrix elements_per_row in
    addresses_defined addressSpace path elements_per_row matrix_origin ->
    aligned addressSpace pointer path elements_per_row matrix_origin ->
    (exists m' : Z -> U,
       call_native addressSpace pointer elements_per_row matrix_origin
         transpose_matrix U T to_T to_U store elements m
       = Some (elements, m')
       /\ forall previous : T * T,
            call_native addressSpace pointer elements_per_row matrix_origin
              transpose_matrix U T to_T to_U load previous m'
            = Some ((to_T (to_U (fst elements)), to_T (to_U (snd elements))),
                    m'))
    /\ ((forall u : U, to_U (to_T u) = u) ->
        exists (loaded : T * T) (m' : Z -> U),
          call_native addressSpace pointer elements_per_row matrix_origin
            transpose_matrix U T to_T to_U load elements m
          = Some (loaded, m)
          /\ call_native addressSpace pointer elements_per_row matrix_origin
               transpose_matrix U T to_T to_U store loaded m
             = Some (loaded, m')
          /\ forall j : Z, m' j = m j).
Proof.
  intros s pointer epr origin t elements m Horigin Hepr path Hdefined
    Haligned.
  assert (Hepr' : (0 <= epr < 2 ^ offset_bits s)%Z) by lia.
  pose proof (element_indices_differ s pointer path epr origin Hepr) as Hne.
  assert (Hsame : branch_table store false t epr = path) by reflexivity.
  pose proof (call_native_store U T to_T to_U s pointer epr origin t) as Hs.
  cbv zeta in Hs. rewrite Hsame in Hs.
  pose proof (call_native_load U T to_T to_U s pointer epr origin t) as Hl.
  cbv zeta in Hl. fold path in Hl.
  split.
  - eexists. split; [apply Hs; assumption|].
    intros previous. rewrite Hl by assumption.
    match goal with
    | |- context [Metal.store U (Metal.store U m ?i0 ?v0) ?i1 ?v1] =>
        destruct (store_two U m i0 i1 v0 v1) as (H1 & H0 & _)
    end.
    cbv zeta in H0, H1. rewrite H1, H0 by exact Hne. reflexivity.
  - intros Hid. eexists. eexists.
    split; [apply Hl; assumption|].
    split; [apply Hs; assumption|].
    intros j. simpl fst. simpl snd. rewrite !Hid. apply store_back.
Qed.

End Native.

Section Codec.

Variable B : Type.

(** X14: the load generated with the codec, called with an origin and a
    stride of their types where the address expressions of its path have
    values, puts the pattern at the first element its path reaches into
    lane 1 and the pattern at the second into lane 3, the upper halves of
    the two floats, and leaves lane 0 and memory as they are.  It leaves
    lane 2 as it is when transposed; the packed access of the
    non-transposed path also writes the first pattern into lane 2.  Where
    an address expression of the path has no value the call has no defined
    result. *)
Theorem generated_codec_load_result :
  forall (addressSpace : AddressSpace) (pointer elements_per_row : Z)
         (matrix_origin : Metal.vec2) (transpose_matrix : bool)
         (elements : bfloat4 B) (m : Z -> B),
    is_ushort2 matrix_origin ->
    (0 <= elements_per_row < 2 ^ offset_bits addressSpace)%Z ->
    let path := branch_table load true transpose_matrix elements_per_row in
    let i := element_indices addressSpace path elements_per_row
               matrix_origin in
    (addresses_defined addressSpace path elements_per_row matrix_origin ->
     call_codec addressSpace pointer elements_per_row matrix_origin
       transpose_matrix B load elements m
     = Some ({| lane0 := lane0 B elements;
                lane1 := m (pointer + fst i)%Z;
                lane2 := if transpose_matrix then lane2 B elements
                         else m (pointer + fst i)%Z;
                lane3 := m (pointer + snd i)%Z |}, m))
    /\ (~ addresses_defined addressSpace path elements_per_row
          matrix_origin ->
        call_codec addressSpace pointer elements_per_row matrix_origin
          transpose_matrix B load elements m
        = None).
Proof.
  intros s pointer epr origin t elements m Horigin Hepr path i.
  split.
  - intros Hdefined. apply call_codec_load; assumption.
  - intros Hnot. apply call_codec_undefined; assumption.
Qed.

(** X15: the store generated with the codec takes the two-part path
    whatever the stride.  Called with an origin and a stride of their types
    where the two address expressions have values, it returns with the
    register as it was (the copy of lane 1 into lane 2 is made on a local),
    writes lane 3 at the second address and lane 1 at the first (when the
    two differ) and touches no other element of memory.  Where one of the
    address expressions has no value the call has no defined result. *)
Theorem generated_codec_store_result :
  forall (addressSpace : AddressSpace) (pointer elements_per_row : Z)
         (matrix_origin : Metal.vec2) (transpose_matrix : bool)
         (elements : bfloat4 B) (m : Z -> B),
    is_ushort2 matrix_origin ->
    (0 <= elements_per_row < 2 ^ offset_bits addressSpace)%Z ->
    let a0 := element_address addressSpace transpose_matrix
                elements_per_row matrix_origin 0 in
    let a1 := element_address addressSpace transpose_matrix
                elements_per_row matrix_origin 1 in
    let defined :=
      address_defined addressSpace transpose_matrix elements_per_row
        matrix_origin 0
      /\ address_defined addressSpace transpose_matrix elements_per_row
           matrix_origin 1 in
    (defined ->
     exists m' : Z -> B,
       call_codec addressSpace pointer elements_per_row matrix_origin
         transpose_matrix B store elements m
       = Some (elements, m')
       /\ m' (pointer + a1)%Z = lane3 B elements
       /\ (a0 <> a1 -> m' (pointer + a0)%Z = lane1 B elements)
       /\ (forall j : Z,
             j <> (pointer + a0)%Z -> j <> (pointer + a1)%Z -> m' j = m j))
    /\ (~ defined ->
        call_codec addressSpace pointer elements_per_row matrix_origin
          transpose_matrix B store elements m
        = None).
Proof.
  intros s pointer epr origin t elements m Horigin Hepr a0 a1 defined.
  assert (Hpath : branch_table store true t epr = two_part t)
    by (destruct t; reflexivity).
  split.
  - intros Hdefined.
    pose proof (call_codec_store B s pointer epr origin t elements m) as H.
    cbv zeta in H. rewrite Hpath in H.
    specialize (H Horigin Hepr Hdefined). simpl fst in H. simpl snd in H.
    eexists. split; [exact H|].
    destruct (store_two B m (pointer + a0) (pointer + a1)
                (lane1 B elements) (lane3 B elements))
      as (H1 & H0 & Hframe).
    split; [exact H1|]. split; [|exact Hframe].
    intros Hne. apply H0. lia.
  - intros Hnot. apply call_codec_undefined; try assumption.
    rewrite Hpath. exact Hnot.
Qed.

(** X16: under the codec and for a stride that is not zero, where the two
    address expressions have values and, when not transposed, the second
    address fits the offset type: a store followed by a load of the same
    origin restores lanes 1 and 3, the two narrow values, and keeps lane 0
    of the register loaded into; lane 2 is kept when transposed and is a
    copy of lane 1 when not.  A load followed by a store leaves every
    element of memory as it was. *)
Theorem codec_round_trip :
  forall (addressSpace : AddressSpace) (pointer elements_per_row : Z)
         (matrix_origin : Metal.vec2) (transpose_matrix : bool)
         (elements : bfloat4 B) (m : Z -> B),
    is_ushort2 matrix_origin ->
    (0 < elements_per_row < 2 ^ offset_bits addressSpace)%Z ->
    address_defined addressSpace transpose_matrix elements_per_row
      matrix_origin 0 ->
    address_defined addressSpace transpose_matrix elements_per_row
      matrix_origin 1 ->
    (transpose_matrix = false ->
     (address false elements_per_row matrix_origin 1
      < 2 ^ offset_bits addressSpace)%Z) ->
    (exists m' : Z -> B,
       call_codec addressSpace pointer elements_per_row matrix_origin
         transpose_matrix B store elements m
       = Some (elements, m')
       /\ forall previous : bfloat4 B,
            call_codec addressSpace pointer elements_per_row matrix_origin
              transpose_matrix B load previous m'
            = Some ({| lane0 := lane0 B previous;
                       lane1 := lane1 B elements;
                       lane2 := if transpose_matrix then lane2 B previous
                                else lane1 B elements;
                       lane3 := lane3 B elements |}, m'))
    /\ (exists (loaded : bfloat4 B) (m' : Z -> B),
          call_codec addressSpace pointer elements_per_row matrix_origin
            transpose_matrix B load elements m
          = Some (loaded, m)
          /\ call_codec addressSpace pointer elements_per_row matrix_origin
               transpose_matrix B store loaded m
             = Some (loaded, m')
          /\ forall j : Z, m' j = m j).
Proof.
  intros s pointer epr origin t elements m Horigin Hepr H0 H1 Hfit.
  assert (Hepr' : (0 <= epr < 2 ^ offset_bits s)%Z) by lia.
  assert (Hstore : branch_table store true t epr = two_part t)
    by (destruct t; reflexivity).
  assert (Hindices :
            element_indices s (branch_table load true t epr) epr origin
            = element_indices s (two_part t) epr origin).
  { destruct t; [reflexivity|].
    apply packed_pair; [assumption | lia | auto]. }
  assert (Hload : addresses_defined s (branch_table load true t epr)
                    epr origin).
  { destruct t; [split; assumption | exact H0]. }
  pose proof (element_indices_differ s pointer (two_part t) epr origin Hepr)
    as Hne.
  pose proof (call_codec_store B s pointer epr origin t) as Hs.
  cbv zeta in Hs. rewrite Hstore in Hs.
  pose proof (call_codec_load B s pointer epr origin t) as Hl.
  cbv zeta in Hl. rewrite Hindices in Hl.
  split.
  - eexists. split; [apply Hs; [assumption .. | split; assumption]|].
    intros previous. rewrite Hl by assumption.
    match goal with
    | |- context [Metal.store B (Metal.store B m ?i0 ?v0) ?i1 ?v1] =>
        destruct (store_two B m i0 i1 v0 v1) as (E1 & E0 & _)
    end.
    cbv zeta in E0, E1. rewrite E1, E0 by exact Hne. reflexivity.
  - eexists. eexists.
    split; [apply Hl; assumption|].
    split; [apply Hs; [assumption .. | split; assumption]|].
    intros j. simpl lane1. simpl lane3. apply store_back.
Qed.

End Codec.

(** Threadgroup memory holding 100 + i at element i, a pointer at element
    10, stride 300 and origin (4, 300): the stride is even, so the packed
    path runs, on the address 90004, which 16 bits do not hold. *)
Lemma generated_load_result_witness :
  call_native threadgroup 10 300 (Metal.vec2_of 4 300) false Z Z
    (fun u => u) (fun t => t) load (0, 0)%Z (fun i => 100 + i)%Z
  = Some ((90114, 90115)%Z, (fun i => 100 + i)%Z).
Proof.
  assert (H4 : Metal.is_ushort 4) by (unfold Metal.is_ushort; lia).
  assert (H300 : Metal.is_ushort 300) by (unfold Metal.is_ushort; lia).
  pose proof (generated_load_result Z Z (fun u => u) (fun t => t)
                threadgroup 10 300 (Metal.vec2_of 4 300) false (0, 0)%Z
                (fun i => 100 + i)%Z (conj H4 H300) ltac:(simpl; lia)) as H.
  cbv zeta in H. destruct H as (Hsome & _ & _).
  apply Hsome; vm_compute; reflexivity.
Defined.

(** Threadgroup space, transposed, stride 5, origin (2, 3): the two
    addresses are 13 and 18. *)
Lemma generated_store_result_witness :
  exists m' : Z -> Z,
    call_native threadgroup 0 5 (Metal.vec2_of 2 3) true Z Z
      (fun u => u) (fun t => t) store (7, 8)%Z (fun i => 100 + i)%Z
    = Some ((7, 8)%Z, m')
    /\ m' 18%Z = 8%Z /\ m' 13%Z = 7%Z /\ m' 14%Z = 114%Z.
Proof.
  assert (H2 : Metal.is_ushort 2) by (unfold Metal.is_ushort; lia).
  assert (H3 : Metal.is_ushort 3) by (unfold Metal.is_ushort; lia).
  pose proof (generated_store_result Z Z (fun u => u) (fun t => t)
                threadgroup 0 5 (Metal.vec2_of 2 3) true (7, 8)%Z
                (fun i => 100 + i)%Z (conj H2 H3) ltac:(simpl; lia)) as H.
  cbv zeta in H. destruct H as (Hsome & _).
  destruct Hsome as (m' & Hrun & H1 & H0 & Hframe);
    [split; vm_compute; reflexivity | exact I |].
  exists m'. split; [exact Hrun|].
  split; [exact H1|]. split.
  - apply H0. vm_compute. discriminate.
  - apply Hframe; vm_compute; discriminate.
Defined.

(** Device space, stride 4, origin (2, 3), a pointer at element 6: the
    packed path, on the elements 20 and 21. *)
Lemma native_round_trip_witness :
  exists m' : Z -> Z,
    call_native device 6 4 (Metal.vec2_of 2 3) false Z Z
      (fun u => u) (fun t => t) store (7, 8)%Z (fun i => 100 + i)%Z
    = Some ((7, 8)%Z, m')
    /\ call_native device 6 4 (Metal.vec2_of 2 3) false Z Z
         (fun u => u) (fun t => t) load (0, 0)%Z m'
       = Some ((7, 8)%Z, m').
Proof.
  assert (H2 : Metal.is_ushort 2) by (unfold Metal.is_ushort; lia).
  assert (H3 : Metal.is_ushort 3) by (unfold Metal.is_ushort; lia).
  destruct (native_round_trip Z Z (fun u => u) (fun t => t) device 6 4
              (Metal.vec2_of 2 3) false (7, 8)%Z (fun i => 100 + i)%Z
              (conj H2 H3) ltac:(simpl; lia) I eq_refl)
    as [(m' & Hstore & Hload) _].
  exists m'. split; [exact Hstore | apply Hload].
Defined.

(** Threadgroup space, not transposed, stride 5, origin (2, 3): the packed
    path although the stride is odd, on the elements 17 and 18. *)
Lemma generated_codec_load_result_witness :
  call_codec threadgroup 0 5 (Metal.vec2_of 2 3) false Z load
    {| lane0 := 1; lane1 := 2; lane2 := 3; lane3 := 4 |}%Z
    (fun i => 100 + i)%Z
  = Some ({| lane0 := 1; lane1 := 117; lane2 := 117; lane3 := 118 |}%Z,
          (fun i => 100 + i)%Z).
Proof.
  assert (H2 : Metal.is_ushort 2) by (unfold Metal.is_ushort; lia).
  assert (H3 : Metal.is_ushort 3) by (unfold Metal.is_ushort; lia).
  pose proof (generated_codec_load_result Z threadgroup 0 5
                (Metal.vec2_of 2 3) false
                {| lane0 := 1; lane1 := 2; lane2 := 3; lane3 := 4 |}%Z
                (fun i => 100 + i)%Z (conj H2 H3) ltac:(simpl; lia)) as H.
  cbv zeta in H. destruct H as (Hsome & _).
  apply Hsome. vm_compute. reflexivity.
Defined.

(** Threadgroup space, transposed, origin (65535, 0).  With stride 3 the
    column of element 1 wraps to 0, so the addresses are 65533 (196605 in
    16 bits) and 0.  With stride 65535 the product 65535 * 65535 is beyond
    [int], and the store has no defined result. *)
Lemma generated_codec_store_result_witness :
  (exists m' : Z -> Z,
     call_codec threadgroup 0 3 (Metal.vec2_of 65535 0) true Z store
       {| lane0 := 1; lane1 := 2; lane2 := 3; lane3 := 4 |}%Z
       (fun i => 100 + i)%Z
     = Some ({| lane0 := 1; lane1 := 2; lane2 := 3; lane3 := 4 |}%Z, m')
     /\ m' 0%Z = 4%Z /\ m' 65533%Z = 2%Z /\ m' 1%Z = 101%Z)
  /\ call_codec threadgroup 0 65535 (Metal.vec2_of 65535 0) true Z store
       {| lane0 := 1; lane1 := 2; lane2 := 3; lane3 := 4 |}%Z
       (fun i => 100 + i)%Z
     = None.
Proof.
  assert (H0 : Metal.is_ushort 0) by (unfold Metal.is_ushort; lia).
  assert (H65535 : Metal.is_ushort 65535) by (unfold Metal.is_ushort; lia).
  split.
  - pose proof (generated_codec_store_result Z threadgroup 0 3
                  (Metal.vec2_of 65535 0) true
                  {| lane0 := 1; lane1 := 2; lane2 := 3; lane3 := 4 |}%Z
                  (fun i => 100 + i)%Z (conj H65535 H0) ltac:(simpl; lia))
      as H.
    cbv zeta in H. destruct H as (Hsome & _).
    destruct Hsome as (m' & Hrun & H1 & Hfirst & Hframe);
      [split; vm_compute; reflexivity|].
    exists m'. split; [exact Hrun|].
    split; [exact H1|]. split.
    + apply Hfirst. vm_compute. discriminate.
    + apply Hframe; vm_compute; discriminate.
  - pose proof (generated_codec_store_result Z threadgroup 0 65535
                  (Metal.vec2_of 65535 0) true
                  {| lane0 := 1; lane1 := 2; lane2 := 3; lane3 := 4 |}%Z
                  (fun i => 100 + i)%Z (conj H65535 H0) ltac:(simpl; lia))
      as H.
    cbv zeta in H. destruct H as (_ & Hnone).
    apply Hnone. intros [Hdefined _]. vm_compute in Hdefined.
    discriminate Hdefined.
Defined.

(** Device space, transposed, stride 5, origin (2, 3): the addresses are
    13 and 18. *)
Lemma codec_round_trip_witness :
  exists m' : Z -> Z,
    call_codec device 0 5 (Metal.vec2_of 2 3) true Z store
      {| lane0 := 1; lane1 := 2; lane2 := 3; lane3 := 4 |}%Z
      (fun i => 100 + i)%Z
    = Some ({| lane0 := 1; lane1 := 2; lane2 := 3; lane3 := 4 |}%Z, m')
    /\ call_codec device 0 5 (Metal.vec2_of 2 3) true Z load
         {| lane0 := 9; lane1 := 9; lane2 := 9; lane3 := 9 |}%Z m'
       = Some ({| lane0 := 9; lane1 := 2; lane2 := 9; lane3 := 4 |}%Z, m').
Proof.
  assert (H2 : Metal.is_ushort 2) by (unfold Metal.is_ushort; lia).
  assert (H3 : Metal.is_ushort 3) by (unfold Metal.is_ushort; lia).
  destruct (codec_round_trip Z device 0 5 (Metal.vec2_of 2 3) true
              {| lane0 := 1; lane1 := 2; lane2 := 3; lane3 := 4 |}%Z
              (fun i => 100 + i)%Z
              (conj H2 H3) ltac:(simpl; lia) I I ltac:(discriminate))
    as [(m' & Hstore & Hload) _].
  exists m'. split; [exact Hstore|].
  apply (Hload {| lane0 := 9; lane1 := 9; lane2 := 9; lane3 := 9 |}%Z).
Defined.

End StatementsLaws.

(** ** The shape of generated text *)

Module TextLaws.

Import Generator.
Import Spec.

Local Open Scope string_scope.

Lemma depth_after_append (opening closing : ascii) (a b : string) :
  forall depth : nat,
    depth_after opening closing (a ++ b) depth
    = match depth_after opening closing a depth with
      | Some depth' => depth_after opening closing b depth'
      | None => None
      end.
Proof.
  induction a as [|c a IH]; intros depth; simpl; [reflexivity|].
  destruct (Ascii.eqb c opening); [apply IH|].
  destruct (Ascii.eqb c closing); [|apply IH].
  destruct depth; [reflexivity | apply IH].
Qed.

Lemma depth_after_spaces (opening closing : ascii) (n : nat) (depth : nat) :
  Ascii.eqb " " opening = false -> Ascii.eqb " " closing = false ->
  depth_after opening closing (spaces n) depth = Some depth.
Proof.
  intros Ho Hc. unfold spaces.
  induction n as [|n IH]; [reflexivity|].
  cbn [repeat string_of_list_ascii depth_after].
  rewrite Ho, Hc. exact IH.
Qed.

(** Indentation does not change the nesting of brackets. *)
Lemma depth_after_indented (opening closing : ascii) (n : nat)
    (lines : list string) :
  Ascii.eqb " " opening = false -> Ascii.eqb " " closing = false ->
  forall depth : nat,
    depth_after opening closing (lines_text (spaces n) lines) depth
    = depth_after opening closing (lines_text "" lines) depth.
Proof.
  intros Ho Hc. induction lines as [|line lines IH]; intros depth.
  - reflexivity.
  - rewrite !TextAssembly.lines_text_cons.
    rewrite (depth_after_append _ _ (spaces n)),
      depth_after_spaces by assumption.
    change ("" ++ line ++ newline ++ lines_text "" lines)
      with (line ++ newline ++ lines_text "" lines).
    rewrite !(depth_after_append _ _ line).
    destruct (depth_after opening closing line depth) as [d|]; [|reflexivity].
    rewrite !(depth_after_append _ _ newline).
    destruct (depth_after opening closing newline d) as [d'|];
      [apply IH | reflexivity].
Qed.

(** X17: the text generated for any fully populated descriptor with an
    indent that is not negative has its braces, its parentheses and its
    square brackets balanced and properly nested; so has the matrix
    storage header, whose first section leaves two braces open around the
    eight functions. *)
Theorem generated_text_is_balanced :
  forall (action : Action) (addressSpace : AddressSpace)
         (decodingBF16 : bool) (indentationSpaceCount : Z),
    0 <= indentationSpaceCount ->
    exists text : string,
      createMemoryAccess
        (descriptor action addressSpace decodingBF16 indentationSpaceCount)
      = inr text
      /\ balanced "{" "}" text
      /\ balanced "(" ")" text
      /\ balanced "[" "]" text
      /\ depth_after "{" "}" HeaderText.matrix_storage_first_section 0
         = Some 2%nat
      /\ exists header : string,
           createMetalSimdgroupMatrixStorage = inr header
           /\ balanced "{" "}" header
           /\ balanced "(" ")" header
           /\ balanced "[" "]" header.
Proof.
  intros action addressSpace decodingBF16 count Hcount.
  eexists. split; [apply TextAssembly.createMemoryAccess_lines; exact Hcount|].
  unfold balanced. fold (spaces (Z.to_nat count)).
  rewrite !depth_after_indented by reflexivity.
  split; [|split; [|split; [|split]]].
  - destruct action, addressSpace, decodingBF16; vm_compute; reflexivity.
  - destruct action, addressSpace, decodingBF16; vm_compute; reflexivity.
  - destruct action, addressSpace, decodingBF16; vm_compute; reflexivity.
  - vm_compute. reflexivity.
  - eexists. split; [apply Determinism.header_from_fresh_calls|].
    repeat split; vm_compute; reflexivity.
Qed.

Lemma generated_text_is_balanced_witness :
  exists text : string,
    createMemoryAccess (descriptor store device true 6) = inr text
    /\ balanced "{" "}" text
    /\ balanced "(" ")" text
    /\ balanced "[" "]" text.
Proof.
  destruct (generated_text_is_balanced store device true 6)
    as (text & Htext & Hbraces & Hparens & Hbrackets & _); [lia|].
  exists text. auto.
Defined.

(** *** Reading the descriptor off the text *)

Lemma leading_spaces_indented (n : nat) (text : string) :
  leading_spaces (spaces n ++ text) = (n + leading_spaces text)%nat.
Proof.
  unfold spaces. induction n as [|n IH]; [reflexivity|].
  cbn [repeat string_of_list_ascii append leading_spaces].
  change (Ascii.eqb " " " ") with true. cbv iota. rewrite IH. reflexivity.
Qed.

Lemma append_inv_head (a b c : string) : a ++ b = a ++ c -> b = c.
Proof.
  induction a as [|ch a IH]; simpl; intros H; [exact H|].
  injection H as H. exact (IH H).
Qed.

(** The text behind the indentation of the first two lines. *)
Lemma generated_text_shape (action : Action) (addressSpace : AddressSpace)
    (decodingBF16 : bool) (n : nat) :
  lines_text (spaces n) (function_lines action addressSpace decodingBF16)
  = spaces n ++ first_line decodingBF16 ++ newline
    ++ spaces n ++ signature action addressSpace decodingBF16 ++ newline
    ++ lines_text (spaces n)
         (map (append "  ") (body action addressSpace decodingBF16)
          ++ ["}"]).
Proof. reflexivity. Qed.

(** X18: generation is injective: two fully populated descriptors with
    indents that are not negative generate the same text only if they
    agree in operation, memory space, codec flag and indent.  In
    particular the eight functions of the header are pairwise
    different. *)
Theorem generation_is_injective :
  forall (a a' : Action) (s s' : AddressSpace) (c c' : bool) (n n' : Z),
    0 <= n -> 0 <= n' ->
    createMemoryAccess (descriptor a s c n)
    = createMemoryAccess (descriptor a' s' c' n') ->
    a = a' /\ s = s' /\ c = c' /\ n = n'.
Proof.
  intros a a' s s' c c' n n' Hn Hn' H.
  rewrite !TextAssembly.createMemoryAccess_lines in H by assumption.
  apply (f_equal (fun r : result string =>
                    match r with inr text => text | inl _ => "" end)) in H.
  cbv beta iota in H.
  fold (spaces (Z.to_nat n)) in H. fold (spaces (Z.to_nat n')) in H.
  rewrite !generated_text_shape in H.
  assert (Hindent : Z.to_nat n = Z.to_nat n').
  { apply (f_equal leading_spaces) in H.
    rewrite !leading_spaces_indented in H.
    destruct c, c'; simpl in H; lia. }
  rewrite <- Hindent in H. apply append_inv_head in H.
  assert (Hc : c = c').
  { apply (f_equal (String.substring 0 1)) in H.
    destruct c, c'; try reflexivity; discriminate H. }
  subst c'. apply append_inv_head in H.
  apply append_inv_head in H. apply append_inv_head in H.
  apply (f_equal (String.substring 0 40)) in H.
  assert (Hn'' : n = n') by lia.
  destruct a, a', s, s', c; vm_compute in H;
    try discriminate H; auto.
Qed.

(** The device and the threadgroup load differ, at any one indent. *)
Lemma generation_is_injective_witness :
  (load = load /\ device = device /\ false = false /\ 4 = 2 + 2)
  /\ createMemoryAccess (descriptor load device false 4)
     <> createMemoryAccess (descriptor load threadgroup false 4).
Proof.
  split.
  - apply (generation_is_injective load load device device false false
             4 (2 + 2)); [lia | lia | reflexivity].
  - intros H.
    destruct (generation_is_injective load load device threadgroup
                false false 4 4 ltac:(lia) ltac:(lia) H) as (_ & Hs & _).
    discriminate Hs.
Defined.

End TextLaws.
